(** * Archive password cracker: index enumeration, pattern analysis,
      Bloom filter and dispatch, verified over a shallow embedding

    The development follows [cpp_backend/src/bloom_filter.{h,cpp}] and the
    brute-force translation unit (parser, analyzer, index enumerators,
    workers, dispatcher).  Unsigned 64-bit values are integers of [Z] with
    the wrap-around written out where the C++ code can wrap; [int] values
    are integers of [Z] in the range where signed arithmetic is defined;
    [std::string] is a list of characters; files are lists of bytes. *)

From Stdlib Require Import ZArith Lia List Ascii String Bool.
From stdpp Require Import base list gmap strings.
From coqutil Require Import Byte Word.LittleEndianList.

Open Scope Z_scope.

(** ** Machine integers *)

Module Mach.

Definition UINT64_MAX : Z := 18446744073709551615.
Definition UINT32_MAX : Z := 4294967295.
Definition INT_MAX : Z := 2147483647.
Definition INT_MIN : Z := -2147483648.

(** Result of an unsigned 64-bit (resp. 32-bit) operation. *)
Definition wrap64 (x : Z) : Z := x mod 2 ^ 64.
Definition wrap32 (x : Z) : Z := x mod 2 ^ 32.

(** [static_cast<size_t>(int)] on an LP64 / LLP64 target. *)
Definition size_t_of_int (x : Z) : Z := x mod 2 ^ 64.

Definition is_uint64 (x : Z) : Prop := 0 <= x <= UINT64_MAX.
Definition is_uint32 (x : Z) : Prop := 0 <= x <= UINT32_MAX.
Definition is_int (x : Z) : Prop := INT_MIN <= x <= INT_MAX.

End Mach.
Import Mach.

(** ** Strings *)

(** A [std::string]: the sequence of its [char]s. *)
Abbreviation str := (list ascii).

(** [s[i]] for [i <= s.size()]; the element at [s.size()] is the
    terminating zero. *)
Definition char_at (s : str) (i : Z) : ascii := nth (Z.to_nat i) s zero.

(** [s.size()] / [s.length()]. *)
Definition size (s : str) : Z := Z.of_nat (length s).

Definition QMARK : str := ["?"%char].
Definition STAR : str := ["*"%char].

(** ** Pattern parser and analyzer *)

Module Pattern.

Record PatternInfo := mkPatternInfo {
  fixed_length : Z;   (* sum of literal lengths + number of '?' *)
  num_stars : Z       (* number of '*' wildcards *)
}.

(** State of the [parse_pattern] loop. *)
Record parse_state := mkParseState {
  segments_acc : list str;     (* pushed segments, in order *)
  current_segment : str;
  escape : bool
}.

Definition parse_step (st : parse_state) (c : ascii) : parse_state :=
  if escape st then
    mkParseState (segments_acc st) (current_segment st ++ [c]) false
  else if bool_decide (c = "\"%char) then
    mkParseState (segments_acc st) (current_segment st) true
  else if bool_decide (c = "*"%char) || bool_decide (c = "?"%char) then
    let pushed :=
      match current_segment st with
      | [] => segments_acc st
      | _ => segments_acc st ++ [current_segment st]
      end in
    mkParseState (pushed ++ [[c]]) [] false
  else
    mkParseState (segments_acc st) (current_segment st ++ [c]) false.

Definition parse_pattern (pattern : str) : list str :=
  let st := fold_left parse_step pattern (mkParseState [] [] false) in
  match current_segment st with
  | [] => segments_acc st
  | _ => segments_acc st ++ [current_segment st]
  end.

Definition info_step (acc : PatternInfo) (segment : str) : PatternInfo :=
  if bool_decide (segment = STAR) then
    mkPatternInfo (fixed_length acc) (num_stars acc + 1)
  else if bool_decide (segment = QMARK) then
    mkPatternInfo (fixed_length acc + 1) (num_stars acc)
  else
    mkPatternInfo (fixed_length acc + size segment) (num_stars acc).

Definition calculate_pattern_info (segments : list str) : PatternInfo :=
  fold_left info_step segments (mkPatternInfo 0 0).

(** The loop [for (seg : segments) if (seg == "?") num_qmarks++]. *)
Definition count_qmarks (segments : list str) : Z :=
  fold_left (fun n seg => if bool_decide (seg = QMARK) then n + 1 else n)
            segments 0.

(** The guarded power loop
    [for (i = 0; i < n; ++i) { if (c > MAX / size) return nullopt; c *= size; }]
    started at [combinations]. *)
Fixpoint power_loop (n : nat) (charset_size combinations : Z) : option Z :=
  match n with
  | O => Some combinations
  | S n' =>
      if combinations >? UINT64_MAX / charset_size then None
      else power_loop n' charset_size (wrap64 (combinations * charset_size))
  end.

(** [std::optional<uint64_t>]: [None] is [std::nullopt]. *)
Definition calculate_pattern_combinations
    (segments : list str) (charset_size : Z) (total_length : Z) : option Z :=
  if charset_size =? 0 then Some 0 else
  let info := calculate_pattern_info segments in
  let fixed_part_len_total := fixed_length info in
  let num_stars := num_stars info in
  let num_qmarks := count_qmarks segments in
  if total_length <? fixed_part_len_total then Some 0 else
  if num_stars =? 0 then
    if negb (total_length =? fixed_part_len_total) then Some 0 else
    let wildcard_chars := num_qmarks in
    if wildcard_chars =? 0 then Some 1 else
    power_loop (Z.to_nat wildcard_chars) charset_size 1
  else if num_stars =? 1 then
    let star_chars := total_length - fixed_part_len_total in
    if star_chars <? 0 then Some 0 else
    let total_wildcard_chars := num_qmarks + star_chars in
    if total_wildcard_chars =? 0 then Some 1 else
    power_loop (Z.to_nat total_wildcard_chars) charset_size 1
  else None.

End Pattern.
Import Pattern.

(** ** Index enumerators *)

Module Enum.

(** Inner loop of [getPasswordByIndex]: iteration [i] writes one digit at
    position [len - 1 - i] and stops early once the remaining index is
    zero (the untouched positions keep [charset[0]]). *)
Fixpoint fill_digits (fuel : nat) (i len : Z) (charset : str)
    (charsetSize index_within_length : Z) (out_password : str) : str :=
  match fuel with
  | O => out_password
  | S fuel' =>
      let char_idx := index_within_length mod charsetSize in
      let out' :=
        <[Z.to_nat (len - 1 - i) := char_at charset char_idx]> out_password in
      let index' := index_within_length / charsetSize in
      if (index' =? 0) && (i <? len - 1) then out'
      else fill_digits fuel' (i + 1) len charset charsetSize index' out'
  end.

(** The candidate of length [len] at local index [x]:
    [out.assign(len, charset[0])] followed by the digit loop. *)
Definition password_of_local (charset : str) (len x : Z) : str :=
  fill_digits (Z.to_nat len) 0 len charset (size charset) x
              (replicate (Z.to_nat len) (char_at charset 0)).

(** Outer loop of [getPasswordByIndex], entered with loop variable [len].
    [None] is [return false] ([out_password] is then left untouched),
    [Some s] is [return true] with [out_password = s].  The second
    [if (current_index < combinations_this_len) return false;] of the
    source repeats a test that has just failed and is left out. *)
Fixpoint length_loop (fuel : nat) (len : Z) (charset : str)
    (charsetSize current_index combinations_power : Z) : option str :=
  match fuel with
  | O => None
  | S fuel' =>
      let step :=
        if len =? 1 then Some (charsetSize, charsetSize)
        else if combinations_power >? UINT64_MAX / charsetSize then None
        else let p := wrap64 (combinations_power * charsetSize) in Some (p, p) in
      match step with
      | None => None
      | Some (combinations_this_len, power') =>
          if current_index <? combinations_this_len then
            Some (password_of_local charset len current_index)
          else
            length_loop fuel' (len + 1) charset charsetSize
                        (wrap64 (current_index - combinations_this_len)) power'
      end
  end.

Definition getPasswordByIndex (index : Z) (charset : str)
    (max_possible_length : Z) : option str :=
  let charsetSize := size charset in
  if charsetSize =? 0 then None
  else length_loop (Z.to_nat max_possible_length) 1 charset charsetSize index 1.

(** The offset loop of [getPatternPasswordByIndex]:
    [for (len = 1; len < total_wildcard_chars; ++len)], accumulating the
    number of shorter strings; [None] is an overflow [return false]. *)
Fixpoint offset_loop (fuel : nat) (len : Z) (charset_size : Z)
    (combinations_power offset : Z) : option Z :=
  match fuel with
  | O => Some offset
  | S fuel' =>
      let step :=
        if len =? 1 then Some (charset_size, charset_size)
        else if combinations_power >? UINT64_MAX / charset_size then None
        else let p := wrap64 (combinations_power * charset_size) in Some (p, p) in
      match step with
      | None => None
      | Some (combinations_this_len_offset, power') =>
          if offset >? UINT64_MAX - combinations_this_len_offset then None
          else offset_loop fuel' (len + 1) charset_size power'
                           (wrap64 (offset + combinations_this_len_offset))
      end
  end.

(** Assembly loop: weaves the wildcard characters into the segments.
    The state is [(out_password, wildcard_idx)]. *)
Fixpoint weave (segments : list str) (wildcard_values : str) (star_len : Z)
    (out_password : str) (wildcard_idx : Z) : option str :=
  match segments with
  | [] => Some out_password
  | segment :: rest =>
      if bool_decide (segment = QMARK) then
        if size_t_of_int wildcard_idx <? size wildcard_values then
          weave rest wildcard_values star_len
                (out_password ++ [char_at wildcard_values wildcard_idx])
                (wildcard_idx + 1)
        else None
      else if bool_decide (segment = STAR) then
        let current_star_len := star_len in
        if size_t_of_int (wildcard_idx + current_star_len) <=? size wildcard_values then
          weave rest wildcard_values star_len
                (out_password ++
                   take (Z.to_nat current_star_len)
                        (drop (Z.to_nat wildcard_idx) wildcard_values))
                (wildcard_idx + current_star_len)
        else None
      else
        weave rest wildcard_values star_len (out_password ++ segment) wildcard_idx
  end.

(** Counting loop at the head of [getPatternPasswordByIndex]:
    [(fixed_part_len_literals, num_qmarks, num_stars)]. *)
Definition count_step (acc : Z * Z * Z) (seg : str) : Z * Z * Z :=
  let '(lits, qmarks, stars) := acc in
  if bool_decide (seg = QMARK) then (lits, qmarks + 1, stars)
  else if bool_decide (seg = STAR) then (lits, qmarks, stars + 1)
  else (lits + size seg, qmarks, stars).

Definition getPatternPasswordByIndex (index : Z) (segments : list str)
    (charset : str) (total_length : Z) : option str :=
  let charset_size := size charset in
  if charset_size =? 0 then None else
  let '(fixed_part_len_literals, num_qmarks, num_stars) :=
    fold_left count_step segments (0, 0, 0) in
  let fixed_part_len_total := fixed_part_len_literals + num_qmarks in
  if size_t_of_int total_length <? size_t_of_int fixed_part_len_total then None else
  let star_len_opt :=
    if num_stars >? 0 then
      let star_len := total_length - fixed_part_len_total in
      if star_len <? 0 then None else Some star_len
    else
      if negb (size_t_of_int total_length =? size_t_of_int fixed_part_len_total)
      then None else Some 0 in
  match star_len_opt with
  | None => None
  | Some star_len =>
      let total_wildcard_chars := num_qmarks + star_len in
      if total_wildcard_chars <? 0 then None else
      let wildcard_values_opt :=
        if total_wildcard_chars >? 0 then
          match offset_loop (Z.to_nat (total_wildcard_chars - 1)) 1
                            charset_size 1 0 with
          | None => None
          | Some offset =>
              if offset >? UINT64_MAX - index then None else
              let global_index := wrap64 (offset + index) in
              match getPasswordByIndex global_index charset total_wildcard_chars with
              | None => None
              | Some wildcard_values =>
                  if negb (size wildcard_values =? size_t_of_int total_wildcard_chars)
                  then None else Some wildcard_values
              end
          end
        else Some [] in
      match wildcard_values_opt with
      | None => None
      | Some wildcard_values =>
          match weave segments wildcard_values star_len [] 0 with
          | None => None
          | Some out_password =>
              if negb (size out_password =? size_t_of_int total_length) then None
              else Some out_password
          end
      end
  end.

End Enum.
Import Enum.

(** ** Probabilistic filter *)

Module Bloom.

Definition BLOOM_FILTER_MAGIC : Z := 0xBF10F17E.
Definition BLOOM_FILTER_VERSION : Z := 1.

Definition FNV_OFFSET_BASIS : Z := 0xcbf29ce484222325.
Definition FNV_PRIME : Z := 0x100000001b3.

(** Conversion of a [size_t] length to the [int len] parameter. *)
Definition int_of_size_t (x : Z) : Z :=
  let r := x mod 2 ^ 32 in if r <=? INT_MAX then r else r - 2 ^ 32.

(** [fnv1a_hash(key, len)]: FNV-1a over the first [len] bytes of [key]. *)
Definition fnv1a_hash (key : list byte) (len : Z) : Z :=
  fold_left (fun hash b => wrap64 (Z.lxor hash (byte.unsigned b) * FNV_PRIME))
            (take (Z.to_nat len) key) FNV_OFFSET_BASIS.

(** The bytes of a [std::string]. *)
Definition bytes_of_str (s : str) : list byte := map byte_of_ascii s.

(** The filter object.  [m_fp_rate] is carried as the 64-bit IEEE-754
    image of the [double]: the code below only stores it and copies its
    eight bytes to and from the file. *)
Record BloomFilter := mkBloomFilter {
  m_num_bits : Z;          (* uint64_t: size of the bit vector (m) *)
  m_num_hashes : Z;        (* uint32_t: number of hash functions (k) *)
  m_estimated_items : Z;   (* uint64_t: expected number of items (n) *)
  m_fp_rate : Z;           (* double: target false positive rate (p) *)
  m_bits : list bool       (* std::vector<bool> *)
}.

(** The default constructor [BloomFilter()]. *)
Definition default_filter : BloomFilter := mkBloomFilter 0 0 0 0 [].

Definition isValid (bf : BloomFilter) : bool :=
  negb (bool_decide (m_bits bf = [])) && (m_num_hashes bf >? 0).

(** *** Allocation.  [mem] is the number of bytes the allocator can
    supply for one vector; a request beyond it raises [std::bad_alloc]
    (or [std::length_error]). *)
Definition alloc_bytes_ok (mem n : Z) : bool := n <=? mem.
Definition alloc_bits_ok (mem n : Z) : bool := n <=? 8 * mem.

(** Results of the two floating-point computations of the constructor
    and of its range test on [p], taken as given. *)
Record sizing := mkSizing {
  p_in_range : bool;   (* 0.0 < false_positive_rate < 1.0 *)
  m_ceil : Z;          (* static_cast<uint64_t>(std::ceil(m_exact)) *)
  k_ceil : Z           (* static_cast<uint32_t>(std::ceil(k_exact)) *)
}.

(** [BloomFilter(estimated_items, false_positive_rate)]; [None] when the
    constructor leaves by an exception. *)
Definition construct (mem : Z) (estimated_items false_positive_rate : Z)
    (fl : sizing) : option BloomFilter :=
  if (estimated_items =? 0) || negb (p_in_range fl) then
    if alloc_bits_ok mem 8 then
      Some (mkBloomFilter 8 1 estimated_items false_positive_rate
                          (resize 8%nat false []))
    else None
  else
    let num_bits := m_ceil fl in
    let num_bits := if num_bits <? 8 then 8 else num_bits in
    let num_hashes := k_ceil fl in
    let num_hashes := if num_hashes <? 1 then 1 else num_hashes in
    let num_hashes := if num_hashes >? 20 then 20 else num_hashes in
    if alloc_bits_ok mem num_bits then
      Some (mkBloomFilter num_bits num_hashes estimated_items false_positive_rate
                          (resize (Z.to_nat num_bits) false []))
    else None.

(** The [i]-th probe position, [(h1 + i * h2) % m_num_bits], in
    [uint64_t] arithmetic. *)
Definition probe (h1 h2 m i : Z) : Z := wrap64 (h1 + wrap64 (i * h2)) mod m.

Definition hash1 (item : str) : Z :=
  fnv1a_hash (bytes_of_str item) (int_of_size_t (size item)).
Definition hash2 (h1 : Z) : Z := fnv1a_hash (le_split 8 h1) 8.

Definition generate_hashes (bf : BloomFilter) (item : str) : list Z :=
  let h1 := hash1 item in
  let h2 := hash2 h1 in
  map (probe h1 h2 (m_num_bits bf)) (seqZ 0 (m_num_hashes bf)).

(** [m_bits[i]] as an rvalue. *)
Definition bit_at (bits : list bool) (i : Z) : bool :=
  nth (Z.to_nat i) bits false.

Definition set_bits (bits : list bool) (hashes : list Z) : list bool :=
  fold_left (fun b hash_index => <[Z.to_nat hash_index := true]> b) hashes bits.

Definition insert (bf : BloomFilter) (item : str) : BloomFilter :=
  if negb (isValid bf) then bf
  else
    mkBloomFilter (m_num_bits bf) (m_num_hashes bf) (m_estimated_items bf)
                  (m_fp_rate bf) (set_bits (m_bits bf) (generate_hashes bf item)).

(** The probing loop of [contains], with its early [return false]. *)
Fixpoint all_set (bits : list bool) (hashes : list Z) : bool :=
  match hashes with
  | [] => true
  | hash_index :: rest =>
      if negb (bit_at bits hash_index) then false else all_set bits rest
  end.

Definition contains (bf : BloomFilter) (item : str) : bool :=
  if negb (isValid bf) then false
  else all_set (m_bits bf) (generate_hashes bf item).

(** *** Persistence *)

Definition header (bf : BloomFilter) : list byte :=
  le_split 4 BLOOM_FILTER_MAGIC ++ le_split 2 BLOOM_FILTER_VERSION ++
  le_split 8 (m_num_bits bf) ++ le_split 4 (m_num_hashes bf) ++
  le_split 8 (m_estimated_items bf) ++ le_split 8 (m_fp_rate bf).

(** One iteration of the packing loop:
    [if (m_bits[i]) packed_bits[i / 8] |= (1 << (i % 8))]. *)
Definition pack_step (bits : list bool) (packed_bits : list byte) (i : Z)
    : list byte :=
  if bit_at bits i then
    let j := Z.to_nat (i / 8) in
    <[j := byte.of_Z (Z.lor (byte.unsigned (nth j packed_bits Byte.x00))
                            (Z.shiftl 1 (i mod 8)))]> packed_bits
  else packed_bits.

Definition pack_bits (bf : BloomFilter) (num_bytes : Z) : list byte :=
  fold_left (pack_step (m_bits bf)) (seqZ 0 (m_num_bits bf))
            (replicate (Z.to_nat num_bytes) Byte.x00).

Inductive outcome := Returned (b : bool) | Thrown.

(** A file system: the contents of the files that exist.  The empty path
    names no file. *)
Definition open_in (files : gmap str (list byte)) (path : str)
    : option (list byte) :=
  if bool_decide (path = []) then None else files !! path.

(** What the environment does with an output stream opened on a path: the
    open fails, or the file is opened, which empties it, and takes the
    first [room] bytes written to it (every byte when [room] is [None]).  A
    write that does not fit leaves the stream failed, and the bytes reach
    the file as they are written. *)
Inductive sink := Refused | Accepts (room : option nat).

(** The bytes of [data] that reach a file with [room] bytes of room. *)
Definition written (room : option nat) (data : list byte) : list byte :=
  match room with
  | Some n => take n data
  | None => data
  end.

(** [ofs.good()] after [data] has been written. *)
Definition fits (room : option nat) (data : list byte) : bool :=
  match room with
  | Some n => (length data <=? n)%nat
  | None => true
  end.

(** [serialize(filepath)] on a stream that behaves as [out]: the outcome
    and the file system it leaves.  An [ofstream] on the empty path never
    opens. *)
Definition serialize (mem : Z) (out : sink) (bf : BloomFilter) (filepath : str)
    (files : gmap str (list byte)) : outcome * gmap str (list byte) :=
  if negb (isValid bf) then (Returned false, files)
  else if bool_decide (filepath = []) then (Returned false, files)
  else
    match out with
    | Refused => (Returned false, files)
    | Accepts room =>
        let num_bytes := wrap64 (m_num_bits bf + 7) / 8 in
        if negb (alloc_bytes_ok mem num_bytes) then
          (Thrown, <[filepath := written room (header bf)]> files)
        else
          let data := header bf ++ pack_bits bf num_bytes in
          (Returned (fits room data), <[filepath := written room data]> files)
    end.

(** An input stream: the unread bytes and the state [!fail()]. *)
Record istream := mkIstream { unread : list byte; good : bool }.

(** [ifs.read(dst, n)]: [old] is the content of the [n] destination
    bytes before the call, the result is their content after it.  A
    short read stores what is left and sets the failure state; a read on
    a failed stream stores nothing. *)
Definition stream_read (s : istream) (n : Z) (old : list byte)
    : istream * list byte :=
  if negb (good s) then (s, old)
  else if n <=? Z.of_nat (length (unread s)) then
    (mkIstream (drop (Z.to_nat n) (unread s)) true, take (Z.to_nat n) (unread s))
  else
    (mkIstream [] false, unread s ++ drop (length (unread s)) old).

(** [ifs.peek() != EOF] on a stream in good state. *)
Definition has_more (s : istream) : bool := negb (bool_decide (unread s = [])).

(** One iteration of the unpacking loop:
    [m_bits[i] = (packed_bits[i / 8] >> (i % 8)) & 1]. *)
Definition unpack_step (packed_bits : list byte) (bits : list bool) (i : Z)
    : list bool :=
  <[Z.to_nat i :=
      negb (Z.land (Z.shiftr (byte.unsigned (nth (Z.to_nat (i / 8)) packed_bits Byte.x00))
                             (i mod 8)) 1 =? 0)]> bits.

Definition invalidate (bf : BloomFilter) : BloomFilter :=
  mkBloomFilter 0 0 (m_estimated_items bf) (m_fp_rate bf) (m_bits bf).

(** [deserialize(filepath)] on the file content [file] ([None] when the
    file cannot be opened): the outcome and the filter it leaves. *)
Definition deserialize (mem : Z) (bf : BloomFilter) (file : option (list byte))
    : outcome * BloomFilter :=
  match file with
  | None => (Returned false, bf)
  | Some content =>
      let s := mkIstream content true in
      let '(s, magic) := stream_read s 4 (le_split 4 0) in
      if negb (good s) || negb (le_combine magic =? BLOOM_FILTER_MAGIC)
      then (Returned false, bf) else
      let '(s, version) := stream_read s 2 (le_split 2 0) in
      if negb (good s) || negb (le_combine version =? BLOOM_FILTER_VERSION)
      then (Returned false, bf) else
      let '(s, num_bits) := stream_read s 8 (le_split 8 (m_num_bits bf)) in
      let '(s, num_hashes) := stream_read s 4 (le_split 4 (m_num_hashes bf)) in
      let '(s, items) := stream_read s 8 (le_split 8 (m_estimated_items bf)) in
      let '(s, rate) := stream_read s 8 (le_split 8 (m_fp_rate bf)) in
      let bf := mkBloomFilter (le_combine num_bits) (le_combine num_hashes)
                              (le_combine items) (le_combine rate) (m_bits bf) in
      if negb (good s) || (m_num_bits bf =? 0) || (m_num_hashes bf =? 0)
      then (Returned false, invalidate bf) else
      let num_bytes := wrap64 (m_num_bits bf + 7) / 8 in
      if negb (alloc_bytes_ok mem num_bytes) then (Thrown, bf) else
      let '(s, packed_bits) :=
        stream_read s num_bytes (replicate (Z.to_nat num_bytes) Byte.x00) in
      if negb (good s) || has_more s then (Returned false, invalidate bf) else
      if negb (alloc_bits_ok mem (m_num_bits bf)) then
        (Returned false,
         mkBloomFilter 0 0 (m_estimated_items bf) (m_fp_rate bf) [])
      else
        let bits :=
          fold_left (unpack_step packed_bits) (seqZ 0 (m_num_bits bf))
                    (resize (Z.to_nat (m_num_bits bf)) false (m_bits bf)) in
        (Returned true,
         mkBloomFilter (m_num_bits bf) (m_num_hashes bf) (m_estimated_items bf)
                       (m_fp_rate bf) bits)
  end.

End Bloom.
Import Bloom.

(** ** Worker dispatcher *)

Module Dispatch.

(** [itemsPerThread = (total + numThreads - 1) / numThreads], raised to 1
    when it is 0; [uint64] arithmetic. *)
Definition items_per_thread (total numThreads : Z) : Z :=
  let itemsPerThread := wrap64 (total + numThreads - 1) / numThreads in
  if itemsPerThread =? 0 then 1 else itemsPerThread.

(** The spawn loop [for (t = ...; t < numThreads; ++t)]: the index ranges
    [(startIdx, endIdx)] handed to the spawned workers, in spawn order.
    [check_stop t] is the result of [check_stop_flag()] at iteration [t]. *)
Fixpoint spawn_loop (fuel : nat) (t : Z) (check_stop : Z -> bool)
    (itemsPerThread total : Z) : list (Z * Z) :=
  match fuel with
  | O => []
  | S fuel' =>
      if check_stop t then [] else
      let startIdx := wrap64 (t * itemsPerThread) in
      let endIdx := Z.min (wrap64 (startIdx + itemsPerThread)) total in
      if startIdx >=? endIdx then []
      else (startIdx, endIdx) :: spawn_loop fuel' (t + 1) check_stop itemsPerThread total
  end.

Definition chunks (check_stop : Z -> bool) (total numThreads : Z) : list (Z * Z) :=
  spawn_loop (Z.to_nat numThreads) 0 check_stop
             (items_per_thread total numThreads) total.

(** Index [i] is iterated by the worker given [(startIdx, endIdx)]. *)
Definition in_chunk (i : Z) (c : Z * Z) : Prop := fst c <= i < snd c.

(** The guarded power of the controller ([calculate_combinations]);
    [None] is the [std::overflow_error]. *)
Definition calculate_combinations (charsetSize length : Z) : option Z :=
  if length <=? 0 then Some 0
  else power_loop (Z.to_nat length) charsetSize 1.

End Dispatch.
Import Dispatch.

(** ** Workers and run controller *)

Module Run.

(** What the workers and the controller share, together with the file
    system and the trace of [serialize] calls (the path of each call, in
    order).  Status lines are not part of the model. *)
Record World := mkWorld {
  files : gmap str (list byte);
  skipFilter : BloomFilter;
  foundFlag : bool;
  foundPassword : str;
  stop_requested : bool;
  serialize_calls : list str
}.

Definition set_stop (w : World) : World :=
  mkWorld (files w) (skipFilter w) (foundFlag w) (foundPassword w) true
          (serialize_calls w).

Definition set_filter (w : World) (bf : BloomFilter) : World :=
  mkWorld (files w) bf (foundFlag w) (foundPassword w) (stop_requested w)
          (serialize_calls w).

(** [foundFlag.compare_exchange_strong(expected = false, true)] followed,
    on success, by the store of the password. *)
Definition claim_found (w : World) (pwd : str) : World :=
  if foundFlag w then w
  else mkWorld (files w) (skipFilter w) true pwd (stop_requested w)
               (serialize_calls w).

(** [stop_flag_exists(path)]. *)
Definition stop_flag_exists (w : World) (path : str) : bool :=
  bool_decide (is_Some (open_in (files w) path)).

Section Workers.

Variable mem : Z.
(** The environment of the output streams: [disk n path] is what the
    stream of the [n]-th call of [serialize], counted from 0, meets when it
    opens [path]. *)
Variable disk : nat -> str -> sink.
(** The oracle: the result of the archive test for a password. *)
Variable tryPassword : str -> bool.
(** The global [skipListFilePath]. *)
Variable skipListFilePath : str.
(** The pointer arguments: [true] when not null. *)
Variables filter filterMutex : bool.
Variable stop_flag_path : str.

(** [filter->serialize(skipListFilePath)]; [None] when it throws. *)
Definition serialize_call (w : World) : option (bool * World) :=
  match serialize mem (disk (length (serialize_calls w)) skipListFilePath)
                  (skipFilter w) skipListFilePath (files w) with
  | (Returned ok, files') =>
      Some (ok, mkWorld files' (skipFilter w) (foundFlag w) (foundPassword w)
                        (stop_requested w)
                        (serialize_calls w ++ [skipListFilePath]))
  | (Thrown, _) => None
  end.

(** The common tail of every worker iteration once a candidate [pwd]
    has been built: filter lookup, oracle call, insert.  The boolean
    tells whether the worker returns. *)
Definition test_candidate (w : World) (pwd : str) : World * bool :=
  let skip := filter && contains (skipFilter w) pwd in
  if negb skip then
    if tryPassword pwd then (claim_found w pwd, true)
    else if filter && filterMutex then
      (set_filter w (insert (skipFilter w) pwd), false)
    else (w, false)
  else (w, false).

(** Loop of [sequential_password_worker], entered with loop variable
    [idx]; [None] when the thread leaves by an exception. *)
Fixpoint sequential_loop (fuel : nat) (len idx end_idx : Z)
    (charset : str) (w : World) : option World :=
  match fuel with
  | O => Some w
  | S fuel' =>
      if negb (idx <? end_idx) || foundFlag w || stop_requested w then Some w
      else
        let pwd := password_of_local charset len idx in
        if (idx mod 1000 =? 0)
           && negb (bool_decide (stop_flag_path = []))
           && stop_flag_exists w stop_flag_path
        then Some (set_stop w)
        else
          let '(w', returned) := test_candidate w pwd in
          if returned then Some w'
          else sequential_loop fuel' len (idx + 1) end_idx charset w'
  end.

Definition sequential_password_worker (len start_idx end_idx : Z)
    (charset : str) (w : World) : option World :=
  if size charset =? 0 then Some w
  else sequential_loop (Z.to_nat (end_idx - start_idx)) len start_idx end_idx
                       charset w.

(** Loop of [pattern_index_worker]. *)
Fixpoint pattern_index_loop (fuel : nat) (idx end_idx : Z)
    (segments : list str) (charset : str) (total_length : Z) (w : World)
    : option World :=
  match fuel with
  | O => Some w
  | S fuel' =>
      if negb (idx <? end_idx) || foundFlag w || stop_requested w then Some w
      else if (idx mod 1000 =? 0) && stop_flag_exists w stop_flag_path then
        if filter && filterMutex then
          match serialize_call w with
          | Some (_, w') => Some (set_stop w')
          | None => None
          end
        else Some (set_stop w)
      else
        match getPatternPasswordByIndex idx segments charset total_length with
        | Some pwd =>
            let '(w', returned) := test_candidate w pwd in
            if returned then Some w'
            else pattern_index_loop fuel' (idx + 1) end_idx segments charset
                                    total_length w'
        | None =>
            pattern_index_loop fuel' (idx + 1) end_idx segments charset
                               total_length w
        end
  end.

Definition pattern_index_worker (start_idx end_idx : Z)
    (segments : list str) (charset : str) (total_length : Z) (w : World)
    : option World :=
  pattern_index_loop (Z.to_nat (end_idx - start_idx)) start_idx end_idx
                     segments charset total_length w.

(** Loop of [shuffled_index_worker]. *)
Fixpoint shuffled_index_loop (fuel : nat) (vec_idx end_vector_idx : Z)
    (shuffled_indices : list Z) (global_index_offset : Z) (charset : str)
    (max_length : Z) (w : World) : option World :=
  match fuel with
  | O => Some w
  | S fuel' =>
      if negb (vec_idx <? end_vector_idx) || foundFlag w || stop_requested w
      then Some w
      else
        let relative_index := nth (Z.to_nat vec_idx) shuffled_indices 0 in
        let global_password_index := wrap64 (relative_index + global_index_offset) in
        if (vec_idx mod 1000 =? 0)
           && negb (bool_decide (stop_flag_path = []))
           && stop_flag_exists w stop_flag_path
        then Some (set_stop w)
        else
          match getPasswordByIndex global_password_index charset max_length with
          | Some pwd =>
              let '(w', returned) := test_candidate w pwd in
              if returned then Some w'
              else shuffled_index_loop fuel' (vec_idx + 1) end_vector_idx
                     shuffled_indices global_index_offset charset max_length w'
          | None =>
              shuffled_index_loop fuel' (vec_idx + 1) end_vector_idx
                     shuffled_indices global_index_offset charset max_length w
          end
  end.

Definition shuffled_index_worker (start_vector_idx end_vector_idx : Z)
    (shuffled_indices : list Z) (global_index_offset : Z) (charset : str)
    (max_length : Z) (w : World) : option World :=
  shuffled_index_loop (Z.to_nat (end_vector_idx - start_vector_idx))
    start_vector_idx end_vector_idx shuffled_indices global_index_offset
    charset max_length w.

(** [getPatternPasswordByGlobalIndex], entered at length [L]. *)
Fixpoint global_pattern_loop (fuel : nat) (L : Z) (current_global_index : Z)
    (segments : list str) (charset : str) (per_length_counts : gmap Z Z)
    : option str :=
  match fuel with
  | O => None
  | S fuel' =>
      match per_length_counts !! L with
      | Some count_this_length =>
          if count_this_length =? 0 then
            global_pattern_loop fuel' (L + 1) current_global_index segments
                                charset per_length_counts
          else if current_global_index <? count_this_length then
            getPatternPasswordByIndex current_global_index segments charset L
          else
            global_pattern_loop fuel' (L + 1)
              (wrap64 (current_global_index - count_this_length)) segments
              charset per_length_counts
      | None =>
          global_pattern_loop fuel' (L + 1) current_global_index segments
                              charset per_length_counts
      end
  end.

Definition getPatternPasswordByGlobalIndex (global_pattern_index : Z)
    (segments : list str) (charset : str) (min_len max_len : Z)
    (per_length_counts : gmap Z Z) : option str :=
  global_pattern_loop (Z.to_nat (max_len - min_len + 1)) min_len
                      global_pattern_index segments charset per_length_counts.

(** Loop of [shuffled_pattern_worker]. *)
Fixpoint shuffled_pattern_loop (fuel : nat) (vec_idx end_vector_idx : Z)
    (shuffled_indices : list Z) (segments : list str) (charset : str)
    (min_len max_len : Z) (per_length_counts : gmap Z Z) (w : World)
    : option World :=
  match fuel with
  | O => Some w
  | S fuel' =>
      if negb (vec_idx <? end_vector_idx) || foundFlag w || stop_requested w
      then Some w
      else if (vec_idx mod 1000 =? 0) && stop_flag_exists w stop_flag_path then
        if filter && filterMutex then
          match serialize_call w with
          | Some (_, w') => Some (set_stop w')
          | None => None
          end
        else Some (set_stop w)
      else
        let global_pattern_index := nth (Z.to_nat vec_idx) shuffled_indices 0 in
        match getPatternPasswordByGlobalIndex global_pattern_index segments
                charset min_len max_len per_length_counts with
        | Some pwd =>
            let '(w', returned) := test_candidate w pwd in
            if returned then Some w'
            else shuffled_pattern_loop fuel' (vec_idx + 1) end_vector_idx
                   shuffled_indices segments charset min_len max_len
                   per_length_counts w'
        | None =>
            shuffled_pattern_loop fuel' (vec_idx + 1) end_vector_idx
                   shuffled_indices segments charset min_len max_len
                   per_length_counts w
        end
  end.

Definition shuffled_pattern_worker (start_vector_idx end_vector_idx : Z)
    (shuffled_indices : list Z) (segments : list str) (charset : str)
    (min_len max_len : Z) (per_length_counts : gmap Z Z) (w : World)
    : option World :=
  shuffled_pattern_loop (Z.to_nat (end_vector_idx - start_vector_idx))
    start_vector_idx end_vector_idx shuffled_indices segments charset
    min_len max_len per_length_counts w.

(** *** Termination of [brute_force_worker_combined] *)

(** The final-save condition. *)
Definition performFinalSave (w : World) : bool :=
  filter && filterMutex && negb (bool_decide (skipListFilePath = []))
  && isValid (skipFilter w) && (foundFlag w || stop_requested w).

(** The finalization block and the result string; [None] when the
    final [serialize] throws. *)
Definition finalization (w : World) : option (World * str) :=
  let result (w : World) := if foundFlag w then foundPassword w else [] in
  if performFinalSave w then
    match serialize_call w with
    | Some (_, w') => Some (w', result w')
    | None => None
    end
  else Some (w, result w).

(** How the [try] block of the controller ended: by reaching its end in
    some state of the world, or by a [std::exception]. *)
Inductive search_end := Completed (w : World) | Raised (w : World).

(** The body of the [try] block: strategy selection, dispatch and
    joining of the workers. *)
Variable search : World -> search_end.

(** [brute_force_worker_combined], from the files and filter it is
    started with. *)
Definition brute_force_worker_combined (charset : str)
    (min_length max_length : Z) (files0 : gmap str (list byte))
    (filter0 : BloomFilter) : option (World * str) :=
  let w0 := mkWorld files0 filter0 false [] false [] in
  if (size charset =? 0) || (min_length <=? 0) || (max_length <? min_length)
  then Some (w0, [])
  else
    match search w0 with
    | Raised w =>
        if filter && filterMutex && negb (bool_decide (skipListFilePath = []))
           && isValid (skipFilter w)
        then
          match serialize_call w with
          | Some (_, w') => Some (w', [])
          | None => None
          end
        else Some (w, [])
    | Completed w => finalization w
    end.

End Workers.

End Run.
Import Run.

(** ** Specification vocabulary *)

Module Spec.

(** Number of non-empty strings of length at most [L] over [C] characters:
    [C + C^2 + ... + C^L]. *)
Fixpoint geom (C : Z) (L : nat) : Z :=
  match L with
  | O => 0
  | S l => geom C l + C ^ Z.of_nat (S l)
  end.

(** Base-[C] digit [j] of [x], digit 0 being the least significant. *)
Definition digit (C x j : Z) : Z := (x / C ^ j) mod C.

(** [max_base] lists, for the exponents 1..63, the largest base whose power
    fits in 64 bits. *)
Definition max_base : list Z :=
  [18446744073709551615; 4294967295; 2642245; 65535; 7131; 1625; 565; 255;
   138; 84; 56; 40; 30; 23; 19; 15; 13; 11; 10; 9; 8; 7; 6; 6; 5; 5; 5; 4; 4;
   4; 4; 3; 3; 3; 3; 3; 3; 3; 3; 3; 2; 2; 2; 2; 2; 2; 2; 2; 2; 2; 2; 2; 2; 2;
   2; 2; 2; 2; 2; 2; 2; 2; 2].

(** The facts checked of entry [k] of [max_base] (exponent [k + 1]). *)
Definition max_base_check (k : nat) : bool :=
  let w := Z.of_nat (S k) in
  let c := nth k max_base 0 in
  (2 <=? c)
  && (UINT64_MAX <? (c + 1) ^ w)
  && (geom c (S k) - 1 <=? UINT64_MAX)
  && ((k =? 0)%nat || (c ^ w <=? UINT64_MAX - UINT32_MAX)).

(** What the assembly loop of [getPatternPasswordByIndex] appends for one
    segment: for a segment it finds equal to "?" one character of the
    fill, for a segment it finds equal to "*" the next [star_len]
    characters of the fill, for any other segment the segment itself; the
    fill holds charset characters.  This is the loop's own reading of a
    segment, which takes a literal "?" or "*" for a wildcard; the pattern
    language itself is [spec_matches] below. *)
Definition appended (charset : str) (star_len : Z) (segment piece : str) : Prop :=
  if bool_decide (segment = QMARK) then exists c, In c charset /\ piece = [c]
  else if bool_decide (segment = STAR) then
    size piece = star_len /\ Forall (fun c => In c charset) piece
  else piece = segment.

(** [s] is put together, in segment order, from one such piece per
    segment. *)
Definition assembled (charset : str) (star_len : Z) (segments : list str) (s : str)
    : Prop :=
  exists pieces : list str,
    s = concat pieces /\ Forall2 (appended charset star_len) segments pieces.

(** *** The pattern language, as the specification defines it *)

(** The tokens of sections 3 and 4.3: [literal s] with [s] not empty,
    [any_one] and [any_many]. *)
Inductive token := literal (s : str) | any_one | any_many.

(** A literal character in front of a token sequence: consecutive literal
    characters collapse into one token. *)
Definition add_literal (c : ascii) (tokens : list token) : list token :=
  match tokens with
  | literal s :: tokens' => literal (c :: s) :: tokens'
  | _ => literal [c] :: tokens
  end.

(** The tokens of a pattern text, by the words of section 4.3: [?] is
    any-one, [*] is any-many, a backslash makes the next character a
    literal, every other character is a literal.  (A backslash that ends
    the text, of which the section says nothing, gives no token.) *)
Fixpoint spec_tokens (pattern : str) : list token :=
  match pattern with
  | [] => []
  | c :: rest =>
      if bool_decide (c = "\"%char) then
        match rest with
        | [] => []
        | d :: rest' => add_literal d (spec_tokens rest')
        end
      else if bool_decide (c = "?"%char) then any_one :: spec_tokens rest
      else if bool_decide (c = "*"%char) then any_many :: spec_tokens rest
      else add_literal c (spec_tokens rest)
  end.

(** What a token stands for: a literal for itself, any-one for exactly one
    character of the charset, any-many for zero or more characters of the
    charset. *)
Definition token_ok (charset : str) (t : token) (piece : str) : Prop :=
  match t with
  | literal s => piece = s
  | any_one => exists c, In c charset /\ piece = [c]
  | any_many => Forall (fun c => In c charset) piece
  end.

(** A string matches a pattern when it is the concatenation of one piece
    per token, in order. *)
Definition spec_matches (charset pattern s : str) : Prop :=
  exists pieces : list str,
    s = concat pieces /\ Forall2 (token_ok charset) (spec_tokens pattern) pieces.

(** The segment the parser holds for a token. *)
Definition segment_of (t : token) : str :=
  match t with
  | literal s => s
  | any_one => QMARK
  | any_many => STAR
  end.

(** The filter states the operations of the class leave when they return. *)
Inductive reachable (mem : Z) : BloomFilter -> Prop :=
| reach_default : reachable mem default_filter
| reach_construct (n p : Z) (fl : sizing) (bf : BloomFilter) :
    is_uint64 n -> is_uint64 p -> is_uint64 (m_ceil fl) -> is_uint32 (k_ceil fl) ->
    construct mem n p fl = Some bf -> reachable mem bf
| reach_insert (bf : BloomFilter) (item : str) :
    reachable mem bf -> reachable mem (insert bf item)
| reach_deserialize (bf0 bf : BloomFilter) (file : option (list byte)) (b : bool) :
    reachable mem bf0 -> deserialize mem bf0 file = (Returned b, bf) ->
    reachable mem bf.

(** Representation invariant of the class: the fields are in the range of
    their types and a valid filter has exactly [m_num_bits] allocated bits. *)
Definition wf_filter (mem : Z) (bf : BloomFilter) : Prop :=
  is_uint64 (m_num_bits bf) /\ is_uint32 (m_num_hashes bf) /\
  is_uint64 (m_estimated_items bf) /\ is_uint64 (m_fp_rate bf) /\
  (isValid bf = true ->
     m_num_bits bf = Z.of_nat (length (m_bits bf)) /\
     alloc_bits_ok mem (m_num_bits bf) = true).

(** States obtained by construction, by insertion, and by loading a file
    that [serialize] wrote from such a state. *)
Inductive constructed (mem : Z) : BloomFilter -> Prop :=
| built_new (n p : Z) (fl : sizing) (bf : BloomFilter) :
    is_uint64 n -> is_uint64 p -> is_uint64 (m_ceil fl) -> is_uint32 (k_ceil fl) ->
    construct mem n p fl = Some bf -> constructed mem bf
| built_insert (bf : BloomFilter) (item : str) :
    constructed mem bf -> constructed mem (insert bf item)
| built_reload (bf bf0 bf' : BloomFilter) (out : sink) (path : str)
      (files files' : gmap str (list byte)) :
    constructed mem bf ->
    serialize mem out bf path files = (Returned true, files') ->
    deserialize mem bf0 (open_in files' path) = (Returned true, bf') ->
    constructed mem bf'.

(** Number of bytes of the packed bit vector, [ceil (m / 8)]. *)
Definition packed_size (m : Z) : Z := (m + 7) / 8.

(** Index [i] belongs to one of the ranges handed to the workers. *)
Definition covered (cs : list (Z * Z)) (i : Z) : Prop :=
  exists c, In c cs /\ in_chunk i c.

(** An upper bound of [std::string::max_size()] on a 64-bit target. *)
Definition STRING_MAX_SIZE : Z := 9223372036854775807.

(** The RAM ceiling on the number of shuffled indices (random modes). *)
Definition MAX_REASONABLE_INDICES_RAM : Z := (4 * 1024 * 1024 * 1024) / 8.

(** The totals the controller hands to the spawn loop: a guarded power of
    the charset size (plain deterministic modes), the analyzer's count
    (pattern modes), or a total below the RAM ceiling (random modes). *)
Inductive dispatched_total (charset : str) : Z -> Prop :=
| total_plain (L N : Z) :
    calculate_combinations (size charset) L = Some N -> dispatched_total charset N
| total_pattern (segments : list str) (L N : Z) :
    calculate_pattern_combinations segments (size charset) L = Some N ->
    dispatched_total charset N
| total_random (N : Z) :
    N <= MAX_REASONABLE_INDICES_RAM -> dispatched_total charset N.

(** *** Concrete inputs used by the examples *)

Definition lit (s : string) : str := list_ascii_of_string s.

(** A disk on which every open and every write succeeds. *)
Definition ample_disk : nat -> str -> sink := fun _ _ => Accepts None.

(** The filter [BloomFilter(0, p)] builds: eight bits, one hash. *)
Definition small_filter : BloomFilter := mkBloomFilter 8 1 0 0 (replicate 8 false).

(** The filter [BloomFilter(6, 0.01)] builds, 58 bits and 7 hashes, and
    the same filter after an insertion. *)
Definition wide_filter : BloomFilter :=
  mkBloomFilter 58 7 6 0x3F847AE147AE147B (replicate 58 false).
Definition used_filter : BloomFilter := insert wide_filter (lit "ab").

(** A run with skip file "s" whose stop flag file "s.stop" exists. *)
Definition stopped_world : World :=
  mkWorld {[ lit "s.stop" := [] ]} small_filter false [] false [].

(** The world a stopped run with skip file "s" leaves after its final save. *)
Definition saved_world : World :=
  mkWorld (<[lit "s" := header small_filter ++ pack_bits small_filter 1]> ∅)
          small_filter false [] true [lit "s"].

(** A 35-byte file announcing one bit and twenty-one hashes. *)
Definition tiny_file : list byte :=
  le_split 4 0xBF10F17E ++ le_split 2 1 ++ le_split 8 1 ++ le_split 4 21 ++
  le_split 8 0 ++ le_split 8 0 ++ [Byte.x01].

End Spec.
Import Spec.

(** ** Run controller: preparation of the search *)

Module Controller.

(** The stop flag path [brute_force_worker_combined] derives from the skip
    file path: defined only when a filter is passed. *)
Definition stop_flag_path_of (filter : bool) (skipListFilePath : str) : str :=
  if filter && negb (bool_decide (skipListFilePath = []))
  then skipListFilePath ++ list_ascii_of_string ".stop"
  else [].

(** Adjustment of [min_length] and [max_length] to the pattern, at the head
    of the pattern mode: the pair [(min_length, max_length)] it leaves. *)
Definition adjust_lengths (info : PatternInfo) (min_length max_length : Z) : Z * Z :=
  let initial_fixed_length := fixed_length info in
  let num_stars := num_stars info in
  let min_length :=
    if min_length <? initial_fixed_length then initial_fixed_length else min_length in
  let max_length :=
    if (num_stars =? 0) && negb (max_length =? initial_fixed_length)
    then initial_fixed_length else max_length in
  let min_length :=
    if (num_stars =? 0) && negb (min_length =? initial_fixed_length)
    then initial_fixed_length else min_length in
  let max_length := if max_length <? min_length then min_length else max_length in
  (min_length, max_length).

(** The counting loop of the random pattern mode,
    [for (L = min_length; L <= max_length; ++L)], entered at [L]:
    [(calculation_ok, total_pattern_combinations, per_length_counts)].
    [check_stop L] is the result of [check_stop_flag()] at iteration [L]. *)
Fixpoint count_lengths (fuel : nat) (L : Z) (check_stop : Z -> bool)
    (segments : list str) (charsetSize : Z)
    (total_pattern_combinations : Z) (per_length_counts : gmap Z Z)
    : bool * Z * gmap Z Z :=
  match fuel with
  | O => (true, total_pattern_combinations, per_length_counts)
  | S fuel' =>
      if check_stop L then (false, total_pattern_combinations, per_length_counts)
      else
        match calculate_pattern_combinations segments charsetSize L with
        | None => (false, total_pattern_combinations, per_length_counts)
        | Some count_this_length =>
            if count_this_length >? 0 then
              let per_length_counts := <[L := count_this_length]> per_length_counts in
              if total_pattern_combinations >? UINT64_MAX - count_this_length
              then (false, total_pattern_combinations, per_length_counts)
              else count_lengths fuel' (L + 1) check_stop segments charsetSize
                     (wrap64 (total_pattern_combinations + count_this_length))
                     per_length_counts
            else count_lengths fuel' (L + 1) check_stop segments charsetSize
                   total_pattern_combinations per_length_counts
        end
  end.

Definition pattern_counts (check_stop : Z -> bool) (segments : list str)
    (charsetSize min_length max_length : Z) : bool * Z * gmap Z Z :=
  count_lengths (Z.to_nat (max_length - min_length + 1)) min_length check_stop
                segments charsetSize 0 ∅.

(** A summing loop of the plain random mode,
    [for (len = ...; ...; ++len) total += calculate_combinations(len)],
    entered at [len] with [fuel] iterations left; [None] when
    [calculation_ok] becomes false (stop, or one of the two overflows). *)
Fixpoint sum_combinations (fuel : nat) (len : Z) (check_stop : Z -> bool)
    (charsetSize total : Z) : option Z :=
  match fuel with
  | O => Some total
  | S fuel' =>
      if check_stop len then None
      else
        match calculate_combinations charsetSize len with
        | None => None
        | Some comb =>
            if total >? UINT64_MAX - comb then None
            else sum_combinations fuel' (len + 1) check_stop charsetSize
                                  (wrap64 (total + comb))
        end
  end.

(** [(total_passwords_prefix, total_passwords_target)] of the plain random
    mode: the lengths below [min_length], then [min_length .. max_length]. *)
Definition random_totals (check_stop : Z -> bool)
    (charsetSize min_length max_length : Z) : option (Z * Z) :=
  match sum_combinations (Z.to_nat (min_length - 1)) 1 check_stop charsetSize 0 with
  | None => None
  | Some total_passwords_prefix =>
      match sum_combinations (Z.to_nat (max_length - min_length + 1)) min_length
                             check_stop charsetSize 0 with
      | None => None
      | Some total_passwords_target =>
          Some (total_passwords_prefix, total_passwords_target)
      end
  end.

End Controller.
Import Controller.

(** ** Program entry: set-up of the skip list *)

Module Main.

(** The loop of [main] that estimates the number of candidates of the
    lengths [min_length .. max_length], entered at [len]; [None] when
    [overflow_occurred]. *)
Fixpoint estimate_loop (fuel : nat) (len : Z) (cs : Z)
    (estimated_items_in_range : Z) : option Z :=
  match fuel with
  | O => Some estimated_items_in_range
  | S fuel' =>
      match power_loop (Z.to_nat len) cs 1 with
      | None => None
      | Some combinations_this_len =>
          if estimated_items_in_range >? UINT64_MAX - combinations_this_len then None
          else estimate_loop fuel' (len + 1) cs
                 (wrap64 (estimated_items_in_range + combinations_this_len))
      end
  end.

Definition estimated_items (cs min_length max_length : Z) : option Z :=
  if cs >? 0
  then estimate_loop (Z.to_nat (max_length - min_length + 1)) min_length cs 0
  else None.

(** Four gigabytes, in bits. *)
Definition MAX_FILTER_BITS : Z := 4 * 1024 * 1024 * 1024 * 8.

(** The [double] 0.01, as its 64-bit image. *)
Definition FP_RATE : Z := 0x3F847AE147AE147B.

(** The block of [main] that loads or creates the skip list: the pair
    [(skipListFilePath, skipFilter)] it leaves.  [tentative_ceil] is the
    value of [static_cast<uint64_t>(std::ceil(m_exact_check))] for a
    positive estimate and [fl] the floating-point results of the
    constructor, both taken as given. *)
Definition init_skip_filter (mem : Z) (skipListFilePath : str)
    (files : gmap str (list byte)) (skipFilter : BloomFilter) (charset : str)
    (min_length max_length : Z) (tentative_ceil : Z) (fl : sizing)
    : str * BloomFilter :=
  if bool_decide (skipListFilePath = []) then (skipListFilePath, skipFilter)
  else
    let '(outcome, skipFilter) :=
      deserialize mem skipFilter (open_in files skipListFilePath) in
    let loaded := match outcome with Returned b => b | Thrown => false end in
    if loaded && isValid skipFilter then (skipListFilePath, skipFilter)
    else
      match estimated_items (size charset) min_length max_length with
      | None => ([], skipFilter)
      | Some estimated_items_in_range =>
          let tentative_num_bits :=
            if estimated_items_in_range >? 0 then tentative_ceil else 0 in
          let tentative_num_bits :=
            if tentative_num_bits <? 8 then 8 else tentative_num_bits in
          if (tentative_num_bits =? 0) || (estimated_items_in_range =? 0)
          then ([], skipFilter)
          else if tentative_num_bits >? MAX_FILTER_BITS then ([], skipFilter)
          else
            match construct mem estimated_items_in_range FP_RATE fl with
            | Some bf => if isValid bf then (skipListFilePath, bf) else ([], bf)
            | None => ([], skipFilter)
            end
      end.

End Main.
Import Main.

(** ** Further specification vocabulary *)

Module Vocabulary.

(** The pattern with its escaping backslashes removed: a backslash makes
    the next character literal, a final lone backslash is dropped. *)
Fixpoint unescape (pattern : str) : str :=
  match pattern with
  | [] => []
  | c :: rest =>
      if bool_decide (c = "\"%char) then
        match rest with
        | [] => []
        | d :: rest' => d :: unescape rest'
        end
      else c :: unescape rest
  end.

(** A backslash in front of every character. *)
Definition escape_all (s : str) : str := flat_map (fun c => ["\"%char; c]) s.

(** The entry of a [std::map<int, uint64_t>] at [L], 0 when absent. *)
Definition count_at (counts : gmap Z Z) (L : Z) : Z := default 0 (counts !! L).

(** [count_at lo + ... + count_at (lo + n - 1)]. *)
Fixpoint sum_counts (counts : gmap Z Z) (lo : Z) (n : nat) : Z :=
  match n with
  | O => 0
  | S n' => count_at counts lo + sum_counts counts (lo + 1) n'
  end.

(** The wildcard characters of a candidate: the pieces that stand for the
    any-one and any-many segments, in order. *)
Fixpoint wild_of (segments pieces : list str) : str :=
  match segments, pieces with
  | segment :: segments', piece :: pieces' =>
      (if bool_decide (segment = QMARK) || bool_decide (segment = STAR)
       then piece else [])
      ++ wild_of segments' pieces'
  | _, _ => []
  end.

(** The block of [getPatternPasswordByIndex] that builds [wildcard_values]
    when [total_wildcard_chars > 0]. *)
Definition wildcard_values_for (charset : str) (index total_wildcard_chars : Z)
    : option str :=
  match offset_loop (Z.to_nat (total_wildcard_chars - 1)) 1 (size charset) 1 0 with
  | None => None
  | Some offset =>
      if offset >? UINT64_MAX - index then None else
      let global_index := wrap64 (offset + index) in
      match getPasswordByIndex global_index charset total_wildcard_chars with
      | None => None
      | Some wildcard_values =>
          if negb (size wildcard_values =? size_t_of_int total_wildcard_chars)
          then None else Some wildcard_values
      end
  end.

(** A worker of one of the four kinds, started in [w] with the given
    oracle, skip file path, filter and mutex arguments and stop flag path,
    returns in [w']. *)
Inductive worker_run (mem : Z) (disk : nat -> str -> sink)
    (tryPassword : str -> bool) (skipListFilePath : str)
    (filter filterMutex : bool) (stop_flag_path : str) (w w' : World) : Prop :=
| run_sequential (len start_idx end_idx : Z) (charset : str) :
    sequential_password_worker tryPassword filter filterMutex stop_flag_path
      len start_idx end_idx charset w = Some w' ->
    worker_run mem disk tryPassword skipListFilePath filter filterMutex stop_flag_path w w'
| run_pattern_index (start_idx end_idx : Z) (segments : list str) (charset : str)
      (total_length : Z) :
    pattern_index_worker mem disk tryPassword skipListFilePath filter filterMutex
      stop_flag_path start_idx end_idx segments charset total_length w = Some w' ->
    worker_run mem disk tryPassword skipListFilePath filter filterMutex stop_flag_path w w'
| run_shuffled_index (start_vector_idx end_vector_idx : Z) (shuffled_indices : list Z)
      (global_index_offset : Z) (charset : str) (max_length : Z) :
    shuffled_index_worker tryPassword filter filterMutex stop_flag_path
      start_vector_idx end_vector_idx shuffled_indices global_index_offset charset
      max_length w = Some w' ->
    worker_run mem disk tryPassword skipListFilePath filter filterMutex stop_flag_path w w'
| run_shuffled_pattern (start_vector_idx end_vector_idx : Z)
      (shuffled_indices : list Z) (segments : list str) (charset : str)
      (min_len max_len : Z) (per_length_counts : gmap Z Z) :
    shuffled_pattern_worker mem disk tryPassword skipListFilePath filter filterMutex
      stop_flag_path start_vector_idx end_vector_idx shuffled_indices segments
      charset min_len max_len per_length_counts w = Some w' ->
    worker_run mem disk tryPassword skipListFilePath filter filterMutex stop_flag_path w w'.

(** The filter of [w'] is that of [w] with items added: as valid, and
    reporting at least the same items. *)
Definition filter_grows (w w' : World) : Prop :=
  isValid (skipFilter w') = isValid (skipFilter w) /\
  forall s : str,
    contains (skipFilter w) s = true -> contains (skipFilter w') s = true.

(** The oracle that accepts one password. *)
Definition accepts (secret : str) (pwd : str) : bool := bool_decide (pwd = secret).

End Vocabulary.
Import Vocabulary.

(** ** Examples from the scenarios of the specification *)

Example ex_parse : parse_pattern (lit "p?2?") = [lit "p"; QMARK; lit "2"; QMARK].
Proof. reflexivity. Qed.

Example ex_gpbi0 : getPasswordByIndex 0 (lit "ab") 2 = Some (lit "a").
Proof. reflexivity. Qed.

Example ex_gpbi3 : getPasswordByIndex 3 (lit "ab") 2 = Some (lit "ab").
Proof. reflexivity. Qed.

Example ex_gpbi5 : getPasswordByIndex 5 (lit "ab") 2 = Some (lit "bb").
Proof. reflexivity. Qed.

Example ex_gpbi6 : getPasswordByIndex 6 (lit "ab") 2 = None.
Proof. reflexivity. Qed.

Example ex_pat : getPatternPasswordByIndex 3 (parse_pattern (lit "p?2?")) (lit "0123") 4
                 = Some (lit "p023").
Proof. reflexivity. Qed.

Example ex_pat_star : getPatternPasswordByIndex 1 (parse_pattern (lit "a*b")) (lit "xy") 4
                 = Some (lit "axyb").
Proof. reflexivity. Qed.

Example ex_count : calculate_pattern_combinations (parse_pattern (lit "a*b")) 2 4 = Some 4.
Proof. reflexivity. Qed.

(** ** Arithmetic of the guarded powers *)

Lemma div_guard (C c : Z) : 1 <= C -> 0 <= c ->
  (c >? UINT64_MAX / C) = (UINT64_MAX <? c * C).
Proof.
  intros HC Hc.
  destruct (Z.gtb_spec c (UINT64_MAX / C)) as [H|H];
  destruct (Z.ltb_spec UINT64_MAX (c * C)) as [H'|H']; try reflexivity; exfalso.
  - assert (c <= UINT64_MAX / C) by (apply Z.div_le_lower_bound; lia). lia.
  - assert (UINT64_MAX / C * C <= UINT64_MAX).
    { pose proof (Z.mul_div_le UINT64_MAX C). lia. }
    nia.
Qed.

Lemma wrap64_small (x : Z) : 0 <= x <= UINT64_MAX -> wrap64 x = x.
Proof. intros H. unfold wrap64. apply Z.mod_small. unfold UINT64_MAX in H. lia. Qed.

Lemma pow_ge_1 (C e : Z) : 1 <= C -> 0 <= e -> 1 <= C ^ e.
Proof.
  intros HC He. pose proof (Z.pow_pos_nonneg C e). lia.
Qed.

Lemma power_loop_spec (n : nat) (C c : Z) :
  1 <= C -> 0 <= c <= UINT64_MAX ->
  power_loop n C c =
    if c * C ^ Z.of_nat n <=? UINT64_MAX then Some (c * C ^ Z.of_nat n) else None.
Proof.
  intros HC. revert c. induction n as [|n IH]; intros c Hc.
  - cbn [power_loop]. change (Z.of_nat 0) with 0. rewrite Z.pow_0_r, Z.mul_1_r.
    destruct (Z.leb_spec c UINT64_MAX); [reflexivity | lia].
  - cbn [power_loop]. rewrite div_guard by lia.
    rewrite Nat2Z.inj_succ, Z.pow_succ_r by lia.
    assert (Hp : 1 <= C ^ Z.of_nat n) by (apply pow_ge_1; lia).
    destruct (Z.ltb_spec UINT64_MAX (c * C)) as [Hov|Hfit].
    + destruct (Z.leb_spec (c * (C * C ^ Z.of_nat n)) UINT64_MAX); [nia | reflexivity].
    + rewrite wrap64_small by nia. rewrite IH by nia.
      replace (c * C * C ^ Z.of_nat n) with (c * (C * C ^ Z.of_nat n)) by ring.
      reflexivity.
Qed.


(** ** Pattern analyzer *)

Lemma count_qmarks_acc (segments : list str) (n : Z) :
  fold_left (fun n seg => if bool_decide (seg = QMARK) then n + 1 else n) segments n
  = n + count_qmarks segments.
Proof.
  unfold count_qmarks. revert n.
  induction segments as [|seg rest IH]; intros n; cbn [fold_left].
  - lia.
  - rewrite IH, (IH (if bool_decide (seg = QMARK) then 0 + 1 else 0)).
    destruct (bool_decide (seg = QMARK)); lia.
Qed.

Lemma count_qmarks_cons (seg : str) (rest : list str) :
  count_qmarks (seg :: rest)
  = (if bool_decide (seg = QMARK) then 1 else 0) + count_qmarks rest.
Proof.
  unfold count_qmarks at 1. cbn [fold_left]. rewrite count_qmarks_acc.
  destruct (bool_decide (seg = QMARK)); lia.
Qed.

Lemma count_qmarks_nonneg (segments : list str) : 0 <= count_qmarks segments.
Proof.
  induction segments as [|seg rest IH]; [unfold count_qmarks; cbn; lia|].
  rewrite count_qmarks_cons. destruct (bool_decide (seg = QMARK)); lia.
Qed.

(** Claim C3, as amended.  For a non-empty charset of size [C] and a total
    length [L], with [F] the fixed length, [S] the number of any-many
    segments and [q] the number of any-one segments, the analyzer returns:
    0 whenever [L < F], whatever [S] is; for [S = 0], 1 when [L = F] and
    [q = 0], [C ^ q] when [L = F], and 0 when [L <> F]; for [S = 1] and
    [F <= L], [C ^ (q + (L - F))]; no value when [S >= 2] and [F <= L], and
    no value when the power does not fit in 64 bits. *)
Theorem analyzer_counts (segments : list str) (C L : Z) :
  1 <= C ->
  let F := fixed_length (calculate_pattern_info segments) in
  let S := num_stars (calculate_pattern_info segments) in
  let q := count_qmarks segments in
  let r := calculate_pattern_combinations segments C L in
  (S = 0 -> L = F -> q = 0 -> r = Some 1) /\
  (S = 0 -> L = F -> C ^ q <= UINT64_MAX -> r = Some (C ^ q)) /\
  (S = 0 -> L <> F -> r = Some 0) /\
  (S = 1 -> L < F -> r = Some 0) /\
  (S = 1 -> F <= L -> C ^ (q + (L - F)) <= UINT64_MAX ->
     r = Some (C ^ (q + (L - F)))) /\
  (2 <= S -> F <= L -> r = None) /\
  (2 <= S -> L < F -> r = Some 0) /\
  (0 <= S <= 1 -> F <= L -> (S = 0 -> L = F) ->
     UINT64_MAX < C ^ (q + (L - F)) -> r = None).
Proof.
  intros HC F S q r.
  assert (Hq : 0 <= q) by apply count_qmarks_nonneg.
  assert (Hr : r =
    if L <? F then Some 0
    else if S =? 0 then
      if negb (L =? F) then Some 0
      else if C ^ q <=? UINT64_MAX then Some (C ^ q) else None
    else if S =? 1 then
      if C ^ (q + (L - F)) <=? UINT64_MAX then Some (C ^ (q + (L - F))) else None
    else None).
  { subst r. unfold calculate_pattern_combinations.
    fold F S q.
    destruct (Z.eqb_spec C 0) as [?|_]; [lia|].
    destruct (Z.ltb_spec L F) as [HLF|HLF]; [reflexivity|].
    destruct (Z.eqb_spec S 0) as [HS0|HS0].
    - destruct (Z.eqb_spec L F) as [HL|HL]; cbn [negb]; [|reflexivity].
      destruct (Z.eqb_spec q 0) as [Hq0|Hq0].
      + rewrite Hq0. cbn. reflexivity.
      + rewrite power_loop_spec by (unfold UINT64_MAX; lia).
        rewrite Z2Nat.id, Z.mul_1_l by lia. reflexivity.
    - destruct (Z.eqb_spec S 1) as [HS1|HS1]; [|reflexivity].
      destruct (Z.ltb_spec (L - F) 0) as [?|_]; [lia|].
      destruct (Z.eqb_spec (q + (L - F)) 0) as [Hw0|Hw0].
      + rewrite Hw0. cbn. reflexivity.
      + rewrite power_loop_spec by (unfold UINT64_MAX; lia).
        rewrite Z2Nat.id, Z.mul_1_l by lia. reflexivity. }
  rewrite Hr. clear Hr. clearbody F S q r.
  repeat split; intros;
    repeat match goal with
    | H : ?x = _ |- _ => is_var x; subst x
    | H : ?a -> _, H' : ?a |- _ => specialize (H H')
    | |- context [?a <? ?b] => destruct (Z.ltb_spec a b)
    | |- context [?a =? ?b] => destruct (Z.eqb_spec a b)
    end; cbn [negb]; try lia; try reflexivity;
    repeat match goal with
    | H : context [?x + (?y - ?y)] |- _ => replace (x + (y - y)) with x in H by lia
    | |- context [?x + (?y - ?y)] => replace (x + (y - y)) with x by lia
    | |- context [?a <=? ?b] => destruct (Z.leb_spec a b)
    end; try lia; try reflexivity.
Qed.

Lemma analyzer_counts_witness :
  calculate_pattern_combinations (parse_pattern (lit "p?2?")) 4 4 = Some (4 ^ 2).
Proof.
  destruct (analyzer_counts (parse_pattern (lit "p?2?")) 4 4 ltac:(lia))
    as (_ & H & _).
  apply H; [reflexivity | reflexivity | vm_compute; discriminate].
Defined.

(** With two any-many segments and a total length below the fixed length
    the analyzer answers 0, not "undefined". *)
Lemma analyzer_counts_counterexample :
  let segments := [STAR; STAR; ["a"%char]] in
  2 <= num_stars (calculate_pattern_info segments) /\
  calculate_pattern_combinations segments 2 0 <> None.
Proof. split; [vm_compute; discriminate | vm_compute; discriminate]. Qed.

(** ** Digits and the length-ordered enumeration *)

Lemma digit_0 C x : digit C x 0 = x mod C.
Proof. unfold digit. rewrite Z.pow_0_r, Z.div_1_r. reflexivity. Qed.

Lemma digit_succ C x e : 1 <= C -> 0 <= e -> digit C x (e + 1) = digit C (x / C) e.
Proof.
  intros HC He. unfold digit. rewrite Z.pow_add_r, Z.pow_1_r by lia.
  rewrite (Z.mul_comm (C ^ e) C).
  rewrite <- Z.div_div by (try apply Z.pow_pos_nonneg; lia). reflexivity.
Qed.

Lemma digit_of_0 C e : digit C 0 e = 0.
Proof. unfold digit. rewrite Zdiv_0_l, Zmod_0_l. reflexivity. Qed.

Lemma div_bound C x n : 1 <= C -> 1 <= n -> 0 <= x < C ^ n -> 0 <= x / C < C ^ (n - 1).
Proof.
  intros HC Hn Hx. split; [apply Z.div_pos; lia|].
  apply Z.div_lt_upper_bound; [lia|].
  replace n with (1 + (n - 1)) in Hx by lia.
  rewrite Z.pow_add_r, Z.pow_1_r in Hx by lia. lia.
Qed.

Lemma fill_digits_spec (fuel : nat) : forall (i len : Z) (charset : str) (C x : Z) (out : str),
  1 <= C -> 0 <= i -> Z.of_nat fuel = len - i -> 0 <= x < C ^ (len - i) ->
  Z.of_nat (length out) = len ->
  (forall p : nat, Z.of_nat p < len - i -> out !! p = Some (char_at charset 0)) ->
  length (fill_digits fuel i len charset C x out) = length out /\
  forall p : nat,
    fill_digits fuel i len charset C x out !! p =
      if Z.of_nat p <? len - i
      then Some (char_at charset (digit C x (len - 1 - i - Z.of_nat p)))
      else out !! p.
Proof.
  induction fuel as [|fuel IH]; intros i len charset C x out HC Hi Hfuel Hx Hlen Hinit.
  - cbn [fill_digits]. split; [reflexivity|]. intros p.
    destruct (Z.ltb_spec (Z.of_nat p) (len - i)); [lia | reflexivity].
  - cbn [fill_digits].
    set (out' := <[Z.to_nat (len - 1 - i) := char_at charset (x mod C)]> out).
    assert (Hlen' : length out' = length out) by apply length_insert.
    assert (Hx' : 0 <= x / C < C ^ (len - i - 1)) by (apply div_bound; lia).
    assert (Hout' : forall p : nat, out' !! p =
              if bool_decide (Z.of_nat p = len - 1 - i)
              then Some (char_at charset (x mod C)) else out !! p).
    { intros p. unfold out'. case_bool_decide as Hp.
      - replace (Z.to_nat (len - 1 - i)) with p by lia.
        apply list_lookup_insert_eq. lia.
      - apply list_lookup_insert_ne. lia. }
    destruct ((x / C =? 0) && (i <? len - 1)) eqn:Hbrk.
    + apply andb_true_iff in Hbrk as [Hz Hlt].
      apply Z.eqb_eq in Hz. apply Z.ltb_lt in Hlt.
      split; [exact Hlen'|]. intros p. rewrite Hout'.
      case_bool_decide as Hp.
      * destruct (Z.ltb_spec (Z.of_nat p) (len - i)); [|lia].
        replace (len - 1 - i - Z.of_nat p) with 0 by lia. rewrite digit_0. reflexivity.
      * destruct (Z.ltb_spec (Z.of_nat p) (len - i)) as [Hlo|Hhi]; [|reflexivity].
        rewrite Hinit by lia.
        replace (len - 1 - i - Z.of_nat p) with ((len - 2 - i - Z.of_nat p) + 1) by lia.
        rewrite digit_succ by lia. rewrite Hz, digit_of_0. reflexivity.
    + specialize (IH (i + 1) len charset C (x / C) out').
      destruct IH as [IHlen IHp]; try lia.
      { replace (len - (i + 1)) with (len - i - 1) by lia. exact Hx'. }
      { intros p Hp. rewrite Hout'. case_bool_decide; [lia|]. apply Hinit. lia. }
      split; [lia|]. intros p. rewrite IHp, Hout'.
      destruct (Z.ltb_spec (Z.of_nat p) (len - (i + 1))) as [Hlo|Hhi].
      * destruct (Z.ltb_spec (Z.of_nat p) (len - i)); [|lia].
        replace (len - 1 - i - Z.of_nat p) with ((len - 1 - (i + 1) - Z.of_nat p) + 1) by lia.
        rewrite digit_succ by lia. reflexivity.
      * case_bool_decide as Hp.
        -- destruct (Z.ltb_spec (Z.of_nat p) (len - i)); [|lia].
           replace (len - 1 - i - Z.of_nat p) with 0 by lia. rewrite digit_0. reflexivity.
        -- destruct (Z.ltb_spec (Z.of_nat p) (len - i)); [lia|reflexivity].
Qed.

Lemma password_of_local_spec (charset : str) (len x : Z) :
  1 <= size charset -> 0 <= len -> 0 <= x < size charset ^ len ->
  size (password_of_local charset len x) = len /\
  forall p : nat, Z.of_nat p < len ->
    password_of_local charset len x !! p =
      Some (char_at charset (digit (size charset) x (len - 1 - Z.of_nat p))).
Proof.
  intros HC Hlen Hx. unfold password_of_local, size in *.
  destruct (fill_digits_spec (Z.to_nat len) 0 len charset (Z.of_nat (length charset)) x
              (replicate (Z.to_nat len) (char_at charset 0))) as [Hl Hp];
    try lia.
  - replace (len - 0) with len by lia. exact Hx.
  - rewrite length_replicate. lia.
  - intros p Hp. apply lookup_replicate_2. lia.
  - split.
    + rewrite Hl, length_replicate. lia.
    + intros p Hlt. rewrite Hp.
      destruct (Z.ltb_spec (Z.of_nat p) (len - 0)); [|lia].
      replace (len - 1 - 0 - Z.of_nat p) with (len - 1 - Z.of_nat p) by lia. reflexivity.
Qed.

Lemma geom_succ C l : geom C (S l) = geom C l + C ^ Z.of_nat (S l).
Proof. reflexivity. Qed.

Lemma geom_mono C (a b : nat) : 1 <= C -> (a <= b)%nat -> geom C a <= geom C b.
Proof.
  intros HC Hab. induction Hab as [|b Hab IH]; [lia|].
  rewrite geom_succ. pose proof (pow_ge_1 C (Z.of_nat (S b)) HC). lia.
Qed.

Lemma geom_nonneg C l : 1 <= C -> 0 <= geom C l.
Proof. intros HC. apply (geom_mono C 0 l HC). lia. Qed.

Lemma pow_mono C (a b : Z) : 1 <= C -> 0 <= a <= b -> C ^ a <= C ^ b.
Proof. intros. apply Z.pow_le_mono_r; lia. Qed.

Lemma geom_decompose C (n : nat) (i : Z) :
  1 <= C -> 0 <= i < geom C n ->
  exists (l : nat) (x : Z),
    (l < n)%nat /\ i = geom C l + x /\ 0 <= x < C ^ Z.of_nat (S l).
Proof.
  intros HC. induction n as [|n IH]; intros Hi; [cbn in Hi; lia|].
  rewrite geom_succ in Hi.
  destruct (Z.lt_ge_cases i (geom C n)) as [Hlt|Hge].
  - destruct IH as (l & x & Hl & Hx & Hr); [lia|].
    exists l, x. repeat split; try lia.
  - exists n, (i - geom C n). repeat split; try lia.
Qed.

Lemma geom_decompose_unique C (l1 l2 : nat) (x1 x2 : Z) :
  1 <= C ->
  0 <= x1 < C ^ Z.of_nat (S l1) -> 0 <= x2 < C ^ Z.of_nat (S l2) ->
  geom C l1 + x1 = geom C l2 + x2 -> l1 = l2 /\ x1 = x2.
Proof.
  intros HC H1 H2 Heq.
  destruct (Nat.lt_trichotomy l1 l2) as [Hlt|[->|Hgt]].
  - pose proof (geom_mono C (S l1) l2 HC ltac:(lia)) as Hm.
    rewrite geom_succ in Hm. lia.
  - split; [reflexivity | lia].
  - pose proof (geom_mono C (S l2) l1 HC ltac:(lia)) as Hm.
    rewrite geom_succ in Hm. lia.
Qed.

(** The length loop finds the window of the index. *)
Lemma length_loop_at (charset : str) (fuel : nat) :
  forall (m l : nat) (x idx power : Z),
  1 <= size charset ->
  (m <= l < m + fuel)%nat ->
  ((1 <= m)%nat -> power = size charset ^ Z.of_nat m) ->
  0 <= x < size charset ^ Z.of_nat (S l) ->
  idx = geom (size charset) l - geom (size charset) m + x ->
  idx <= UINT64_MAX ->
  size charset ^ Z.of_nat (S l) <= UINT64_MAX ->
  length_loop fuel (Z.of_nat (S m)) charset (size charset) idx power
  = Some (password_of_local charset (Z.of_nat (S l)) x).
Proof.
  set (C := size charset).
  induction fuel as [|fuel IH]; intros m l x idx power HC Hml Hpow Hx Hidx Hmax Hfit;
    [lia|].
  cbn [length_loop].
  assert (Hstep :
    (if Z.of_nat (S m) =? 1 then Some (C, C)
     else if power >? UINT64_MAX / C then None
          else Some (wrap64 (power * C), wrap64 (power * C)))
    = Some (C ^ Z.of_nat (S m), C ^ Z.of_nat (S m))).
  { assert (Hle : C ^ Z.of_nat (S m) <= UINT64_MAX).
    { etransitivity; [|exact Hfit]. apply pow_mono; lia. }
    destruct (Z.eqb_spec (Z.of_nat (S m)) 1) as [H1|H1].
    - rewrite H1, Z.pow_1_r. reflexivity.
    - rewrite Hpow by lia.
      assert (Hm : C ^ Z.of_nat m * C = C ^ Z.of_nat (S m)).
      { rewrite Nat2Z.inj_succ, Z.pow_succ_r by lia. ring. }
      pose proof (pow_ge_1 C (Z.of_nat m) HC ltac:(lia)).
      rewrite div_guard by lia. rewrite Hm.
      destruct (Z.ltb_spec UINT64_MAX (C ^ Z.of_nat (S m))); [lia|].
      rewrite wrap64_small by (pose proof (pow_ge_1 C (Z.of_nat (S m)) HC); lia).
      reflexivity. }
  rewrite Hstep.
  pose proof (geom_nonneg C m HC) as Hgm.
  destruct (Nat.eq_dec l m) as [->|Hne].
  - replace idx with x by lia.
    destruct (Z.ltb_spec x (C ^ Z.of_nat (S m))); [reflexivity|lia].
  - pose proof (geom_mono C (S m) l HC ltac:(lia)) as Hm. rewrite geom_succ in Hm.
    destruct (Z.ltb_spec idx (C ^ Z.of_nat (S m))); [lia|].
    rewrite wrap64_small by lia.
    replace (Z.of_nat (S m) + 1) with (Z.of_nat (S (S m))) by lia.
    apply IH; try lia; try assumption.
    rewrite geom_succ. lia.
Qed.

Lemma getPasswordByIndex_at (charset : str) (Lmax : Z) (l : nat) (x : Z) :
  1 <= size charset -> Z.of_nat l < Lmax ->
  0 <= x < size charset ^ Z.of_nat (S l) ->
  geom (size charset) l + x <= UINT64_MAX ->
  size charset ^ Z.of_nat (S l) <= UINT64_MAX ->
  getPasswordByIndex (geom (size charset) l + x) charset Lmax
  = Some (password_of_local charset (Z.of_nat (S l)) x).
Proof.
  intros HC Hl Hx Hmax Hfit. unfold getPasswordByIndex.
  destruct (Z.eqb_spec (size charset) 0); [lia|].
  change 1 with (Z.of_nat 1) at 1.
  apply length_loop_at; try lia; try assumption.
  cbn [geom]. lia.
Qed.

Lemma digit_range C x e : 1 <= C -> 0 <= digit C x e < C.
Proof. intros HC. unfold digit. apply Z.mod_pos_bound. lia. Qed.

Lemma digits_inj C (n : nat) : 1 <= C -> forall x y,
  0 <= x < C ^ Z.of_nat n -> 0 <= y < C ^ Z.of_nat n ->
  (forall e, 0 <= e < Z.of_nat n -> digit C x e = digit C y e) -> x = y.
Proof.
  intros HC. induction n as [|n IH]; intros x y Hx Hy Hd.
  - cbn in Hx, Hy. lia.
  - rewrite (Z.div_mod x C), (Z.div_mod y C) by lia.
    rewrite <- !digit_0. rewrite (Hd 0) by lia. f_equal. f_equal.
    apply IH.
    + replace (Z.of_nat n) with (Z.of_nat (S n) - 1) by lia. apply div_bound; lia.
    + replace (Z.of_nat n) with (Z.of_nat (S n) - 1) by lia. apply div_bound; lia.
    + intros e He. rewrite <- !digit_succ by lia. apply Hd. lia.
Qed.

Lemma char_at_In (charset : str) (d : Z) :
  0 <= d < size charset -> In (char_at charset d) charset.
Proof. intros Hd. unfold char_at, size in *. apply nth_In. lia. Qed.

Lemma password_of_local_over (charset : str) (len x : Z) :
  1 <= size charset -> 0 <= len -> 0 <= x < size charset ^ len ->
  Forall (fun c => In c charset) (password_of_local charset len x).
Proof.
  intros HC Hlen Hx.
  destruct (password_of_local_spec charset len x HC Hlen Hx) as [Hsz Hp].
  apply Forall_forall. intros c Hc.
  apply list_elem_of_lookup in Hc as [p Hc].
  assert (Z.of_nat p < len).
  { apply lookup_lt_Some in Hc. unfold size in Hsz. lia. }
  rewrite Hp in Hc by lia. injection Hc as <-.
  apply char_at_In, digit_range. lia.
Qed.

Lemma password_of_local_inj (charset : str) (l : nat) (x y : Z) :
  1 <= size charset -> NoDup charset ->
  0 <= x < size charset ^ Z.of_nat l -> 0 <= y < size charset ^ Z.of_nat l ->
  password_of_local charset (Z.of_nat l) x = password_of_local charset (Z.of_nat l) y ->
  x = y.
Proof.
  intros HC Hnd Hx Hy Heq.
  destruct (password_of_local_spec charset (Z.of_nat l) x HC ltac:(lia) Hx) as [_ Hpx].
  destruct (password_of_local_spec charset (Z.of_nat l) y HC ltac:(lia) Hy) as [_ Hpy].
  apply (digits_inj (size charset) l HC); try assumption.
  intros e He.
  specialize (Hpx (Z.to_nat (Z.of_nat l - 1 - e)) ltac:(lia)).
  specialize (Hpy (Z.to_nat (Z.of_nat l - 1 - e)) ltac:(lia)).
  rewrite Heq, Hpy in Hpx. injection Hpx as Hc.
  replace (Z.of_nat l - 1 - Z.of_nat (Z.to_nat (Z.of_nat l - 1 - e))) with e in Hc by lia.
  pose proof (digit_range (size charset) x e HC).
  pose proof (digit_range (size charset) y e HC).
  unfold char_at in Hc.
  pose proof (proj1 (NoDup_nth charset zero) (proj1 (NoDup_ListNoDup _) Hnd)
                (Z.to_nat (digit (size charset) y e))
                (Z.to_nat (digit (size charset) x e))) as Hinj.
  unfold size in *.
  specialize (Hinj ltac:(lia) ltac:(lia) Hc). lia.
Qed.

Lemma encode_exists (charset : str) (s : str) :
  1 <= size charset -> Forall (fun c => In c charset) s ->
  exists x, 0 <= x < size charset ^ size s /\
    forall e, 0 <= e < size s ->
      s !! Z.to_nat (size s - 1 - e) = Some (char_at charset (digit (size charset) x e)).
Proof.
  intros HC Hs. set (C := size charset) in *.
  induction Hs as [|c s' Hc Hs' IH].
  - exists 0. change (size []) with 0. rewrite Z.pow_0_r. split; [lia|]. intros e He. lia.
  - destruct IH as (x' & Hx' & Hd).
    destruct (In_nth charset c zero Hc) as (d & Hdlt & Hdc).
    set (n := size s') in *.
    assert (Hn : size (c :: s') = n + 1) by (unfold n, size; cbn [length]; lia).
    assert (Hn0 : 0 <= n) by (unfold n, size; lia).
    assert (HdC : Z.of_nat d < C) by (unfold C, size; lia).
    rewrite Hn.
    pose proof (pow_ge_1 C n HC Hn0) as Hpn.
    exists (Z.of_nat d * C ^ n + x'). split.
    + rewrite Z.pow_add_r, Z.pow_1_r by lia. nia.
    + intros e He.
      destruct (Z.eq_dec e n) as [->|Hne].
      * replace (n + 1 - 1 - n) with 0 by lia. cbn [Z.to_nat lookup list_lookup].
        unfold digit. rewrite Z.div_add_l by lia.
        rewrite (Z.div_small x') by lia. rewrite Z.add_0_r.
        rewrite Z.mod_small by lia. unfold char_at. rewrite Nat2Z.id, Hdc. reflexivity.
      * replace (Z.to_nat (n + 1 - 1 - e)) with (S (Z.to_nat (n - 1 - e))) by lia.
        change ((c :: s') !! S (Z.to_nat (n - 1 - e))) with (s' !! Z.to_nat (n - 1 - e)).
        rewrite Hd by lia. do 2 f_equal.
        unfold digit.
        replace (C ^ n) with (C ^ (n - e - 1) * C * C ^ e).
        2:{ rewrite <- (Z.pow_1_r C) at 2. rewrite <- !Z.pow_add_r by lia. f_equal. lia. }
        pose proof (pow_ge_1 C e HC ltac:(lia)).
        replace (Z.of_nat d * (C ^ (n - e - 1) * C * C ^ e) + x')
          with (x' + (Z.of_nat d * C ^ (n - e - 1) * C) * C ^ e) by ring.
        rewrite Z.div_add by lia.
        rewrite Z.mod_add by lia. reflexivity.
Qed.

Lemma password_of_local_onto (charset s : str) :
  1 <= size charset -> Forall (fun c => In c charset) s ->
  exists x, 0 <= x < size charset ^ size s /\
            password_of_local charset (size s) x = s.
Proof.
  intros HC Hs. destruct (encode_exists charset s HC Hs) as (x & Hx & Hd).
  exists x. split; [exact Hx|].
  assert (Hs0 : 0 <= size s) by (unfold size; lia).
  destruct (password_of_local_spec charset (size s) x HC Hs0 Hx) as [Hsz Hp].
  apply list_eq. intros p.
  destruct (Z.lt_ge_cases (Z.of_nat p) (size s)) as [Hlt|Hge].
  - rewrite Hp by lia. symmetry.
    specialize (Hd (size s - 1 - Z.of_nat p) ltac:(lia)).
    replace (Z.to_nat (size s - 1 - (size s - 1 - Z.of_nat p))) with p in Hd by lia.
    exact Hd.
  - rewrite !lookup_ge_None_2; [reflexivity| |]; unfold size in *; lia.
Qed.

Lemma size_pos_of_nonempty (charset : str) : charset <> [] -> 1 <= size charset.
Proof. destruct charset; [congruence|]. unfold size. cbn [length]. lia. Qed.

Lemma geom_ge_pow C (l : nat) : 1 <= C -> C ^ Z.of_nat (S l) <= geom C (S l).
Proof. intros HC. rewrite geom_succ. pose proof (geom_nonneg C l HC). lia. Qed.

(** Every index below the total is answered with the candidate of its
    window. *)
Lemma getPasswordByIndex_window (charset : str) (Lmax i : Z) :
  1 <= size charset -> geom (size charset) (Z.to_nat Lmax) <= UINT64_MAX ->
  0 <= i < geom (size charset) (Z.to_nat Lmax) ->
  exists (l : nat) (x : Z),
    Z.of_nat l < Lmax /\ 0 <= x < size charset ^ Z.of_nat (S l) /\
    i = geom (size charset) l + x /\
    getPasswordByIndex i charset Lmax
    = Some (password_of_local charset (Z.of_nat (S l)) x).
Proof.
  intros HC Hfit Hi.
  destruct (geom_decompose _ _ _ HC Hi) as (l & x & Hl & Hix & Hx).
  exists l, x. repeat split; try lia.
  subst i. apply getPasswordByIndex_at; try lia.
  pose proof (geom_ge_pow (size charset) l HC).
  pose proof (geom_mono (size charset) (S l) (Z.to_nat Lmax) HC ltac:(lia)). lia.
Qed.

(** Claim C1, as amended.  For a non-empty charset of size [C] and
    [Lmax >= 1] such that the number [N] of strings of lengths 1..[Lmax]
    fits in 64 bits: every index [i < N] is answered with [true] and the
    candidate at global position [i] of the length-ordered enumeration
    (length [L], local index [x], the character at position [L - 1 - j]
    being [charset[(x / C^j) mod C]]); every string of length 1..[Lmax]
    over the charset is the answer to some index below [N]; and when the
    characters of the charset are pairwise distinct, distinct indices give
    distinct strings. *)
Theorem getPasswordByIndex_enumeration (charset : str) (Lmax : Z) :
  charset <> [] -> 1 <= Lmax ->
  geom (size charset) (Z.to_nat Lmax) <= UINT64_MAX ->
  let C := size charset in
  let N := geom C (Z.to_nat Lmax) in
  (forall i, 0 <= i < N ->
     exists (L x : Z) (s : str),
       1 <= L <= Lmax /\ 0 <= x < C ^ L /\
       i = geom C (Z.to_nat (L - 1)) + x /\
       getPasswordByIndex i charset Lmax = Some s /\
       size s = L /\ Forall (fun c => In c charset) s /\
       forall j, 0 <= j < L ->
         s !! Z.to_nat (L - 1 - j) = Some (char_at charset ((x / C ^ j) mod C))) /\
  (forall s : str, 1 <= size s <= Lmax -> Forall (fun c => In c charset) s ->
     exists i, 0 <= i < N /\ getPasswordByIndex i charset Lmax = Some s) /\
  (NoDup charset ->
     forall i i', 0 <= i < N -> 0 <= i' < N ->
       getPasswordByIndex i charset Lmax = getPasswordByIndex i' charset Lmax ->
       i = i').
Proof.
  intros Hne HL Hfit. cbv zeta. apply size_pos_of_nonempty in Hne.
  split; [|split].
  - intros i Hi.
    destruct (getPasswordByIndex_window charset Lmax i Hne Hfit Hi)
      as (l & x & Hl & Hx & Hix & Hget).
    destruct (password_of_local_spec charset (Z.of_nat (S l)) x Hne ltac:(lia) Hx)
      as [Hsz Hp].
    exists (Z.of_nat (S l)), x, (password_of_local charset (Z.of_nat (S l)) x).
    split; [lia|]. split; [exact Hx|]. split; [|split; [exact Hget|split; [exact Hsz|split]]].
    + replace (Z.to_nat (Z.of_nat (S l) - 1)) with l by lia. exact Hix.
    + apply password_of_local_over; try lia; assumption.
    + intros j Hj. rewrite Hp by lia.
      replace (Z.of_nat (S l) - 1 - Z.of_nat (Z.to_nat (Z.of_nat (S l) - 1 - j)))
        with j by lia.
      reflexivity.
  - intros s Hs Hover.
    destruct (password_of_local_onto charset s Hne Hover) as (x & Hx & Hpw).
    set (l := Z.to_nat (size s - 1)).
    assert (Hl : l = Z.to_nat (size s - 1)) by reflexivity. clearbody l.
    assert (Hsl : size s = Z.of_nat (S l)) by lia.
    rewrite Hsl in Hx, Hpw.
    assert (Hle : (S l <= Z.to_nat Lmax)%nat) by lia.
    pose proof (geom_mono (size charset) (S l) (Z.to_nat Lmax) Hne Hle) as Hm.
    rewrite geom_succ in Hm.
    pose proof (geom_nonneg (size charset) l Hne).
    exists (geom (size charset) l + x). split; [lia|].
    rewrite <- Hpw. apply getPasswordByIndex_at; try lia; try assumption.
  - intros Hnd i i' Hi Hi' Heq.
    destruct (getPasswordByIndex_window charset Lmax i Hne Hfit Hi)
      as (l & x & Hl & Hx & Hix & Hget).
    destruct (getPasswordByIndex_window charset Lmax i' Hne Hfit Hi')
      as (l' & x' & Hl' & Hx' & Hix' & Hget').
    rewrite Hget, Hget' in Heq. injection Heq as Heq.
    destruct (password_of_local_spec charset (Z.of_nat (S l)) x Hne ltac:(lia) Hx)
      as [Hsz _].
    destruct (password_of_local_spec charset (Z.of_nat (S l')) x' Hne ltac:(lia) Hx')
      as [Hsz' _].
    rewrite Heq in Hsz. assert (l = l') by lia. subst l'.
    apply password_of_local_inj in Heq; try assumption. subst. reflexivity.
Qed.

Lemma getPasswordByIndex_enumeration_witness :
  exists (L x : Z) (s : str),
    1 <= L <= 2 /\ 0 <= x < size (lit "ab") ^ L /\
    3 = geom (size (lit "ab")) (Z.to_nat (L - 1)) + x /\
    getPasswordByIndex 3 (lit "ab") 2 = Some s /\
    size s = L /\ Forall (fun c => In c (lit "ab")) s /\
    forall j, 0 <= j < L ->
      s !! Z.to_nat (L - 1 - j)
      = Some (char_at (lit "ab") ((x / size (lit "ab") ^ j) mod size (lit "ab"))).
Proof.
  apply (proj1 (getPasswordByIndex_enumeration (lit "ab") 2
                  ltac:(discriminate) ltac:(lia) ltac:(vm_compute; discriminate)) 3).
  split; vm_compute; [discriminate | reflexivity].
Defined.

(** With a repeated character in the charset two indices give the same
    string. *)
Lemma getPasswordByIndex_not_injective :
  ~ (forall i i', 0 <= i < geom 2 1 -> 0 <= i' < geom 2 1 ->
       getPasswordByIndex i ["a"; "a"]%char 1 = getPasswordByIndex i' ["a"; "a"]%char 1 ->
       i = i').
Proof.
  intros H. specialize (H 0 1). cbn in H.
  assert (0 = 1) by (apply H; [lia | lia | reflexivity]). discriminate.
Qed.

(** ** Largest bases: the last index of a length fits in 64 bits *)

Lemma max_base_checked (k : nat) : (k < 63)%nat -> max_base_check k = true.
Proof.
  intros Hk.
  assert (H : forallb max_base_check (seq 0 63) = true) by (vm_compute; reflexivity).
  rewrite forallb_forall in H. apply H. apply in_seq. lia.
Qed.

Lemma pow_base_mono (a b : Z) (n : nat) : 0 <= a <= b -> a ^ Z.of_nat n <= b ^ Z.of_nat n.
Proof. intros. apply Z.pow_le_mono_l. lia. Qed.

Lemma geom_base_mono (a b : Z) (n : nat) : 0 <= a <= b -> geom a n <= geom b n.
Proof.
  intros H. induction n as [|n IH]; [reflexivity|].
  rewrite !geom_succ. pose proof (pow_base_mono a b (S n) H). lia.
Qed.

Lemma exponent_bound (C : Z) (n : nat) :
  2 <= C -> C ^ Z.of_nat n <= UINT64_MAX -> (n < 64)%nat.
Proof.
  intros HC Hfit. destruct (Nat.lt_ge_cases n 64) as [|Hge]; [assumption|exfalso].
  pose proof (pow_base_mono 2 C n ltac:(lia)) as H1.
  pose proof (pow_mono 2 64 (Z.of_nat n) ltac:(lia) ltac:(lia)) as H2.
  change (2 ^ 64) with (UINT64_MAX + 1) in H2. lia.
Qed.

Lemma base_bound (C : Z) (k : nat) :
  2 <= C -> C ^ Z.of_nat (S k) <= UINT64_MAX ->
  2 <= nth k max_base 0 /\ C <= nth k max_base 0 /\
  geom (nth k max_base 0) (S k) - 1 <= UINT64_MAX /\
  ((1 <= k)%nat -> nth k max_base 0 ^ Z.of_nat (S k) <= UINT64_MAX - UINT32_MAX).
Proof.
  intros HC Hfit. pose proof (exponent_bound C (S k) HC Hfit) as Hk.
  pose proof (max_base_checked k ltac:(lia)) as Hc. unfold max_base_check in Hc.
  cbv zeta in Hc.
  apply andb_true_iff in Hc as [Hc H4]. apply andb_true_iff in Hc as [Hc H3].
  apply andb_true_iff in Hc as [H1 H2].
  apply Z.leb_le in H1, H3. apply Z.ltb_lt in H2.
  split; [assumption|]. split; [|split; [assumption|]].
  - destruct (Z.le_gt_cases C (nth k max_base 0)) as [|Hgt]; [assumption|exfalso].
    pose proof (pow_base_mono (nth k max_base 0 + 1) C (S k) ltac:(lia)). lia.
  - intros Hk1. apply orb_true_iff in H4 as [H4|H4].
    + apply Nat.eqb_eq in H4. lia.
    + apply Z.leb_le in H4. exact H4.
Qed.

Lemma geom_one (n : nat) : geom 1 n = Z.of_nat n.
Proof.
  induction n as [|n IH]; [reflexivity|].
  rewrite geom_succ, IH, Z.pow_1_l by lia. lia.
Qed.

(** The index of the last candidate of length [S k] fits in 64 bits as soon
    as the number of candidates of that length does. *)
Lemma geom_fits (C : Z) (k : nat) :
  1 <= C -> C ^ Z.of_nat (S k) <= UINT64_MAX -> Z.of_nat (S k) <= INT_MAX ->
  geom C (S k) - 1 <= UINT64_MAX.
Proof.
  intros HC Hfit Hint. destruct (Z.eq_dec C 1) as [->|Hne].
  - rewrite geom_one. unfold INT_MAX, UINT64_MAX in *. lia.
  - destruct (base_bound C k ltac:(lia) Hfit) as (Hb & Hle & Hg & _).
    pose proof (geom_base_mono C (nth k max_base 0) (S k) ltac:(lia)). lia.
Qed.

(** A count [C ^ n] with [n >= 2] that fits in 64 bits leaves room for any
    32-bit thread count. *)
Lemma power_gap (C : Z) (k : nat) :
  1 <= C -> (1 <= k)%nat -> C ^ Z.of_nat (S k) <= UINT64_MAX ->
  C ^ Z.of_nat (S k) <= UINT64_MAX - UINT32_MAX.
Proof.
  intros HC Hk Hfit. destruct (Z.eq_dec C 1) as [->|Hne].
  - rewrite Z.pow_1_l by lia. vm_compute. discriminate.
  - destruct (base_bound C k ltac:(lia) Hfit) as (Hb & Hle & _ & Hg).
    pose proof (pow_base_mono C (nth k max_base 0) (S k) ltac:(lia)).
    specialize (Hg Hk). lia.
Qed.

(** ** Pattern enumeration at a fixed length *)

Lemma info_acc (segments : list str) (acc : PatternInfo) :
  fold_left info_step segments acc =
  mkPatternInfo (fixed_length acc + fixed_length (calculate_pattern_info segments))
                (num_stars acc + num_stars (calculate_pattern_info segments)).
Proof.
  unfold calculate_pattern_info. revert acc.
  induction segments as [|seg rest IH]; intros acc; cbn [fold_left].
  - destruct acc; cbn. f_equal; lia.
  - rewrite IH, (IH (info_step _ seg)). unfold info_step.
    repeat case_bool_decide; cbn; f_equal; lia.
Qed.

Lemma info_cons (seg : str) (rest : list str) :
  calculate_pattern_info (seg :: rest) =
  mkPatternInfo
    ((if bool_decide (seg = STAR) then 0
      else if bool_decide (seg = QMARK) then 1 else size seg)
     + fixed_length (calculate_pattern_info rest))
    ((if bool_decide (seg = STAR) then 1 else 0)
     + num_stars (calculate_pattern_info rest)).
Proof.
  unfold calculate_pattern_info at 1. cbn [fold_left]. rewrite info_acc.
  unfold info_step. repeat case_bool_decide; cbn; f_equal; lia.
Qed.

Lemma info_nonneg (segments : list str) :
  0 <= num_stars (calculate_pattern_info segments) /\
  count_qmarks segments <= fixed_length (calculate_pattern_info segments).
Proof.
  induction segments as [|seg rest [IH1 IH2]]; [cbn; lia|].
  rewrite info_cons, count_qmarks_cons. cbn [num_stars fixed_length].
  assert (0 <= size seg) by (unfold size; lia).
  repeat case_bool_decide; subst; try discriminate; lia.
Qed.

Lemma count_fold (segments : list str) (a b c : Z) :
  fold_left count_step segments (a, b, c) =
  (a + (fixed_length (calculate_pattern_info segments) - count_qmarks segments),
   b + count_qmarks segments,
   c + num_stars (calculate_pattern_info segments)).
Proof.
  revert a b c. induction segments as [|seg rest IH]; intros a b c; cbn [fold_left].
  - cbn. f_equal; try lia; f_equal; lia.
  - rewrite info_cons, count_qmarks_cons. cbn [num_stars fixed_length].
    unfold count_step at 2.
    repeat case_bool_decide; subst; try discriminate; rewrite IH; (f_equal; try lia; f_equal; lia).
Qed.

Lemma size_t_small (x : Z) : 0 <= x <= UINT64_MAX -> size_t_of_int x = x.
Proof. intros. unfold size_t_of_int. apply Z.mod_small. unfold UINT64_MAX in *. lia. Qed.

Lemma size_app (a b : str) : size (a ++ b) = size a + size b.
Proof. unfold size. rewrite length_app. lia. Qed.

Lemma weave_spec (charset wv : str) (star_len : Z) :
  0 <= star_len -> size wv <= UINT64_MAX -> Forall (fun c => In c charset) wv ->
  forall (segments : list str) (out : str) (idx : Z),
  0 <= idx ->
  idx + count_qmarks segments
      + star_len * num_stars (calculate_pattern_info segments) <= size wv ->
  exists pieces : list str,
    weave segments wv star_len out idx = Some (out ++ concat pieces) /\
    Forall2 (appended charset star_len) segments pieces.
Proof.
  intros Hstar Hwv Hover.
  induction segments as [|seg rest IH]; intros out idx Hidx Hroom.
  - exists []. cbn. rewrite app_nil_r. split; [reflexivity|constructor].
  - rewrite info_cons, count_qmarks_cons in Hroom. cbn [num_stars] in Hroom.
    destruct (info_nonneg rest) as [Hs _].
    pose proof (count_qmarks_nonneg rest) as Hq.
    cbn [weave]. unfold appended.
    case_bool_decide as HQ.
    + assert (HS : seg <> STAR) by (subst; discriminate).
      rewrite ?(bool_decide_eq_false_2 _ HS), ?(bool_decide_eq_true_2 _ HQ) in Hroom.
      rewrite size_t_small by nia.
      destruct (Z.ltb_spec idx (size wv)) as [_|?]; [|nia].
      destruct (IH (out ++ [char_at wv idx]) (idx + 1)) as (pieces & Hw & Hp); [lia|nia|].
      exists ([char_at wv idx] :: pieces). split.
      * rewrite Hw. cbn [concat]. rewrite <- app_assoc. reflexivity.
      * constructor; [|exact Hp]. rewrite bool_decide_eq_true_2 by assumption.
        exists (char_at wv idx). split; [|reflexivity].
        rewrite Forall_forall in Hover. apply Hover.
        apply list_elem_of_In. unfold char_at, size in *. apply nth_In. nia.
    + rewrite ?(bool_decide_eq_false_2 _ HQ) in Hroom. case_bool_decide as HS.
      * rewrite ?(bool_decide_eq_true_2 _ HS) in Hroom. rewrite size_t_small by nia.
        destruct (Z.leb_spec (idx + star_len) (size wv)) as [Hle|?]; [|nia].
        set (piece := take (Z.to_nat star_len) (drop (Z.to_nat idx) wv)).
        destruct (IH (out ++ piece) (idx + star_len)) as (pieces & Hw & Hp); [lia|nia|].
        exists (piece :: pieces). split.
        -- rewrite Hw. cbn [concat]. rewrite <- app_assoc. reflexivity.
        -- constructor; [|exact Hp].
           rewrite (bool_decide_eq_false_2 _ HQ), (bool_decide_eq_true_2 _ HS).
           split.
           ++ unfold piece, size in *. rewrite length_take, length_drop. lia.
           ++ unfold piece. apply Forall_take, Forall_drop. exact Hover.
      * rewrite ?(bool_decide_eq_false_2 _ HS) in Hroom.
        rewrite !Z.add_0_l in Hroom.
        destruct (IH (out ++ seg) idx) as (pieces & Hw & Hp); [lia|exact Hroom|].
        exists (seg :: pieces). split.
        -- rewrite Hw. cbn [concat]. rewrite <- app_assoc. reflexivity.
        -- constructor; [|exact Hp].
           rewrite (bool_decide_eq_false_2 _ HQ), (bool_decide_eq_false_2 _ HS).
           reflexivity.
Qed.

Lemma pieces_size (charset : str) (star_len : Z) (segments pieces : list str) :
  Forall2 (appended charset star_len) segments pieces ->
  size (concat pieces) =
    fixed_length (calculate_pattern_info segments)
    + star_len * num_stars (calculate_pattern_info segments).
Proof.
  induction 1 as [|seg piece rest pieces Hp _ IH].
  { change (calculate_pattern_info []) with (mkPatternInfo 0 0).
    change (size (concat [])) with 0. cbn [fixed_length num_stars]. lia. }
  cbn [concat]. rewrite size_app, IH, info_cons. cbn [fixed_length num_stars].
  unfold appended in Hp.
  repeat case_bool_decide; subst; try discriminate.
  - destruct Hp as (c & _ & ->). change (size [c]) with 1. ring.
  - destruct Hp as [-> _]. ring.
  - subst. ring.
Qed.

Lemma next_power_step (C power : Z) (m : nat) :
  1 <= C -> ((1 <= m)%nat -> power = C ^ Z.of_nat m) ->
  C ^ Z.of_nat (S m) <= UINT64_MAX ->
  (if Z.of_nat (S m) =? 1 then Some (C, C)
   else if power >? UINT64_MAX / C then None
        else Some (wrap64 (power * C), wrap64 (power * C)))
  = Some (C ^ Z.of_nat (S m), C ^ Z.of_nat (S m)).
Proof.
  intros HC Hpow Hle.
  destruct (Z.eqb_spec (Z.of_nat (S m)) 1) as [H1|H1].
  - rewrite H1, Z.pow_1_r. reflexivity.
  - rewrite Hpow by lia.
    assert (Hm : C ^ Z.of_nat m * C = C ^ Z.of_nat (S m)).
    { rewrite Nat2Z.inj_succ, Z.pow_succ_r by lia. ring. }
    pose proof (pow_ge_1 C (Z.of_nat m) HC ltac:(lia)).
    rewrite div_guard by lia. rewrite Hm.
    destruct (Z.ltb_spec UINT64_MAX (C ^ Z.of_nat (S m))); [lia|].
    rewrite wrap64_small by (pose proof (pow_ge_1 C (Z.of_nat (S m)) HC); lia).
    reflexivity.
Qed.

Lemma offset_loop_spec (C : Z) (fuel : nat) :
  forall (m : nat) (power offset : Z),
  1 <= C -> ((1 <= m)%nat -> power = C ^ Z.of_nat m) ->
  ((1 <= fuel)%nat -> C ^ Z.of_nat (m + fuel) <= UINT64_MAX) ->
  0 <= offset -> offset + geom C (m + fuel) - geom C m <= UINT64_MAX ->
  offset_loop fuel (Z.of_nat (S m)) C power offset
  = Some (offset + geom C (m + fuel) - geom C m).
Proof.
  induction fuel as [|fuel IH]; intros m power offset HC Hpow Hfit Hoff Hmax.
  - cbn [offset_loop]. rewrite Nat.add_0_r. f_equal. lia.
  - cbn [offset_loop].
    assert (Hle : C ^ Z.of_nat (S m) <= UINT64_MAX).
    { etransitivity; [|apply Hfit; lia]. apply pow_mono; lia. }
    rewrite (next_power_step C power m HC Hpow Hle).
    pose proof (geom_mono C (S m) (m + S fuel) HC ltac:(lia)) as Hm.
    rewrite geom_succ in Hm.
    pose proof (pow_ge_1 C (Z.of_nat (S m)) HC ltac:(lia)).
    destruct (Z.gtb_spec offset (UINT64_MAX - C ^ Z.of_nat (S m))); [lia|].
    rewrite wrap64_small by lia.
    replace (Z.of_nat (S m) + 1) with (Z.of_nat (S (S m))) by lia.
    assert (E : (S m + fuel = m + S fuel)%nat) by lia.
    rewrite IH;
      [ f_equal; rewrite geom_succ, E; lia
      | assumption
      | intros _; reflexivity
      | intros _; rewrite E; apply Hfit; lia
      | lia
      | rewrite geom_succ, E; lia ].
Qed.

Lemma info_fixed_nonneg (segments : list str) :
  0 <= count_qmarks segments <= fixed_length (calculate_pattern_info segments).
Proof.
  split; [apply count_qmarks_nonneg | apply info_nonneg].
Qed.

(** The wildcard fill: the offset of the shorter strings is skipped and the
    enumerator answers with the local candidate of length [w]. *)
Lemma wildcard_fill (charset : str) (w index : Z) :
  1 <= size charset -> 1 <= w <= INT_MAX ->
  size charset ^ w <= UINT64_MAX -> 0 <= index < size charset ^ w ->
  exists offset,
    offset_loop (Z.to_nat (w - 1)) 1 (size charset) 1 0 = Some offset /\
    (offset >? UINT64_MAX - index) = false /\
    getPasswordByIndex (wrap64 (offset + index)) charset w
    = Some (password_of_local charset w index).
Proof.
  intros HC Hw Hfit Hidx.
  set (k := Z.to_nat (w - 1)).
  assert (Hk : w = Z.of_nat (S k)) by lia. clearbody k. subst w.
  pose proof (geom_fits (size charset) k HC Hfit ltac:(lia)) as Hg.
  rewrite geom_succ in Hg.
  pose proof (geom_nonneg (size charset) k HC) as Hg0.
  exists (geom (size charset) k). split; [|split].
  - change 1 with (Z.of_nat 1) at 1.
    rewrite offset_loop_spec; try lia.
    + cbn [geom Nat.add]. f_equal. lia.
    + intros Hk. cbn [Nat.add]. etransitivity; [|exact Hfit]. apply pow_mono; lia.
    + cbn [geom Nat.add]. lia.
  - destruct (Z.gtb_spec (geom (size charset) k) (UINT64_MAX - index)); [lia|reflexivity].
  - rewrite wrap64_small by lia.
    apply getPasswordByIndex_at; try lia; assumption.
Qed.

(** For a segment list with at most one segment equal to "*", a non-empty
    charset, a total length [L] and a local index [j] below the analyzer's
    count for [L], [getPatternPasswordByIndex] returns [true] with a string
    of length exactly [L], put together in segment order from one charset
    character per segment equal to "?", [L - fixed_length] charset
    characters for the segment equal to "*", and every other segment as it
    is. *)
Lemma pattern_candidate_assembled (segments : list str) (charset : str) (L j n : Z) :
  charset <> [] -> is_int L ->
  num_stars (calculate_pattern_info segments) <= 1 ->
  calculate_pattern_combinations segments (size charset) L = Some n ->
  0 <= j < n ->
  exists s : str,
    getPatternPasswordByIndex j segments charset L = Some s /\
    size s = L /\
    assembled charset (L - fixed_length (calculate_pattern_info segments)) segments s.
Proof.
  intros Hne [_ HL] Hstars Hcount Hj. apply size_pos_of_nonempty in Hne.
  destruct (info_nonneg segments) as [Hs0 _].
  destruct (info_fixed_nonneg segments) as [Hq0 HqF].
  remember (fixed_length (calculate_pattern_info segments)) as F eqn:HF.
  remember (num_stars (calculate_pattern_info segments)) as S eqn:HS'.
  remember (count_qmarks segments) as q eqn:Hq'.
  (* what the analyzer's answer tells about [L] and [n] *)
  assert (Hshape : F <= L /\ (S = 0 -> L = F) /\
                   n = size charset ^ (q + (L - F)) /\ n <= UINT64_MAX).
  { unfold calculate_pattern_combinations in Hcount.
    rewrite <- HF, <- HS', <- Hq' in Hcount.
    destruct (Z.eqb_spec (size charset) 0); [lia|].
    destruct (Z.ltb_spec L F); [injection Hcount as <-; lia|].
    destruct (Z.eqb_spec S 0) as [HS|HS].
    - destruct (Z.eqb_spec L F) as [HLF|HLF]; cbn [negb] in Hcount;
        [|injection Hcount as <-; lia].
      destruct (Z.eqb_spec q 0) as [Hq|Hq].
      + injection Hcount as <-. subst L. rewrite Hq.
        replace (0 + (F - F)) with 0 by lia. rewrite Z.pow_0_r. unfold UINT64_MAX. lia.
      + rewrite power_loop_spec in Hcount by (unfold UINT64_MAX; lia).
        rewrite Z2Nat.id, Z.mul_1_l in Hcount by lia.
        destruct (Z.leb_spec (size charset ^ q) UINT64_MAX); [|discriminate].
        injection Hcount as <-. subst L. replace (q + (F - F)) with q by lia. lia.
    - destruct (Z.eqb_spec S 1) as [HS1|HS1]; [|lia].
      destruct (Z.ltb_spec (L - F) 0); [lia|].
      destruct (Z.eqb_spec (q + (L - F)) 0) as [Hw|Hw].
      + injection Hcount as <-. rewrite Hw, Z.pow_0_r. unfold UINT64_MAX. lia.
      + rewrite power_loop_spec in Hcount by (unfold UINT64_MAX; lia).
        rewrite Z2Nat.id, Z.mul_1_l in Hcount by lia.
        destruct (Z.leb_spec (size charset ^ (q + (L - F))) UINT64_MAX); [|discriminate].
        injection Hcount as <-. lia. }
  destruct Hshape as (HFL & HS0 & Hn & Hnmax).
  remember (L - F) as star_len eqn:Hsl'.
  assert (Hroom : q + star_len * S = q + star_len).
  { destruct (Z.eq_dec S 0) as [HS|HS]; [specialize (HS0 HS); nia|].
    replace S with 1 by lia. lia. }
  (* the wildcard fill *)
  assert (Hwv : exists wv : str,
    (if q + star_len >? 0 then
       match offset_loop (Z.to_nat (q + star_len - 1)) 1 (size charset) 1 0 with
       | None => None
       | Some offset =>
           if offset >? UINT64_MAX - j then None else
           match getPasswordByIndex (wrap64 (offset + j)) charset (q + star_len) with
           | None => None
           | Some wildcard_values =>
               if negb (size wildcard_values =? size_t_of_int (q + star_len))
               then None else Some wildcard_values
           end
       end
     else Some []) = Some wv /\
    size wv = q + star_len /\ Forall (fun c => In c charset) wv).
  { destruct (Z.gtb_spec (q + star_len) 0) as [Hpos|Hzero].
    - destruct (wildcard_fill charset (q + star_len) j Hne) as (offset & Ho & Hg & Hget);
        try (unfold INT_MAX in *; lia).
      pose proof (password_of_local_spec charset (q + star_len) j Hne ltac:(lia)
                    ltac:(lia)) as [Hsz _].
      exists (password_of_local charset (q + star_len) j).
      rewrite Ho, Hg, Hget, Hsz.
      rewrite size_t_small by (unfold INT_MAX, UINT64_MAX in *; lia).
      rewrite Z.eqb_refl. cbn [negb]. split; [reflexivity|]. split; [reflexivity|].
      apply password_of_local_over; lia.
    - exists []. split; [reflexivity|]. split; [unfold size; cbn; lia|constructor]. }
  destruct Hwv as (wv & Hfill & Hwsz & Hwover).
  destruct (weave_spec charset wv star_len ltac:(lia)
              ltac:(unfold INT_MAX, UINT64_MAX in *; lia) Hwover segments [] 0
              ltac:(lia)) as (pieces & Hweave & Hpieces).
  { rewrite <- Hq', <- HS'. lia. }
  pose proof (pieces_size _ _ _ _ Hpieces) as Hsize. rewrite <- HF, <- HS' in Hsize.
  exists (concat pieces). split; [|split].
  - unfold getPatternPasswordByIndex.
    destruct (Z.eqb_spec (size charset) 0); [lia|].
    rewrite count_fold. rewrite <- HF, <- HS', <- Hq'. rewrite !Z.add_0_l.
    replace (F - q + q) with F by lia.
    rewrite !size_t_small by (unfold INT_MAX, UINT64_MAX in *; lia).
    destruct (Z.ltb_spec L F); [lia|].
    assert (Hsl :
      (if S >? 0
       then if L - F <? 0 then None else Some (L - F)
       else if negb (L =? F) then None else Some 0) = Some star_len).
    { destruct (Z.gtb_spec S 0) as [HS|HS].
      - destruct (Z.ltb_spec (L - F) 0); [lia|rewrite Hsl'; reflexivity].
      - specialize (HS0 ltac:(lia)). subst L. rewrite Z.eqb_refl. cbn [negb].
        f_equal. lia. }
    rewrite Hsl.
    destruct (Z.ltb_spec (q + star_len) 0); [lia|].
    rewrite Hfill, Hweave. cbn [app].
    replace (size (concat pieces)) with L by nia.
    rewrite Z.eqb_refl. reflexivity.
  - nia.
  - exists pieces. split; [reflexivity|exact Hpieces].
Qed.

(** ** Probabilistic filter: insert and contains *)

Lemma isValid_spec (bf : BloomFilter) :
  isValid bf = true <-> m_bits bf <> [] /\ 0 < m_num_hashes bf.
Proof.
  unfold isValid. rewrite andb_true_iff, negb_true_iff, bool_decide_eq_false.
  rewrite Z.gtb_lt. reflexivity.
Qed.

Lemma set_bits_length (hashes : list Z) (bits : list bool) :
  length (set_bits bits hashes) = length bits.
Proof.
  unfold set_bits. revert bits.
  induction hashes as [|h rest IH]; intros bits; cbn [fold_left]; [reflexivity|].
  rewrite IH. apply length_insert.
Qed.

Lemma set_bits_keeps (hashes : list Z) (bits : list bool) (i : Z) :
  bit_at bits i = true -> bit_at (set_bits bits hashes) i = true.
Proof.
  unfold set_bits. revert bits.
  induction hashes as [|h rest IH]; intros bits Hb; cbn [fold_left]; [exact Hb|].
  apply IH. unfold bit_at in *.
  destruct (Nat.eq_dec (Z.to_nat h) (Z.to_nat i)) as [E|E].
  - rewrite E. destruct (Nat.lt_ge_cases (Z.to_nat i) (length bits)) as [Hlt|Hge].
    + rewrite nth_lookup, list_lookup_insert_eq by exact Hlt. reflexivity.
    + rewrite list_insert_ge by exact Hge. exact Hb.
  - rewrite nth_lookup, list_lookup_insert_ne by exact E.
    rewrite <- nth_lookup. exact Hb.
Qed.

Lemma set_bits_sets (hashes : list Z) (bits : list bool) (h : Z) :
  In h hashes -> 0 <= h < Z.of_nat (length bits) ->
  bit_at (set_bits bits hashes) h = true.
Proof.
  unfold set_bits. revert bits.
  induction hashes as [|h0 rest IH]; intros bits Hin Hh; [destruct Hin|].
  cbn [fold_left]. destruct Hin as [->|Hin].
  - apply (set_bits_keeps rest). unfold bit_at.
    rewrite nth_lookup, list_lookup_insert_eq by lia. reflexivity.
  - apply IH; [exact Hin|]. rewrite length_insert. exact Hh.
Qed.

Lemma all_set_spec (bits : list bool) (hashes : list Z) :
  all_set bits hashes = true <-> forall h, In h hashes -> bit_at bits h = true.
Proof.
  induction hashes as [|h rest IH]; cbn [all_set].
  - split; [intros _ h []|reflexivity].
  - destruct (bit_at bits h) eqn:Hb; cbn [negb].
    + rewrite IH. split.
      * intros H h' [<-|Hin]; [exact Hb|apply H, Hin].
      * intros H h' Hin. apply H. right. exact Hin.
    + split; [discriminate|]. intros H. rewrite <- Hb. apply H. left. reflexivity.
Qed.

Lemma generate_hashes_spec (bf : BloomFilter) (item : str) (h : Z) :
  In h (generate_hashes bf item) <->
  exists i, 0 <= i < m_num_hashes bf /\
            h = probe (hash1 item) (hash2 (hash1 item)) (m_num_bits bf) i.
Proof.
  unfold generate_hashes. cbv zeta. rewrite in_map_iff. split.
  - intros (i & <- & Hi). exists i. split; [|reflexivity].
    apply list_elem_of_In, elem_of_seqZ in Hi. lia.
  - intros (i & Hi & ->). exists i. split; [reflexivity|].
    apply list_elem_of_In, elem_of_seqZ. lia.
Qed.

Lemma probe_range (h1 h2 m i : Z) : 0 < m -> 0 <= probe h1 h2 m i < m.
Proof. intros. unfold probe. apply Z.mod_pos_bound. assumption. Qed.

Lemma insert_generate_hashes (bf : BloomFilter) (item item' : str) :
  generate_hashes (insert bf item) item' = generate_hashes bf item'.
Proof. unfold insert. destruct (isValid bf); reflexivity. Qed.

Lemma insert_isValid (bf : BloomFilter) (item : str) :
  isValid (insert bf item) = isValid bf.
Proof.
  unfold insert. destruct (isValid bf) eqn:Hv; cbn [negb]; [|exact Hv].
  unfold isValid in *. cbn [m_bits m_num_hashes].
  apply andb_true_iff in Hv as [Hb Hk]. rewrite Hk, andb_true_r.
  apply negb_true_iff, bool_decide_eq_false in Hb.
  apply negb_true_iff, bool_decide_eq_false. intros E.
  apply (f_equal length) in E. rewrite set_bits_length in E.
  destruct (m_bits bf); [congruence|discriminate].
Qed.

(** ** Probabilistic filter: persistence *)

Lemma testbit_via_shift (x b : Z) :
  0 <= b -> negb (Z.land (Z.shiftr x b) 1 =? 0) = Z.testbit x b.
Proof.
  intros Hb. change 1 with (Z.ones 1). rewrite Z.land_ones by lia.
  change (2 ^ 1) with 2. rewrite Zmod_odd.
  replace (Z.testbit x b) with (Z.testbit (Z.shiftr x b) 0)
    by (rewrite Z.shiftr_spec by lia; f_equal; lia).
  rewrite Z.bit0_odd. destruct (Z.odd (Z.shiftr x b)); reflexivity.
Qed.

Lemma testbit_or_mask (old b n : Z) :
  0 <= b < 8 -> 0 <= n ->
  Z.testbit (byte.unsigned (byte.of_Z (Z.lor old (Z.shiftl 1 n)))) b
  = Z.testbit old b || (n =? b).
Proof.
  intros Hb Hn. rewrite byte.unsigned_of_Z. unfold byte.wrap.
  rewrite Z.mod_pow2_bits_low by lia.
  rewrite Z.lor_spec, Z.shiftl_1_l, Z.pow2_bits_eqb by lia. reflexivity.
Qed.

Lemma nth_insert_eq {A} (l : list A) (i : nat) (x d : A) :
  (i < length l)%nat -> nth i (<[i := x]> l) d = x.
Proof. intros H. rewrite nth_lookup, list_lookup_insert_eq by exact H. reflexivity. Qed.

Lemma nth_insert_ne {A} (l : list A) (i j : nat) (x d : A) :
  i <> j -> nth j (<[i := x]> l) d = nth j l d.
Proof. intros H. rewrite !nth_lookup, list_lookup_insert_ne by exact H. reflexivity. Qed.

(** After the first [t] iterations of the packing loop, bit [b] of byte [j]
    is bit [8 * j + b] of the vector, for the positions below [t]. *)
Lemma pack_fold (bits : list bool) (nb t : nat) :
  (t <= 8 * nb)%nat ->
  let packed := fold_left (pack_step bits) (seqZ 0 (Z.of_nat t))
                          (replicate nb Byte.x00) in
  length packed = nb /\
  forall (j : nat) (b : Z), (j < nb)%nat -> 0 <= b < 8 ->
    Z.testbit (byte.unsigned (nth j packed Byte.x00)) b
    = (8 * Z.of_nat j + b <? Z.of_nat t) && bit_at bits (8 * Z.of_nat j + b).
Proof.
  induction t as [|t IH]; intros Ht; cbv zeta.
  - change (seqZ 0 (Z.of_nat 0)) with (@nil Z). cbn [fold_left].
    split; [apply length_replicate|]. intros j b Hj Hb.
    destruct (Z.ltb_spec (8 * Z.of_nat j + b) (Z.of_nat 0)); [lia|]. cbn [andb].
    rewrite nth_lookup, lookup_replicate_2 by exact Hj. cbn [default].
    change (byte.unsigned Byte.x00) with 0. apply Z.testbit_0_l.
  - rewrite seqZ_S, fold_left_app. cbn [fold_left]. rewrite Z.add_0_l.
    destruct IH as [Hlen Hbits]; [lia|].
    set (packed := fold_left (pack_step bits) (seqZ 0 (Z.of_nat t))
                             (replicate nb Byte.x00)) in *.
    unfold pack_step. destruct (bit_at bits (Z.of_nat t)) eqn:Hbit.
    + split; [rewrite length_insert; exact Hlen|]. intros j b Hj Hb.
      assert (Hdiv : Z.of_nat t = 8 * (Z.of_nat t / 8) + Z.of_nat t mod 8)
        by (apply Z.div_mod; lia).
      pose proof (Z.mod_pos_bound (Z.of_nat t) 8 ltac:(lia)) as Hmod.
      assert (Hj0 : (Z.to_nat (Z.of_nat t / 8) < nb)%nat).
      { assert (Z.of_nat t / 8 < Z.of_nat nb) by (apply Z.div_lt_upper_bound; lia).
        assert (0 <= Z.of_nat t / 8) by (apply Z.div_pos; lia). lia. }
      assert (0 <= Z.of_nat t / 8) by (apply Z.div_pos; lia).
      destruct (Nat.eq_dec (Z.to_nat (Z.of_nat t / 8)) j) as [E|E].
      * subst j. rewrite nth_insert_eq by lia.
        rewrite testbit_or_mask by lia. rewrite Hbits by lia.
        rewrite Z2Nat.id by lia.
        destruct (Z.eqb_spec (Z.of_nat t mod 8) b) as [Eb|Eb].
        -- rewrite orb_true_r. replace (8 * (Z.of_nat t / 8) + b) with (Z.of_nat t) by lia.
           rewrite Hbit. destruct (Z.ltb_spec (Z.of_nat t) (Z.of_nat (S t))); [reflexivity|lia].
        -- rewrite orb_false_r. f_equal.
           destruct (Z.ltb_spec (8 * (Z.of_nat t / 8) + b) (Z.of_nat t));
           destruct (Z.ltb_spec (8 * (Z.of_nat t / 8) + b) (Z.of_nat (S t)));
             try reflexivity; lia.
      * rewrite nth_insert_ne by exact E. rewrite Hbits by lia. f_equal.
        destruct (Z.ltb_spec (8 * Z.of_nat j + b) (Z.of_nat t));
        destruct (Z.ltb_spec (8 * Z.of_nat j + b) (Z.of_nat (S t)));
          try reflexivity; lia.
    + split; [exact Hlen|]. intros j b Hj Hb. rewrite Hbits by lia.
      destruct (Z.eq_dec (8 * Z.of_nat j + b) (Z.of_nat t)) as [E|E].
      * rewrite E, Hbit, !andb_false_r. reflexivity.
      * f_equal.
        destruct (Z.ltb_spec (8 * Z.of_nat j + b) (Z.of_nat t));
        destruct (Z.ltb_spec (8 * Z.of_nat j + b) (Z.of_nat (S t)));
          try reflexivity; lia.
Qed.

(** After the first [t] iterations of the unpacking loop the positions
    below [t] hold the packed bits and the others are untouched. *)
Lemma unpack_fold (packed : list byte) (bits0 : list bool) (t : nat) :
  (t <= length bits0)%nat ->
  let bits := fold_left (unpack_step packed) (seqZ 0 (Z.of_nat t)) bits0 in
  length bits = length bits0 /\
  forall i : nat,
    bits !! i =
      if (i <? t)%nat
      then Some (Z.testbit
                   (byte.unsigned (nth (Z.to_nat (Z.of_nat i / 8)) packed Byte.x00))
                   (Z.of_nat i mod 8))
      else bits0 !! i.
Proof.
  induction t as [|t IH]; intros Ht; cbv zeta.
  - change (seqZ 0 (Z.of_nat 0)) with (@nil Z). cbn [fold_left].
    split; [reflexivity|]. intros i. reflexivity.
  - rewrite seqZ_S, fold_left_app. cbn [fold_left]. rewrite Z.add_0_l.
    destruct IH as [Hlen Hbits]; [lia|].
    set (bits := fold_left (unpack_step packed) (seqZ 0 (Z.of_nat t)) bits0) in *.
    unfold unpack_step. rewrite Nat2Z.id.
    pose proof (Z.mod_pos_bound (Z.of_nat t) 8 ltac:(lia)) as Hmod.
    rewrite testbit_via_shift by lia.
    split; [rewrite length_insert; exact Hlen|]. intros i.
    destruct (Nat.eq_dec t i) as [->|E].
    + rewrite list_lookup_insert_eq by lia.
      destruct (Nat.ltb_spec i (S i)); [reflexivity|lia].
    + rewrite list_lookup_insert_ne by exact E. rewrite Hbits.
      destruct (Nat.ltb_spec i t); destruct (Nat.ltb_spec i (S t));
        try reflexivity; lia.
Qed.

Lemma stream_read_enough (a rest old : list byte) (n : Z) :
  n = Z.of_nat (length a) ->
  stream_read (mkIstream (a ++ rest) true) n old = (mkIstream rest true, a).
Proof.
  intros ->. unfold stream_read. cbn [good unread negb].
  rewrite length_app.
  destruct (Z.leb_spec (Z.of_nat (length a)) (Z.of_nat (length a + length rest))); [|lia].
  rewrite Nat2Z.id, take_app_length, drop_app_length. reflexivity.
Qed.

Lemma le_roundtrip (n : nat) (x : Z) :
  0 <= x < 2 ^ (Z.of_nat n * 8) -> le_combine (le_split n x) = x.
Proof. intros H. rewrite le_combine_split. apply Z.mod_small. exact H. Qed.

Lemma stream_read_length (s : istream) (n : Z) (old : list byte) :
  n = Z.of_nat (length old) -> length (snd (stream_read s n old)) = length old.
Proof.
  intros ->. unfold stream_read. destruct (good s); cbn [negb snd]; [|reflexivity].
  destruct (Z.leb_spec (Z.of_nat (length old)) (Z.of_nat (length (unread s)))).
  - cbn [snd]. rewrite length_take. lia.
  - cbn [snd]. rewrite length_app, length_drop. lia.
Qed.

Lemma stream_read_good (s s' : istream) (n : Z) (old v : list byte) :
  stream_read s n old = (s', v) -> good s' = true -> 0 <= n ->
  good s = true /\ unread s = v ++ unread s' /\ Z.of_nat (length v) = n.
Proof.
  unfold stream_read. destruct (good s) eqn:Hg; cbn [negb].
  - destruct (Z.leb_spec n (Z.of_nat (length (unread s)))).
    + intros [= <- <-] _ Hn. cbn [unread]. rewrite take_drop, length_take.
      repeat split; try reflexivity. lia.
    + intros [= <- <-]. cbn. discriminate.
  - intros [= <- <-] Hg'. congruence.
Qed.

Lemma le_combine_range (n : nat) (v : list byte) :
  length v = n -> 0 <= le_combine v <= 2 ^ (8 * Z.of_nat n) - 1.
Proof. intros <-. pose proof (le_combine_bound v). lia. Qed.


(** What a successful load has read. *)
Lemma deserialize_accepts (mem : Z) (bf0 bf : BloomFilter) (content : list byte) :
  0 <= mem < 2 ^ 60 ->
  deserialize mem bf0 (Some content) = (Returned true, bf) ->
  exists packed : list byte,
    content = header bf ++ packed /\
    Z.of_nat (length packed) = packed_size (m_num_bits bf) /\
    1 <= m_num_bits bf <= 8 * mem /\ 1 <= m_num_hashes bf <= UINT32_MAX /\
    is_uint64 (m_estimated_items bf) /\ is_uint64 (m_fp_rate bf) /\
    length (m_bits bf) = Z.to_nat (m_num_bits bf) /\
    forall i : nat, Z.of_nat i < m_num_bits bf ->
      m_bits bf !! i =
        Some (Z.testbit (byte.unsigned (nth (Z.to_nat (Z.of_nat i / 8)) packed Byte.x00))
                        (Z.of_nat i mod 8)).
Proof.
  intros Hmem. unfold deserialize.
  destruct (stream_read (mkIstream content true) 4 (le_split 4 0)) as [s1 magic] eqn:R1.
  destruct (negb (good s1) || negb (le_combine magic =? BLOOM_FILTER_MAGIC)) eqn:C1;
    [discriminate|].
  apply orb_false_iff in C1 as [G1 M1]. apply negb_false_iff in G1, M1.
  apply Z.eqb_eq in M1.
  destruct (stream_read s1 2 (le_split 2 0)) as [s2 version] eqn:R2.
  destruct (negb (good s2) || negb (le_combine version =? BLOOM_FILTER_VERSION)) eqn:C2;
    [discriminate|].
  apply orb_false_iff in C2 as [G2 V2]. apply negb_false_iff in G2, V2.
  apply Z.eqb_eq in V2.
  destruct (stream_read s2 8 (le_split 8 (m_num_bits bf0))) as [s3 mb] eqn:R3.
  destruct (stream_read s3 4 (le_split 4 (m_num_hashes bf0))) as [s4 kb] eqn:R4.
  destruct (stream_read s4 8 (le_split 8 (m_estimated_items bf0))) as [s5 nb] eqn:R5.
  destruct (stream_read s5 8 (le_split 8 (m_fp_rate bf0))) as [s6 pb] eqn:R6.
  cbn [m_num_bits m_num_hashes m_estimated_items m_fp_rate m_bits].
  destruct (negb (good s6) || (le_combine mb =? 0) || (le_combine kb =? 0)) eqn:C3;
    [discriminate|].
  apply orb_false_iff in C3 as [C3 K0]. apply orb_false_iff in C3 as [G6 M0].
  apply negb_false_iff in G6. apply Z.eqb_neq in M0, K0.
  destruct (stream_read_good _ _ _ _ _ R6 G6 ltac:(lia)) as (G5 & U6 & L6).
  destruct (stream_read_good _ _ _ _ _ R5 G5 ltac:(lia)) as (G4 & U5 & L5).
  destruct (stream_read_good _ _ _ _ _ R4 G4 ltac:(lia)) as (G3 & U4 & L4).
  destruct (stream_read_good _ _ _ _ _ R3 G3 ltac:(lia)) as (_ & U3 & L3).
  destruct (stream_read_good _ _ _ _ _ R2 G2 ltac:(lia)) as (_ & U2 & L2).
  destruct (stream_read_good _ _ _ _ _ R1 G1 ltac:(lia)) as (_ & U1 & L1).
  cbn [unread] in U1.
  set (m := le_combine mb) in *.
  assert (Lm : length mb = 8%nat) by lia.
  assert (Lk : length kb = 4%nat) by lia.
  assert (Ln : length nb = 8%nat) by lia.
  assert (Lp : length pb = 8%nat) by lia.
  pose proof (le_combine_range 8 mb Lm) as Hm. fold m in Hm.
  pose proof (le_combine_range 4 kb Lk) as Hk.
  pose proof (le_combine_range 8 nb Ln) as Hn.
  pose proof (le_combine_range 8 pb Lp) as Hp.
  change (2 ^ (8 * Z.of_nat 8)) with (2 ^ 64) in Hm, Hn, Hp.
  change (2 ^ (8 * Z.of_nat 4)) with (2 ^ 32) in Hk.
  destruct (negb (alloc_bytes_ok mem (wrap64 (m + 7) / 8))) eqn:A1; [discriminate|].
  apply negb_false_iff in A1. unfold alloc_bytes_ok in A1. apply Z.leb_le in A1.
  assert (Hps : 0 <= wrap64 (m + 7) / 8).
  { apply Z.div_pos; [|lia]. unfold wrap64. apply Z.mod_pos_bound. lia. }
  match goal with
  | |- context [stream_read ?s ?n ?old] =>
      destruct (stream_read s n old) as [s7 packed] eqn:R7
  end.
  destruct (negb (good s7) || has_more s7) eqn:C4; [discriminate|].
  apply orb_false_iff in C4 as [G7 E7]. apply negb_false_iff in G7.
  unfold has_more in E7. apply negb_false_iff, bool_decide_eq_true in E7.
  destruct (stream_read_good _ _ _ _ _ R7 G7 Hps) as (_ & U7 & L7).
  rewrite E7, app_nil_r in U7.
  destruct (negb (alloc_bits_ok mem m)) eqn:A2; [discriminate|].
  apply negb_false_iff in A2. unfold alloc_bits_ok in A2. apply Z.leb_le in A2.
  intros [= <-]. cbn [m_num_bits m_num_hashes m_estimated_items m_fp_rate m_bits].
  assert (Hw : wrap64 (m + 7) / 8 = packed_size m).
  { unfold packed_size. rewrite wrap64_small by (unfold UINT64_MAX; lia). reflexivity. }
  rewrite Hw in *.
  destruct (unpack_fold packed (resize (Z.to_nat m) false (m_bits bf0)) (Z.to_nat m))
    as [Hlen Hbits]; [rewrite length_resize; lia|].
  rewrite Z2Nat.id in Hlen, Hbits by lia. rewrite length_resize in Hlen.
  exists packed. split; [|split; [exact L7|]].
  { unfold header. cbn [m_num_bits m_num_hashes m_estimated_items m_fp_rate].
    rewrite <- M1, <- V2. fold m.
    replace 4%nat with (length magic) at 1 by lia.
    replace 2%nat with (length version) at 1 by lia.
    replace 8%nat with (length mb) at 1 by lia.
    replace 4%nat with (length kb) at 1 by lia.
    replace 8%nat with (length nb) at 1 by lia.
    replace 8%nat with (length pb) at 1 by lia.
    unfold m. rewrite !split_le_combine.
    rewrite U1, U2, U3, U4, U5, U6, U7. rewrite <- !app_assoc. reflexivity. }
  split; [lia|]. split; [unfold UINT32_MAX; lia|].
  split; [unfold is_uint64, UINT64_MAX; lia|].
  split; [unfold is_uint64, UINT64_MAX; lia|].
  split; [exact Hlen|].
  intros i Hi. rewrite Hbits.
  destruct (Nat.ltb_spec i (Z.to_nat m)); [reflexivity|lia].
Qed.

(** A rejected load leaves the filter as it was or invalidates it. *)
Lemma deserialize_rejects (mem : Z) (bf0 bf : BloomFilter) (file : option (list byte)) :
  deserialize mem bf0 file = (Returned false, bf) ->
  bf = bf0 \/
  (m_num_bits bf = 0 /\ m_num_hashes bf = 0 /\
   is_uint64 (m_estimated_items bf) /\ is_uint64 (m_fp_rate bf)).
Proof.
  unfold deserialize. destruct file as [content|]; [|intros [= <-]; left; reflexivity].
  destruct (stream_read (mkIstream content true) 4 (le_split 4 0)) as [s1 magic] eqn:R1.
  destruct (negb (good s1) || negb (le_combine magic =? BLOOM_FILTER_MAGIC));
    [intros [= <-]; left; reflexivity|].
  destruct (stream_read s1 2 (le_split 2 0)) as [s2 version] eqn:R2.
  destruct (negb (good s2) || negb (le_combine version =? BLOOM_FILTER_VERSION));
    [intros [= <-]; left; reflexivity|].
  destruct (stream_read s2 8 (le_split 8 (m_num_bits bf0))) as [s3 mb] eqn:R3.
  destruct (stream_read s3 4 (le_split 4 (m_num_hashes bf0))) as [s4 kb] eqn:R4.
  destruct (stream_read s4 8 (le_split 8 (m_estimated_items bf0))) as [s5 nb] eqn:R5.
  destruct (stream_read s5 8 (le_split 8 (m_fp_rate bf0))) as [s6 pb] eqn:R6.
  cbn [m_num_bits m_num_hashes m_estimated_items m_fp_rate m_bits].
  assert (Ln : length nb = 8%nat).
  { pose proof (stream_read_length s4 8 (le_split 8 (m_estimated_items bf0))) as H.
    rewrite R5, length_le_split in H. apply H. reflexivity. }
  assert (Lp : length pb = 8%nat).
  { pose proof (stream_read_length s5 8 (le_split 8 (m_fp_rate bf0))) as H.
    rewrite R6, length_le_split in H. apply H. reflexivity. }
  pose proof (le_combine_range 8 nb Ln) as Hn.
  pose proof (le_combine_range 8 pb Lp) as Hp.
  change (2 ^ (8 * Z.of_nat 8) - 1) with UINT64_MAX in Hn, Hp.
  destruct (negb (good s6) || (le_combine mb =? 0) || (le_combine kb =? 0));
    [intros [= <-]; right; cbn; auto|].
  destruct (negb (alloc_bytes_ok mem (wrap64 (le_combine mb + 7) / 8))); [discriminate|].
  match goal with
  | |- context [stream_read ?s ?n ?old] =>
      destruct (stream_read s n old) as [s7 packed] eqn:R7
  end.
  destruct (negb (good s7) || has_more s7); [intros [= <-]; right; cbn; auto|].
  destruct (negb (alloc_bits_ok mem (le_combine mb)));
    [intros [= <-]; right; cbn; auto|discriminate].
Qed.

Lemma resize_false_nil (n : nat) : resize n false [] = replicate n false.
Proof. rewrite resize_spec, take_nil. cbn [length app]. rewrite Nat.sub_0_r. reflexivity. Qed.

Lemma construct_wf (mem n p : Z) (fl : sizing) (bf : BloomFilter) :
  is_uint64 n -> is_uint64 p -> is_uint64 (m_ceil fl) -> is_uint32 (k_ceil fl) ->
  construct mem n p fl = Some bf ->
  wf_filter mem bf /\ isValid bf = true /\
  8 <= m_num_bits bf /\ 1 <= m_num_hashes bf <= 20.
Proof.
  intros Hn Hp Hm Hk. unfold construct.
  destruct ((n =? 0) || negb (p_in_range fl)).
  - destruct (alloc_bits_ok mem 8) eqn:A; [|discriminate]. intros [= <-].
    unfold wf_filter, isValid, is_uint64, is_uint32, UINT64_MAX, UINT32_MAX in *.
    cbn. rewrite A. repeat split; try lia.
  - set (m := if m_ceil fl <? 8 then 8 else m_ceil fl).
    set (k0 := if k_ceil fl <? 1 then 1 else k_ceil fl).
    set (k := if k0 >? 20 then 20 else k0).
    assert (Hm8 : 8 <= m /\ m <= UINT64_MAX).
    { unfold m, is_uint64, UINT64_MAX in *. destruct (Z.ltb_spec (m_ceil fl) 8); lia. }
    assert (Hk1 : 1 <= k <= 20).
    { unfold k, k0. destruct (Z.ltb_spec (k_ceil fl) 1);
        match goal with |- context [?a >? ?b] => destruct (Z.gtb_spec a b) end; lia. }
    destruct (alloc_bits_ok mem m) eqn:A; [|discriminate]. intros [= <-].
    unfold wf_filter, isValid, is_uint64, is_uint32, UINT64_MAX, UINT32_MAX in *.
    cbn [m_num_bits m_num_hashes m_estimated_items m_fp_rate m_bits].
    rewrite resize_false_nil, length_replicate, A.
    assert (Hne : replicate (Z.to_nat m) false <> []).
    { intros E. apply (f_equal length) in E. rewrite length_replicate in E. cbn in E. lia. }
    rewrite (bool_decide_eq_false_2 _ Hne).
    destruct (Z.gtb_spec k 0); [|lia]. cbn [negb andb].
    repeat split; try lia.
Qed.

Lemma insert_wf (mem : Z) (bf : BloomFilter) (item : str) :
  wf_filter mem bf -> wf_filter mem (insert bf item).
Proof.
  intros Hwf. pose proof (insert_isValid bf item) as Hv.
  unfold insert in *. destruct (isValid bf) eqn:V; cbn [negb] in *; [|exact Hwf].
  destruct Hwf as (H1 & H2 & H3 & H4 & H5). specialize (H5 V).
  unfold wf_filter. cbn [m_num_bits m_num_hashes m_estimated_items m_fp_rate m_bits].
  rewrite set_bits_length. repeat split; try tauto; try apply H1; try apply H2;
    try apply H3; try apply H4.
Qed.

Lemma reachable_wf (mem : Z) (bf : BloomFilter) :
  0 <= mem < 2 ^ 60 -> reachable mem bf -> wf_filter mem bf.
Proof.
  intros Hmem. induction 1 as [|n p fl bf Hn Hp Hm Hk Hc|bf item _ IH|bf0 bf file b _ IH Hd].
  - unfold wf_filter, default_filter, isValid, is_uint64, is_uint32,
      UINT64_MAX, UINT32_MAX. cbn. repeat split; try lia; congruence.
  - exact (proj1 (construct_wf mem n p fl bf Hn Hp Hm Hk Hc)).
  - apply insert_wf, IH.
  - destruct b.
    + destruct file as [content|]; [|cbn in Hd; discriminate].
      destruct (deserialize_accepts mem bf0 bf content Hmem Hd)
        as (packed & _ & _ & Hm & Hk & Hn & Hp & Hlen & _).
      unfold wf_filter, is_uint64, is_uint32, alloc_bits_ok, UINT64_MAX in *.
      repeat split; try lia; intros; try (apply Z.leb_le); lia.
    + destruct (deserialize_rejects mem bf0 bf file Hd) as [->|(Hm & Hk & Hn & Hp)];
        [exact IH|].
      unfold wf_filter, isValid. rewrite Hm, Hk.
      unfold is_uint64, is_uint32, UINT64_MAX, UINT32_MAX in *.
      rewrite andb_false_r. repeat split; try lia; congruence.
Qed.

Lemma stream_read_all (a old : list byte) (n : Z) :
  n = Z.of_nat (length a) ->
  stream_read (mkIstream a true) n old = (mkIstream [] true, a).
Proof.
  intros Hn. rewrite <- (app_nil_r a) at 1. apply stream_read_enough. exact Hn.
Qed.

Lemma packed_size_bounds (mem m : Z) :
  0 <= m <= 8 * mem -> 0 <= packed_size m <= mem /\ m <= 8 * packed_size m.
Proof.
  intros Hm. unfold packed_size.
  pose proof (Z.div_mod (m + 7) 8 ltac:(lia)).
  pose proof (Z.mod_pos_bound (m + 7) 8 ltac:(lia)). lia.
Qed.

Lemma valid_wf_facts (mem : Z) (bf : BloomFilter) :
  wf_filter mem bf -> isValid bf = true ->
  1 <= m_num_bits bf <= 8 * mem /\ m_num_bits bf = Z.of_nat (length (m_bits bf)) /\
  1 <= m_num_hashes bf <= UINT32_MAX /\
  is_uint64 (m_estimated_items bf) /\ is_uint64 (m_fp_rate bf).
Proof.
  intros (H1 & H2 & H3 & H4 & H5) Hv. destruct (H5 Hv) as [Hlen Ha].
  apply isValid_spec in Hv as [Hne Hk].
  unfold alloc_bits_ok in Ha. apply Z.leb_le in Ha.
  unfold is_uint32 in H2.
  assert (1 <= Z.of_nat (length (m_bits bf))).
  { destruct (m_bits bf); [congruence|cbn [length]; lia]. }
  repeat split; try lia; try apply H3; try apply H4.
Qed.

(** The packed bits written by [serialize]. *)
Lemma pack_bits_spec (mem : Z) (bf : BloomFilter) :
  wf_filter mem bf -> isValid bf = true ->
  let packed := pack_bits bf (packed_size (m_num_bits bf)) in
  Z.of_nat (length packed) = packed_size (m_num_bits bf) /\
  forall i, 0 <= i < m_num_bits bf ->
    Z.testbit (byte.unsigned (nth (Z.to_nat (i / 8)) packed Byte.x00)) (i mod 8)
    = bit_at (m_bits bf) i.
Proof.
  intros Hwf Hv. cbv zeta.
  destruct (valid_wf_facts mem bf Hwf Hv) as (Hm & Hlen & _).
  destruct (packed_size_bounds mem (m_num_bits bf) ltac:(lia)) as [Hps Hps'].
  unfold pack_bits.
  destruct (pack_fold (m_bits bf) (Z.to_nat (packed_size (m_num_bits bf)))
              (Z.to_nat (m_num_bits bf)) ltac:(lia)) as [Hl Hb].
  rewrite Z2Nat.id in Hl, Hb by lia.
  split; [rewrite Hl; lia|]. intros i Hi.
  pose proof (Z.div_mod i 8 ltac:(lia)) as Hdm.
  pose proof (Z.mod_pos_bound i 8 ltac:(lia)) as Hmod.
  assert (0 <= i / 8) by (apply Z.div_pos; lia).
  rewrite Hb by lia. rewrite Z2Nat.id by lia.
  replace (8 * (i / 8) + i mod 8) with i by lia.
  destruct (Z.ltb_spec i (m_num_bits bf)); [reflexivity|lia].
Qed.

Lemma deserialize_serialized (mem : Z) (bf bf0 : BloomFilter) :
  0 <= mem < 2 ^ 60 -> wf_filter mem bf -> isValid bf = true ->
  deserialize mem bf0
    (Some (header bf ++ pack_bits bf (packed_size (m_num_bits bf))))
  = (Returned true, bf).
Proof.
  intros Hmem Hwf Hv.
  destruct (valid_wf_facts mem bf Hwf Hv) as (Hm & Hlen & Hk & Hn & Hp).
  destruct (packed_size_bounds mem (m_num_bits bf) ltac:(lia)) as [Hps Hps'].
  destruct (pack_bits_spec mem bf Hwf Hv) as [Hpl Hpb].
  unfold is_uint64, UINT64_MAX, UINT32_MAX in *.
  unfold deserialize, header. rewrite <- !app_assoc.
  rewrite stream_read_enough by (rewrite length_le_split; reflexivity).
  cbn [good negb orb]. rewrite le_roundtrip by (vm_compute; split; congruence).
  rewrite Z.eqb_refl. cbn [negb].
  rewrite stream_read_enough by (rewrite length_le_split; reflexivity).
  cbn [good negb orb]. rewrite le_roundtrip by (vm_compute; split; congruence).
  rewrite Z.eqb_refl. cbn [negb].
  rewrite !stream_read_enough by (rewrite length_le_split; reflexivity).
  cbn [good negb orb m_num_bits m_num_hashes m_estimated_items m_fp_rate m_bits].
  rewrite !le_roundtrip by (cbn; lia).
  destruct (Z.eqb_spec (m_num_bits bf) 0); [lia|].
  destruct (Z.eqb_spec (m_num_hashes bf) 0); [lia|]. cbn [orb].
  rewrite wrap64_small by (unfold UINT64_MAX; lia).
  fold (packed_size (m_num_bits bf)).
  unfold alloc_bytes_ok, alloc_bits_ok.
  destruct (Z.leb_spec (packed_size (m_num_bits bf)) mem); [|lia]. cbn [negb].
  rewrite stream_read_all by lia.
  cbn [good negb orb]. change (has_more (mkIstream [] true)) with false. cbv iota.
  destruct (Z.leb_spec (m_num_bits bf) (8 * mem)); [|lia]. cbn [negb].
  f_equal. destruct bf as [m k n' p bits].
  cbn [m_num_bits m_num_hashes m_estimated_items m_fp_rate m_bits] in *.
  f_equal.
  destruct (unpack_fold (pack_bits (mkBloomFilter m k n' p bits) (packed_size m))
              (resize (Z.to_nat m) false (m_bits bf0)) (Z.to_nat m))
    as [Hul Hub]; [rewrite length_resize; lia|].
  rewrite Z2Nat.id in Hul, Hub by lia. rewrite length_resize in Hul.
  apply list_eq. intros i. rewrite Hub.
  destruct (Nat.ltb_spec i (Z.to_nat m)) as [Hi|Hi].
  - rewrite Hpb by lia. unfold bit_at. rewrite Nat2Z.id.
    destruct (lookup_lt_is_Some_2 bits i ltac:(lia)) as [x Hx].
    rewrite Hx. f_equal. apply nth_lookup_Some with (d := false) in Hx. exact Hx.
  - rewrite lookup_ge_None_2 by (rewrite length_resize; lia).
    symmetry. apply lookup_ge_None_2. lia.
Qed.

Lemma written_fits (room : option nat) (data : list byte) :
  fits room data = true -> written room data = data.
Proof.
  destruct room as [n|]; [|reflexivity]. cbn [fits written]. intros H.
  apply Nat.leb_le in H. apply take_ge. lia.
Qed.

Lemma serialize_accepted (mem : Z) (room : option nat) (bf : BloomFilter) (path : str)
    (files : gmap str (list byte)) :
  0 <= mem < 2 ^ 60 -> wf_filter mem bf -> isValid bf = true -> path <> [] ->
  serialize mem (Accepts room) bf path files
  = (Returned (fits room (header bf ++ pack_bits bf (packed_size (m_num_bits bf)))),
     <[path := written room
                 (header bf ++ pack_bits bf (packed_size (m_num_bits bf)))]> files).
Proof.
  intros Hmem Hwf Hv Hpath.
  destruct (valid_wf_facts mem bf Hwf Hv) as (Hm & Hlen & _).
  destruct (packed_size_bounds mem (m_num_bits bf) ltac:(lia)) as [Hps Hps'].
  unfold serialize. rewrite Hv. cbn [negb].
  rewrite (bool_decide_eq_false_2 _ Hpath).
  rewrite wrap64_small by (unfold UINT64_MAX; lia).
  fold (packed_size (m_num_bits bf)). unfold alloc_bytes_ok.
  destruct (Z.leb_spec (packed_size (m_num_bits bf)) mem); [|lia]. reflexivity.
Qed.

Lemma serialize_valid (mem : Z) (room : option nat) (bf : BloomFilter) (path : str)
    (files : gmap str (list byte)) :
  0 <= mem < 2 ^ 60 -> wf_filter mem bf -> isValid bf = true -> path <> [] ->
  fits room (header bf ++ pack_bits bf (packed_size (m_num_bits bf))) = true ->
  serialize mem (Accepts room) bf path files
  = (Returned true,
     <[path := header bf ++ pack_bits bf (packed_size (m_num_bits bf))]> files).
Proof.
  intros Hmem Hwf Hv Hpath Hfit.
  rewrite serialize_accepted by assumption.
  rewrite Hfit, written_fits by exact Hfit. reflexivity.
Qed.

Lemma serialize_returns_true (mem : Z) (out : sink) (bf : BloomFilter) (path : str)
    (files files' : gmap str (list byte)) :
  serialize mem out bf path files = (Returned true, files') ->
  isValid bf = true /\ path <> [] /\
  files' = <[path := header bf ++ pack_bits bf (wrap64 (m_num_bits bf + 7) / 8)]> files.
Proof.
  unfold serialize. destruct (isValid bf); cbn [negb]; [|discriminate].
  case_bool_decide; [discriminate|]. destruct out as [|room]; [discriminate|].
  destruct (negb (alloc_bytes_ok mem _)); [discriminate|].
  intros [= Hfit <-]. split; [reflexivity|]. split; [assumption|].
  rewrite written_fits by exact Hfit. reflexivity.
Qed.

Lemma open_in_insert (files : gmap str (list byte)) (path : str) (content : list byte) :
  path <> [] -> open_in (<[path := content]> files) path = Some content.
Proof.
  intros Hp. unfold open_in. rewrite (bool_decide_eq_false_2 _ Hp).
  apply lookup_insert_eq.
Qed.

(** The position [generate_hashes] computes, [(h1 + i * h2) % m_num_bits]
    on [uint64_t] operands, written out. *)
Lemma probe_formula (h1 h2 m i : Z) :
  probe h1 h2 m i = ((h1 + i * h2) mod 2 ^ 64) mod m.
Proof. unfold probe, wrap64. rewrite Z.add_mod_idemp_r by lia. reflexivity. Qed.

(** Claim C4, as amended.  On a valid filter, [insert] followed by
    [contains] of the same item returns [true]: [insert] sets the [k]
    positions [((h1 + i * h2) mod 2^64) mod m], [i < k], the sum and the
    product being taken in 64-bit unsigned arithmetic, and [contains]
    returns [true] exactly when those positions, with [h1] and [h2]
    computed in the same way, are all set. *)
Theorem insert_then_contains (mem : Z) (bf : BloomFilter) (item : str) :
  0 <= mem < 2 ^ 60 -> reachable mem bf -> isValid bf = true ->
  let h1 := hash1 item in
  let h2 := hash2 h1 in
  contains (insert bf item) item = true /\
  (forall i, 0 <= i < m_num_hashes bf ->
     bit_at (m_bits (insert bf item))
            (((h1 + i * h2) mod 2 ^ 64) mod m_num_bits bf) = true) /\
  (forall (f : BloomFilter) (s : str), isValid f = true ->
     (contains f s = true <->
      forall i, 0 <= i < m_num_hashes f ->
        bit_at (m_bits f)
               (((hash1 s + i * hash2 (hash1 s)) mod 2 ^ 64) mod m_num_bits f)
        = true)).
Proof.
  intros Hmem Hreach Hv. cbv zeta.
  pose proof (reachable_wf mem bf Hmem Hreach) as Hwf.
  destruct (valid_wf_facts mem bf Hwf Hv) as (Hm & Hlen & Hk & _).
  assert (Hset : forall i, 0 <= i < m_num_hashes bf ->
     bit_at (m_bits (insert bf item))
            (probe (hash1 item) (hash2 (hash1 item)) (m_num_bits bf) i) = true).
  { intros i Hi. unfold insert. rewrite Hv. cbn [negb m_bits].
    apply set_bits_sets.
    - apply generate_hashes_spec. exists i. split; [exact Hi|reflexivity].
    - pose proof (probe_range (hash1 item) (hash2 (hash1 item)) (m_num_bits bf) i
                    ltac:(lia)). lia. }
  assert (Hiff : forall (f : BloomFilter) (s : str), isValid f = true ->
     (contains f s = true <->
      forall i, 0 <= i < m_num_hashes f ->
        bit_at (m_bits f) (probe (hash1 s) (hash2 (hash1 s)) (m_num_bits f) i) = true)).
  { intros f s Hf. unfold contains. rewrite Hf. cbn [negb].
    rewrite all_set_spec. split.
    - intros H i Hi. apply H. apply generate_hashes_spec. exists i. split; [exact Hi|reflexivity].
    - intros H h Hh. apply generate_hashes_spec in Hh as (i & Hi & ->). apply H, Hi. }
  split; [|split].
  - apply Hiff; [rewrite insert_isValid; exact Hv|].
    assert (E1 : m_num_hashes (insert bf item) = m_num_hashes bf)
      by (unfold insert; rewrite Hv; reflexivity).
    assert (E2 : m_num_bits (insert bf item) = m_num_bits bf)
      by (unfold insert; rewrite Hv; reflexivity).
    rewrite E1, E2. exact Hset.
  - intros i Hi. rewrite <- probe_formula. apply Hset, Hi.
  - intros f s Hf. rewrite (Hiff f s Hf).
    split; intros H i Hi; [rewrite <- probe_formula|rewrite probe_formula];
      apply H, Hi.
Qed.

(** Without the wrap-around the claim fails: on the 58-bit filter the
    third position of "ab" by the formula over the integers is not set by
    [insert]. *)
Lemma insert_then_contains_unwrapped :
  ~ (forall i, 0 <= i < m_num_hashes wide_filter ->
       bit_at (m_bits (insert wide_filter (lit "ab")))
              ((hash1 (lit "ab") + i * hash2 (hash1 (lit "ab")))
               mod m_num_bits wide_filter) = true).
Proof.
  intros H. specialize (H 2 ltac:(cbn; lia)). vm_compute in H. discriminate H.
Qed.

(** Claim C10.  On a filter whose [isValid()] is false, [contains] returns
    [false] and [insert] leaves the state unchanged. *)
Theorem invalid_filter_inert (bf : BloomFilter) (item : str) :
  isValid bf = false -> contains bf item = false /\ insert bf item = bf.
Proof.
  intros Hv. unfold contains, insert. rewrite Hv. split; reflexivity.
Qed.

Lemma header_length (bf : BloomFilter) : length (header bf) = 34%nat.
Proof. unfold header. rewrite !length_app, !length_le_split. reflexivity. Qed.

(** Claim C5.  When the file can be opened and takes every byte,
    serializing a valid filter returns [true]; and whenever [serialize]
    returns [true], deserializing the file it wrote into a fresh filter
    succeeds and gives back the same state (bit vector, [m], [k], [n],
    [p]): the file is the little-endian magic, version, [m], [k], [n], [p],
    then [ceil (m / 8)] bytes holding bit [i] at byte [i / 8] under the
    mask [1 << (i % 8)]. *)
Theorem serialize_deserialize_roundtrip (mem : Z) (bf : BloomFilter) (path : str)
    (files : gmap str (list byte)) :
  0 <= mem < 2 ^ 60 -> reachable mem bf -> isValid bf = true ->
  (forall room : option nat,
     path <> [] ->
     (forall n, room = Some n -> 34 + (m_num_bits bf + 7) / 8 <= Z.of_nat n) ->
     exists files' : gmap str (list byte),
       serialize mem (Accepts room) bf path files = (Returned true, files')) /\
  (forall (out : sink) (files' : gmap str (list byte)),
     serialize mem out bf path files = (Returned true, files') ->
     exists packed : list byte,
       open_in files' path =
         Some (le_split 4 0xBF10F17E ++ le_split 2 1 ++
               le_split 8 (m_num_bits bf) ++ le_split 4 (m_num_hashes bf) ++
               le_split 8 (m_estimated_items bf) ++ le_split 8 (m_fp_rate bf) ++
               packed) /\
       Z.of_nat (length packed) = (m_num_bits bf + 7) / 8 /\
       (forall i, 0 <= i < m_num_bits bf ->
          Z.testbit (byte.unsigned (nth (Z.to_nat (i / 8)) packed Byte.x00)) (i mod 8)
          = bit_at (m_bits bf) i) /\
       forall fresh : BloomFilter,
         deserialize mem fresh (open_in files' path) = (Returned true, bf)).
Proof.
  intros Hmem Hreach Hv.
  pose proof (reachable_wf mem bf Hmem Hreach) as Hwf.
  destruct (pack_bits_spec mem bf Hwf Hv) as [Hl Hb]. cbv zeta in Hl, Hb.
  destruct (valid_wf_facts mem bf Hwf Hv) as (Hm & Hlen & _).
  split.
  - intros room Hpath Hroom. eexists. apply serialize_valid; try assumption.
    destruct room as [n|]; [|reflexivity]. cbn [fits]. apply Nat.leb_le.
    rewrite length_app, header_length. specialize (Hroom n eq_refl).
    assert (Hp : packed_size (m_num_bits bf) = (m_num_bits bf + 7) / 8) by reflexivity.
    lia.
  - intros out files' Hs.
    destruct (serialize_returns_true mem out bf path files files' Hs)
      as (_ & Hpath & ->).
    rewrite wrap64_small by (unfold UINT64_MAX; lia).
    fold (packed_size (m_num_bits bf)).
    exists (pack_bits bf (packed_size (m_num_bits bf))).
    rewrite open_in_insert by exact Hpath.
    split; [unfold header; rewrite <- !app_assoc; reflexivity|].
    split; [exact Hl|]. split; [exact Hb|].
    intros fresh. apply deserialize_serialized; assumption.
Qed.

Lemma constructed_ranges (mem : Z) (bf : BloomFilter) :
  0 <= mem < 2 ^ 60 -> constructed mem bf ->
  wf_filter mem bf /\ isValid bf = true /\
  8 <= m_num_bits bf /\ 1 <= m_num_hashes bf <= 20.
Proof.
  intros Hmem.
  induction 1 as [n p fl bf Hn Hp Hm Hk Hc|bf item _ IH
                  |bf bf0 bf' out path files files' _ IH Hs Hd].
  - exact (construct_wf mem n p fl bf Hn Hp Hm Hk Hc).
  - destruct IH as (Hwf & Hv & Hr). split; [apply insert_wf, Hwf|].
    split; [rewrite insert_isValid; exact Hv|].
    unfold insert. rewrite Hv. exact Hr.
  - destruct IH as (Hwf & Hv & Hr).
    destruct (serialize_returns_true _ _ _ _ _ _ Hs) as (_ & Hpath & ->).
    destruct (valid_wf_facts mem bf Hwf Hv) as (Hm & _).
    rewrite wrap64_small in Hd by (unfold UINT64_MAX; lia).
    fold (packed_size (m_num_bits bf)) in Hd.
    rewrite open_in_insert in Hd by exact Hpath.
    rewrite (deserialize_serialized mem bf bf0 Hmem Hwf Hv) in Hd.
    apply (f_equal snd) in Hd. cbn [snd] in Hd. subst bf'. auto.
Qed.

(** Claim C7, as amended.  A state obtained by construction from [(n, p)],
    by insertion, or by loading a file that [serialize] wrote from such a
    state is valid with [m >= 8] and [1 <= k <= 20].  A file that
    [deserialize] accepts starts with the magic and the version, announces
    [m >= 1] and [k >= 1], and holds exactly [ceil (m / 8)] further bytes;
    the state it yields is valid. *)
Theorem filter_parameter_ranges (mem : Z) (bf : BloomFilter) :
  0 <= mem < 2 ^ 60 ->
  (constructed mem bf -> isValid bf = true /\
     8 <= m_num_bits bf /\ 1 <= m_num_hashes bf <= 20) /\
  (forall (bf0 : BloomFilter) (content : list byte),
     deserialize mem bf0 (Some content) = (Returned true, bf) ->
     isValid bf = true /\ 1 <= m_num_bits bf /\ 1 <= m_num_hashes bf /\
     exists packed : list byte,
       content = le_split 4 0xBF10F17E ++ le_split 2 1 ++
                 le_split 8 (m_num_bits bf) ++ le_split 4 (m_num_hashes bf) ++
                 le_split 8 (m_estimated_items bf) ++ le_split 8 (m_fp_rate bf) ++
                 packed /\
       Z.of_nat (length packed) = (m_num_bits bf + 7) / 8).
Proof.
  intros Hmem. split.
  - intros Hc. apply (constructed_ranges mem bf Hmem Hc).
  - intros bf0 content Hd.
    destruct (deserialize_accepts mem bf0 bf content Hmem Hd)
      as (packed & Hcontent & Hpl & Hm & Hk & _ & _ & Hlen & _).
    split.
    + apply isValid_spec. split; [|lia]. intros E. rewrite E in Hlen. cbn in Hlen. lia.
    + split; [lia|]. split; [lia|]. exists packed. split; [|exact Hpl].
      rewrite Hcontent. unfold header. rewrite <- !app_assoc. reflexivity.
Qed.


(** [deserialize] accepts a file that announces one bit and twenty-one
    hashes. *)
Lemma deserialize_accepts_out_of_range :
  let r := deserialize 1024 default_filter (Some tiny_file) in
  fst r = Returned true /\ isValid (snd r) = true /\
  m_num_bits (snd r) = 1 /\ m_num_hashes (snd r) = 21.
Proof. vm_compute. repeat split; reflexivity. Qed.

(** ** Worker dispatcher *)

Lemma items_per_thread_ceil (N T : Z) :
  1 <= N -> 1 <= T -> N + T - 1 <= UINT64_MAX ->
  let c := items_per_thread N T in
  1 <= c /\ N <= T * c /\ T * c <= N + T - 1.
Proof.
  intros HN HT Hfit. cbv zeta. unfold items_per_thread.
  rewrite wrap64_small by lia.
  pose proof (Z.div_mod (N + T - 1) T ltac:(lia)) as Hdm.
  pose proof (Z.mod_pos_bound (N + T - 1) T ltac:(lia)) as Hmod.
  assert (1 <= (N + T - 1) / T) by (apply Z.div_le_lower_bound; lia).
  destruct (Z.eqb_spec ((N + T - 1) / T) 0); lia.
Qed.

(** The spawn loop, without a stop, hands out the consecutive windows of
    width [c] that start below [N]. *)
Lemma spawn_loop_lookup (check_stop : Z -> bool) (c N : Z) (fuel : nat) :
  (forall t, check_stop t = false) -> 1 <= c -> 1 <= N ->
  forall (t : Z) (a : nat) (x : Z * Z),
  0 <= t -> (t + Z.of_nat fuel) * c <= UINT64_MAX ->
  (spawn_loop fuel t check_stop c N !! a = Some x <->
   (a < fuel)%nat /\ (t + Z.of_nat a) * c < N /\
   x = ((t + Z.of_nat a) * c, Z.min ((t + Z.of_nat a + 1) * c) N)).
Proof.
  intros Hstop Hc HN. induction fuel as [|fuel IH]; intros t a x Ht Hfit.
  - cbn [spawn_loop]. rewrite lookup_nil. split; [discriminate|lia].
  - cbn [spawn_loop]. rewrite Hstop.
    rewrite wrap64_small by nia.
    rewrite wrap64_small by nia.
    destruct (Z.geb_spec (t * c) (Z.min (t * c + c) N)) as [Hge|Hlt].
    + rewrite lookup_nil. split; [discriminate|].
      intros (Ha & Hlo & _). exfalso. nia.
    + destruct a as [|a].
      * cbn [lookup list_lookup]. rewrite Z.add_0_r.
        replace ((t + 1) * c) with (t * c + c) by ring.
        split.
        -- intros [= <-]. split; [lia|]. split; [lia|reflexivity].
        -- intros (_ & _ & ->). reflexivity.
      * change ((?h :: ?l) !! S a) with (l !! a).
        rewrite IH by nia.
        replace (t + 1 + Z.of_nat a) with (t + Z.of_nat (S a)) by lia.
        split; intros (H1 & H2 & H3); (split; [lia|split; [exact H2|exact H3]]).
Qed.


Lemma chunks_partition_no_wrap (check_stop : Z -> bool) (N T : Z) :
  (forall t, check_stop t = false) ->
  1 <= N -> 1 <= T -> N + T - 1 <= UINT64_MAX ->
  let cs := chunks check_stop N T in
  let c := items_per_thread N T in
  (forall (t : nat) (x : Z * Z), cs !! t = Some x ->
     x = (Z.of_nat t * c, Z.min ((Z.of_nat t + 1) * c) N) /\
     0 <= fst x /\ fst x < snd x /\ snd x <= N) /\
  (forall i, covered cs i <-> 0 <= i < N) /\
  (forall (a b : nat) (x y : Z * Z) (i : Z),
     cs !! a = Some x -> cs !! b = Some y -> in_chunk i x -> in_chunk i y -> a = b).
Proof.
  intros Hstop HN HT Hfit. cbv zeta.
  destruct (items_per_thread_ceil N T HN HT Hfit) as (Hc1 & Hc2 & Hc3).
  set (c := items_per_thread N T) in *.
  assert (Hlook : forall (a : nat) (x : Z * Z),
    chunks check_stop N T !! a = Some x <->
    (a < Z.to_nat T)%nat /\ Z.of_nat a * c < N /\
    x = (Z.of_nat a * c, Z.min ((Z.of_nat a + 1) * c) N)).
  { intros a x. unfold chunks. fold c.
    rewrite (spawn_loop_lookup check_stop c N (Z.to_nat T) Hstop Hc1 HN 0 a x
               ltac:(lia) ltac:(nia)).
    rewrite !Z.add_0_l. reflexivity. }
  split; [|split].
  - intros t x Hx. apply Hlook in Hx as (Ht & Hlo & ->). split; [reflexivity|].
    cbn [fst snd]. nia.
  - intros i. split.
    + intros (x & Hin & Hi). apply list_elem_of_In, list_elem_of_lookup in Hin as [a Ha].
      apply Hlook in Ha as (Ha & Hlo & ->). unfold in_chunk in Hi. cbn [fst snd] in Hi. nia.
    + intros Hi. exists ((i / c) * c, Z.min ((i / c + 1) * c) N).
      pose proof (Z.div_mod i c ltac:(lia)) as Hdm.
      pose proof (Z.mod_pos_bound i c ltac:(lia)) as Hmod.
      assert (0 <= i / c) by (apply Z.div_pos; lia).
      assert (i / c < T) by (apply Z.div_lt_upper_bound; nia).
      split.
      * apply list_elem_of_In, list_elem_of_lookup. exists (Z.to_nat (i / c)).
        apply Hlook. rewrite Z2Nat.id by lia. split; [lia|]. split; [nia|reflexivity].
      * unfold in_chunk. cbn [fst snd]. nia.
  - intros a b x y i Ha Hb Hx Hy.
    apply Hlook in Ha as (_ & _ & ->). apply Hlook in Hb as (_ & _ & ->).
    unfold in_chunk in *. cbn [fst snd] in *.
    destruct (Nat.lt_trichotomy a b) as [Hlt|[->|Hgt]]; [exfalso|reflexivity|exfalso]; nia.
Qed.

Lemma power_total_no_wrap (C w N T : Z) :
  1 <= C <= STRING_MAX_SIZE -> 1 <= w ->
  power_loop (Z.to_nat w) C 1 = Some N -> 1 <= T <= UINT32_MAX ->
  N + T - 1 <= UINT64_MAX.
Proof.
  intros HC Hw Hp HT.
  rewrite power_loop_spec in Hp by (unfold UINT64_MAX; lia).
  rewrite Z.mul_1_l in Hp.
  destruct (Z.leb_spec (C ^ Z.of_nat (Z.to_nat w)) UINT64_MAX) as [Hfit|]; [|discriminate].
  injection Hp as <-.
  destruct (Z.eq_dec w 1) as [->|Hne].
  - change (Z.of_nat (Z.to_nat 1)) with 1. rewrite Z.pow_1_r.
    unfold STRING_MAX_SIZE, UINT32_MAX, UINT64_MAX in *. lia.
  - replace (Z.to_nat w) with (S (Z.to_nat (w - 1))) in * by lia.
    pose proof (power_gap C (Z.to_nat (w - 1)) ltac:(lia) ltac:(lia) Hfit). lia.
Qed.

Lemma dispatched_total_no_wrap (charset : str) (N T : Z) :
  charset <> [] -> size charset <= STRING_MAX_SIZE ->
  dispatched_total charset N -> 1 <= T <= UINT32_MAX ->
  N + T - 1 <= UINT64_MAX.
Proof.
  intros Hne Hmax Hd HT. apply size_pos_of_nonempty in Hne.
  destruct Hd as [L N Hc|segments L N Hc|N Hr].
  - unfold calculate_combinations in Hc.
    destruct (Z.leb_spec L 0).
    + injection Hc as <-. unfold UINT32_MAX, UINT64_MAX in *. lia.
    + apply (power_total_no_wrap (size charset) L N T); [lia|lia|exact Hc|exact HT].
  - unfold calculate_pattern_combinations in Hc.
    pose proof (count_qmarks_nonneg segments).
    assert (H01 : forall n, n <= 1 -> n + T - 1 <= UINT64_MAX)
      by (intros; unfold UINT32_MAX, UINT64_MAX in *; lia).
    repeat match type of Hc with
    | (if ?b then _ else _) = _ => destruct b eqn:?
    | Some _ = Some _ => injection Hc as <-
    | None = Some _ => discriminate
    end; try (apply H01; lia).
    + eapply (power_total_no_wrap (size charset) _ N T); [lia| |exact Hc|exact HT]; lia.
    + eapply (power_total_no_wrap (size charset) _ N T); [lia| |exact Hc|exact HT]; lia.
  - unfold MAX_REASONABLE_INDICES_RAM in Hr. change (4 * 1024 * 1024 * 1024 / 8) with 536870912 in Hr.
    unfold UINT32_MAX, UINT64_MAX in *. lia.
Qed.

(** Claim C9.  For a total [N >= 1] of the controller and a thread count
    [T >= 1], when no stop is requested: the chunk size is [ceil (N / T)],
    spawned chunk [t] is the non-empty range
    [[t * c, min ((t + 1) * c) N)], the chunks are pairwise disjoint,
    their union is [[0, N)], and another thread count covers the same
    indices. *)
Theorem chunks_partition (check_stop : Z -> bool) (charset : str) (N T : Z) :
  (forall t, check_stop t = false) ->
  charset <> [] -> size charset <= STRING_MAX_SIZE ->
  dispatched_total charset N -> 1 <= N -> 1 <= T <= UINT32_MAX ->
  let cs := chunks check_stop N T in
  let c := items_per_thread N T in
  (1 <= c /\ N <= T * c /\ T * c <= N + T - 1) /\
  (forall (t : nat) (x : Z * Z), cs !! t = Some x ->
     x = (Z.of_nat t * c, Z.min ((Z.of_nat t + 1) * c) N) /\
     0 <= fst x /\ fst x < snd x /\ snd x <= N) /\
  (forall i, covered cs i <-> 0 <= i < N) /\
  (forall (a b : nat) (x y : Z * Z) (i : Z),
     cs !! a = Some x -> cs !! b = Some y -> in_chunk i x -> in_chunk i y -> a = b) /\
  (forall T', 1 <= T' <= UINT32_MAX ->
     forall i, covered (chunks check_stop N T') i <-> covered cs i).
Proof.
  intros Hstop Hne Hmax Hd HN HT. cbv zeta.
  pose proof (dispatched_total_no_wrap charset N T Hne Hmax Hd HT) as Hfit.
  destruct (chunks_partition_no_wrap check_stop N T Hstop HN ltac:(lia) Hfit)
    as (H1 & H2 & H3).
  split; [apply items_per_thread_ceil; lia|].
  split; [exact H1|]. split; [exact H2|]. split; [exact H3|].
  intros T' HT' i.
  pose proof (dispatched_total_no_wrap charset N T' Hne Hmax Hd HT') as Hfit'.
  destruct (chunks_partition_no_wrap check_stop N T' Hstop HN ltac:(lia) Hfit')
    as (_ & H2' & _).
  rewrite H2, H2'. reflexivity.
Qed.

(** ** Run controller and workers *)

Lemma serialize_call_trace (mem : Z) (disk : nat -> str -> sink) (path : str)
    (w w' : World) (ok : bool) :
  serialize_call mem disk path w = Some (ok, w') ->
  serialize_calls w' = serialize_calls w ++ [path] /\
  skipFilter w' = skipFilter w /\ foundFlag w' = foundFlag w /\
  foundPassword w' = foundPassword w /\ stop_requested w' = stop_requested w.
Proof.
  unfold serialize_call.
  destruct (serialize mem _ (skipFilter w) path (files w)) as [[b|] files'];
    [|discriminate].
  intros [= <- <-]. cbn. repeat split; reflexivity.
Qed.

(** A [serialize] that does not throw, on a stream that opens and takes
    every byte, returns [true] and leaves the whole file. *)
Lemma serialize_on_ample_stream (mem : Z) (bf : BloomFilter) (path : str)
    (files files' : gmap str (list byte)) (ok : bool) :
  isValid bf = true -> path <> [] ->
  serialize mem (Accepts None) bf path files = (Returned ok, files') ->
  ok = true /\
  files' = <[path := header bf ++ pack_bits bf (wrap64 (m_num_bits bf + 7) / 8)]> files.
Proof.
  intros Hv Hpath. unfold serialize. rewrite Hv. cbn [negb].
  rewrite (bool_decide_eq_false_2 _ Hpath).
  destruct (negb (alloc_bytes_ok mem _)); [discriminate|].
  cbn [fits written]. intros [= <- <-]. split; reflexivity.
Qed.

(** Claim C6.  When [brute_force_worker_combined] returns and its search
    raised no exception, with a skip-file path configured: if the filter
    and its mutex are configured, the filter is valid, and [found] or
    [stop_requested] is set, the run ends with exactly one further call of
    [serialize] on the skip file, whose effect on the files is the whole
    difference between the world the search left and the final one (the
    complete filter file when the stream opens and takes every byte);
    otherwise, and so after a clean exhaustion, the final world is the one
    the search left: no call, no file written.  A run refused for its
    arguments changes nothing. *)
Theorem final_save_iff (mem : Z) (disk : nat -> str -> sink) (skipListFilePath : str)
    (filter filterMutex : bool)
    (search : World -> search_end) (charset : str) (min_length max_length : Z)
    (files0 : gmap str (list byte)) (filter0 : BloomFilter)
    (w' : World) (result : str) :
  skipListFilePath <> [] ->
  (forall w, search (mkWorld files0 filter0 false [] false []) <> Raised w) ->
  brute_force_worker_combined mem disk skipListFilePath filter filterMutex search
    charset min_length max_length files0 filter0 = Some (w', result) ->
  (size charset = 0 \/ min_length <= 0 \/ max_length < min_length ->
   w' = mkWorld files0 filter0 false [] false []) /\
  (size charset <> 0 -> 0 < min_length -> min_length <= max_length ->
   exists w : World,
     search (mkWorld files0 filter0 false [] false []) = Completed w /\
     let due := filter = true /\ filterMutex = true /\
                isValid (skipFilter w) = true /\
                (foundFlag w = true \/ stop_requested w = true) in
     (due ->
      exists (ok : bool) (files' : gmap str (list byte)),
        serialize mem (disk (length (serialize_calls w)) skipListFilePath)
                  (skipFilter w) skipListFilePath (files w)
        = (Returned ok, files') /\
        w' = mkWorld files' (skipFilter w) (foundFlag w) (foundPassword w)
                     (stop_requested w) (serialize_calls w ++ [skipListFilePath]) /\
        (disk (length (serialize_calls w)) skipListFilePath = Accepts None ->
         ok = true /\
         files' = <[skipListFilePath :=
                      header (skipFilter w)
                      ++ pack_bits (skipFilter w)
                           (wrap64 (m_num_bits (skipFilter w) + 7) / 8)]> (files w))) /\
     (~ due -> w' = w) /\
     (foundFlag w = false -> stop_requested w = false -> w' = w)).
Proof.
  intros Hpath Hnoraise. unfold brute_force_worker_combined.
  set (w0 := mkWorld files0 filter0 false [] false []).
  destruct (Z.eqb_spec (size charset) 0) as [Hc|Hc]; cbn [orb].
  { intros [= <- _]. split; [reflexivity|]. intros H. contradiction. }
  destruct (Z.leb_spec min_length 0) as [Hmin|Hmin]; cbn [orb].
  { intros [= <- _]. split; [reflexivity|]. intros _ H. lia. }
  destruct (Z.ltb_spec max_length min_length) as [Hmax|Hmax].
  { intros [= <- _]. split; [reflexivity|]. intros _ _ H. lia. }
  destruct (search w0) as [w|w] eqn:Hs; [|exfalso; exact (Hnoraise w Hs)].
  intros Hfin. split; [intros [H|[H|H]]; [contradiction|lia|lia]|].
  intros _ _ _. exists w. split; [reflexivity|]. cbv zeta.
  unfold finalization in Hfin. cbv zeta in Hfin.
  destruct (performFinalSave skipListFilePath filter filterMutex w) eqn:Hp.
  - unfold performFinalSave in Hp.
    rewrite (bool_decide_eq_false_2 _ Hpath) in Hp. cbn [negb] in Hp.
    rewrite andb_true_r, !andb_true_iff, orb_true_iff in Hp.
    destruct Hp as [[[Hf Hm] Hv] Hr].
    unfold serialize_call in Hfin.
    destruct (serialize mem (disk (length (serialize_calls w)) skipListFilePath)
                (skipFilter w) skipListFilePath (files w))
      as [[ok|] files'] eqn:Hser; [|discriminate].
    injection Hfin as <- _.
    split; [|split].
    + intros _. exists ok, files'. split; [reflexivity|]. split; [reflexivity|].
      intros Hd. rewrite Hd in Hser.
      apply (serialize_on_ample_stream mem (skipFilter w) skipListFilePath
               (files w) files' ok Hv Hpath Hser).
    + intros Hnot. exfalso. apply Hnot. tauto.
    + intros H1 H2. rewrite H1, H2 in Hr. destruct Hr; discriminate.
  - injection Hfin as <- _.
    split; [|split; [reflexivity|reflexivity]].
    intros (Hf & Hm & Hv & Hr). exfalso. unfold performFinalSave in Hp.
    rewrite Hf, Hm, Hv, (bool_decide_eq_false_2 _ Hpath) in Hp. cbn in Hp.
    destruct Hr as [Hr|Hr]; rewrite Hr in Hp; [|rewrite orb_true_r in Hp];
      discriminate.
Qed.

(** A step that hands back the world, possibly with a flag set, keeps the
    files and the trace of serialize calls. *)
Ltac same_trace :=
  intros [= <-]; unfold claim_found;
  repeat match goal with
         | |- context [if ?b then _ else _] => destruct b
         end;
  split; reflexivity.

(** A step that goes on with the loop keeps them by induction. *)
Ltac by_loop IH := let H := fresh in intros H; apply IH in H; exact H.

(** The sequential worker leaves the files and the trace of serialize
    calls as it found them. *)
Lemma sequential_worker_never_serializes (tryPassword : str -> bool)
    (filter filterMutex : bool) (stop_flag_path : str) (fuel : nat) :
  forall (len idx end_idx : Z) (charset : str) (w w' : World),
  sequential_loop tryPassword filter filterMutex stop_flag_path fuel len idx end_idx
                  charset w = Some w' ->
  serialize_calls w' = serialize_calls w /\ files w' = files w.
Proof.
  induction fuel as [|fuel IH]; intros len idx end_idx charset w w'; cbn [sequential_loop].
  - same_trace.
  - destruct (negb (idx <? end_idx) || foundFlag w || stop_requested w);
      [same_trace|].
    destruct ((idx mod 1000 =? 0) && negb (bool_decide (stop_flag_path = []))
              && stop_flag_exists w stop_flag_path);
      [same_trace|].
    unfold test_candidate.
    destruct (negb (filter && contains (skipFilter w) (password_of_local charset len idx))).
    + destruct (tryPassword (password_of_local charset len idx)).
      * same_trace.
      * destruct (filter && filterMutex); by_loop IH.
    + by_loop IH.
Qed.

(** The shuffled-index worker leaves the files and the trace of serialize
    calls as it found them. *)
Lemma shuffled_index_worker_never_serializes (tryPassword : str -> bool)
    (filter filterMutex : bool) (stop_flag_path : str) (fuel : nat) :
  forall (vec_idx end_vector_idx : Z) (shuffled_indices : list Z)
         (global_index_offset : Z) (charset : str) (max_length : Z) (w w' : World),
  shuffled_index_loop tryPassword filter filterMutex stop_flag_path fuel
    vec_idx end_vector_idx shuffled_indices global_index_offset charset
    max_length w = Some w' ->
  serialize_calls w' = serialize_calls w /\ files w' = files w.
Proof.
  induction fuel as [|fuel IH];
    intros vec_idx end_vector_idx shuffled_indices global_index_offset charset
           max_length w w'; cbn [shuffled_index_loop].
  - same_trace.
  - destruct (negb (vec_idx <? end_vector_idx) || foundFlag w || stop_requested w);
      [same_trace|].
    destruct ((vec_idx mod 1000 =? 0) && negb (bool_decide (stop_flag_path = []))
              && stop_flag_exists w stop_flag_path);
      [same_trace|].
    destruct (getPasswordByIndex _ charset max_length) as [pwd|];
      [|by_loop IH].
    unfold test_candidate.
    destruct (negb (filter && contains (skipFilter w) pwd)).
    + destruct (tryPassword pwd).
      * same_trace.
      * destruct (filter && filterMutex); by_loop IH.
    + by_loop IH.
Qed.

(** Claim C8 fails on the pattern workers.  [pattern_index_worker], started
    at index 0 with a filter and its mutex while the stop flag file
    exists, calls [serialize] on the skip file before it sets
    [stop_requested]. *)
Theorem pattern_worker_serializes_on_stop :
  exists w' : World,
    pattern_index_worker 1024 ample_disk (fun _ => false) (lit "s") true true (lit "s.stop")
      0 2 (parse_pattern (lit "a?")) (lit "xy") 2 stopped_world = Some w' /\
    serialize_calls w' = [lit "s"] /\ stop_requested w' = true /\
    open_in (files w') (lit "s")
    = Some (header small_filter ++ pack_bits small_filter 1).
Proof.
  eexists. split; [vm_compute; reflexivity|].
  split; [reflexivity|]. split; reflexivity.
Qed.

(** [shuffled_pattern_worker] does the same. *)
Lemma shuffled_pattern_worker_serializes_on_stop :
  exists w' : World,
    shuffled_pattern_worker 1024 ample_disk (fun _ => false) (lit "s") true true (lit "s.stop")
      0 2 [1; 0] (parse_pattern (lit "a?")) (lit "xy") 2 2 {[ 2 := 2 ]}
      stopped_world = Some w' /\
    serialize_calls w' = [lit "s"] /\ stop_requested w' = true.
Proof.
  eexists. split; [vm_compute; reflexivity|]. split; reflexivity.
Qed.

(** On the same input the sequential worker only sets the flag. *)
Lemma sequential_worker_only_stops :
  sequential_password_worker (fun _ => false) true true (lit "s.stop")
    2 0 4 (lit "xy") stopped_world = Some (set_stop stopped_world).
Proof. vm_compute. reflexivity. Qed.

(** ** Instances of the theorems on concrete inputs *)

Lemma small_filter_reachable : reachable 1024 small_filter.
Proof.
  apply (reach_construct 1024 0 0 (mkSizing false 0 0));
    first [reflexivity | split; vm_compute; discriminate].
Qed.

Lemma wide_filter_reachable : reachable 1024 wide_filter.
Proof.
  apply (reach_construct 1024 6 0x3F847AE147AE147B (mkSizing true 58 7));
    try (unfold is_uint64, is_uint32, UINT64_MAX, UINT32_MAX; cbn; lia).
  reflexivity.
Qed.

Lemma used_filter_reachable : reachable 1024 used_filter.
Proof. apply reach_insert, wide_filter_reachable. Qed.

Lemma insert_then_contains_witness :
  contains (insert wide_filter (lit "ab")) (lit "ab") = true /\
  (forall i, 0 <= i < m_num_hashes wide_filter ->
     bit_at (m_bits (insert wide_filter (lit "ab")))
            (((hash1 (lit "ab") + i * hash2 (hash1 (lit "ab"))) mod 2 ^ 64)
             mod m_num_bits wide_filter) = true).
Proof.
  destruct (insert_then_contains 1024 wide_filter (lit "ab") ltac:(lia)
              wide_filter_reachable eq_refl) as (H1 & H2 & _).
  split; [exact H1|exact H2].
Defined.

Lemma invalid_filter_inert_witness :
  contains default_filter (lit "a") = false /\
  insert default_filter (lit "a") = default_filter.
Proof. apply (invalid_filter_inert default_filter (lit "a")). reflexivity. Defined.

Lemma serialize_deserialize_roundtrip_witness :
  (forall room : option nat,
     lit "s" <> [] ->
     (forall n, room = Some n -> 34 + (m_num_bits used_filter + 7) / 8 <= Z.of_nat n) ->
     exists files' : gmap str (list byte),
       serialize 1024 (Accepts room) used_filter (lit "s") ∅ = (Returned true, files')) /\
  (forall (out : sink) (files' : gmap str (list byte)),
     serialize 1024 out used_filter (lit "s") ∅ = (Returned true, files') ->
     exists packed : list byte,
       open_in files' (lit "s") =
         Some (le_split 4 0xBF10F17E ++ le_split 2 1 ++
               le_split 8 (m_num_bits used_filter) ++
               le_split 4 (m_num_hashes used_filter) ++
               le_split 8 (m_estimated_items used_filter) ++
               le_split 8 (m_fp_rate used_filter) ++ packed) /\
       Z.of_nat (length packed) = (m_num_bits used_filter + 7) / 8 /\
       (forall i, 0 <= i < m_num_bits used_filter ->
          Z.testbit (byte.unsigned (nth (Z.to_nat (i / 8)) packed Byte.x00)) (i mod 8)
          = bit_at (m_bits used_filter) i) /\
       forall fresh : BloomFilter,
         deserialize 1024 fresh (open_in files' (lit "s")) = (Returned true, used_filter)).
Proof.
  apply (serialize_deserialize_roundtrip 1024 used_filter (lit "s") ∅).
  - lia.
  - exact used_filter_reachable.
  - reflexivity.
Defined.

Lemma filter_parameter_ranges_witness :
  isValid small_filter = true /\
  8 <= m_num_bits small_filter /\ 1 <= m_num_hashes small_filter <= 20.
Proof.
  apply (proj1 (filter_parameter_ranges 1024 small_filter ltac:(lia))).
  apply (built_new 1024 0 0 (mkSizing false 0 0));
    first [reflexivity | split; vm_compute; discriminate].
Defined.

Lemma chunks_partition_witness :
  covered (chunks (fun _ => false) 4 3) 2 <-> 0 <= 2 < 4.
Proof.
  assert (H := chunks_partition (fun _ => false) (lit "ab") 4 3).
  destruct H as (_ & _ & H & _).
  - reflexivity.
  - discriminate.
  - vm_compute; discriminate.
  - apply (total_plain (lit "ab") 2 4). reflexivity.
  - lia.
  - split; vm_compute; discriminate.
  - exact (H 2).
Defined.

(** A run, stopped at once by its search, that ends with the final save. *)
Lemma final_save_iff_witness :
  (size (lit "ab") = 0 \/ 1 <= 0 \/ 1 < 1 ->
   saved_world = mkWorld ∅ small_filter false [] false []) /\
  (size (lit "ab") <> 0 -> 0 < 1 -> 1 <= 1 ->
   exists w : World,
     Completed (set_stop (mkWorld ∅ small_filter false [] false [])) = Completed w /\
     ((true = true /\ true = true /\ isValid (skipFilter w) = true /\
       (foundFlag w = true \/ stop_requested w = true)) ->
      exists (ok : bool) (files' : gmap str (list byte)),
        serialize 1024 (ample_disk (length (serialize_calls w)) (lit "s"))
                  (skipFilter w) (lit "s") (files w)
        = (Returned ok, files') /\
        saved_world
        = mkWorld files' (skipFilter w) (foundFlag w) (foundPassword w)
                  (stop_requested w) (serialize_calls w ++ [lit "s"]) /\
        (ample_disk (length (serialize_calls w)) (lit "s") = Accepts None ->
         ok = true /\
         files' = <[lit "s" :=
                      header (skipFilter w)
                      ++ pack_bits (skipFilter w)
                           (wrap64 (m_num_bits (skipFilter w) + 7) / 8)]> (files w))) /\
     (~ (true = true /\ true = true /\ isValid (skipFilter w) = true /\
         (foundFlag w = true \/ stop_requested w = true)) ->
      saved_world = w) /\
     (foundFlag w = false -> stop_requested w = false -> saved_world = w)).
Proof.
  apply (final_save_iff 1024 ample_disk (lit "s") true true
           (fun w => Completed (set_stop w))
           (lit "ab") 1 1 ∅ small_filter saved_world []).
  - discriminate.
  - intros w. discriminate.
  - reflexivity.
Defined.

(** ** Probabilistic filter: how the operations compose *)

Lemma contains_insert_other (bf : BloomFilter) (s t : str) :
  contains bf s = true -> contains (insert bf t) s = true.
Proof.
  unfold contains. destruct (isValid bf) eqn:Hv; cbn [negb]; [|discriminate].
  rewrite insert_isValid, Hv. cbn [negb]. rewrite insert_generate_hashes.
  rewrite !all_set_spec. intros H h Hh.
  unfold insert. rewrite Hv. cbn [negb m_bits]. apply set_bits_keeps, H, Hh.
Qed.

Lemma contains_insert_same (mem : Z) (bf : BloomFilter) (s : str) :
  wf_filter mem bf -> isValid bf = true -> contains (insert bf s) s = true.
Proof.
  intros Hwf Hv. destruct (valid_wf_facts mem bf Hwf Hv) as (Hm & Hlen & _).
  unfold contains. rewrite insert_isValid, Hv. cbn [negb].
  rewrite insert_generate_hashes, all_set_spec. intros h Hh.
  unfold insert. rewrite Hv. cbn [negb m_bits].
  apply set_bits_sets; [exact Hh|].
  apply generate_hashes_spec in Hh as (i & _ & ->).
  pose proof (probe_range (hash1 s) (hash2 (hash1 s)) (m_num_bits bf) i ltac:(lia)). lia.
Qed.

Lemma contains_inserts (items : list str) (bf : BloomFilter) (s : str) :
  contains bf s = true -> contains (fold_left insert items bf) s = true.
Proof.
  revert bf. induction items as [|t rest IH]; intros bf H; cbn [fold_left]; [exact H|].
  apply IH, contains_insert_other, H.
Qed.

(** Property X1.  An item stays reported after any further insertions, and every item of
    a sequence of insertions into a valid filter is reported at its end. *)
Theorem no_false_negatives (mem : Z) (bf : BloomFilter) (items : list str) (s : str) :
  0 <= mem < 2 ^ 60 -> reachable mem bf -> isValid bf = true ->
  (contains bf s = true -> contains (fold_left insert items bf) s = true) /\
  (In s items -> contains (fold_left insert items bf) s = true).
Proof.
  intros Hmem Hreach Hv. split; [apply contains_inserts|].
  pose proof (reachable_wf mem bf Hmem Hreach) as Hwf. clear Hreach.
  revert bf Hv Hwf. induction items as [|t rest IH]; intros bf Hv Hwf Hin; [destruct Hin|].
  cbn [fold_left]. destruct (decide (t = s)) as [->|Hne].
  - apply contains_inserts. apply (contains_insert_same mem); assumption.
  - destruct Hin as [E|Hin]; [congruence|].
    apply IH; [rewrite insert_isValid; exact Hv|apply insert_wf, Hwf|exact Hin].
Qed.

(** What [set_bits] leaves at each position. *)
Lemma set_bits_lookup (hashes : list Z) (bits : list bool) (i : nat) :
  set_bits bits hashes !! i
  = (fun b => b || existsb (fun h => (Z.to_nat h =? i)%nat) hashes) <$> bits !! i.
Proof.
  unfold set_bits. revert bits.
  induction hashes as [|h rest IH]; intros bits; cbn [fold_left existsb].
  - destruct (bits !! i); cbn; [rewrite orb_false_r|]; reflexivity.
  - rewrite IH. destruct (Nat.eqb_spec (Z.to_nat h) i) as [E|E].
    + subst i. destruct (bits !! Z.to_nat h) eqn:Hb.
      * rewrite list_lookup_insert_eq by (apply lookup_lt_Some in Hb; exact Hb).
        cbn. rewrite orb_true_r. reflexivity.
      * rewrite list_insert_ge by (apply lookup_ge_None in Hb; exact Hb).
        rewrite Hb. reflexivity.
    + rewrite list_lookup_insert_ne by exact E. reflexivity.
Qed.

Lemma set_bits_comm (h1 h2 : list Z) (bits : list bool) :
  set_bits (set_bits bits h1) h2 = set_bits (set_bits bits h2) h1.
Proof.
  apply list_eq. intros i. rewrite !set_bits_lookup.
  destruct (bits !! i) as [b|]; cbn; [|reflexivity].
  f_equal. destruct b, (existsb _ h1), (existsb _ h2); reflexivity.
Qed.

Lemma set_bits_idem (h : list Z) (bits : list bool) :
  set_bits (set_bits bits h) h = set_bits bits h.
Proof.
  apply list_eq. intros i. rewrite !set_bits_lookup.
  destruct (bits !! i) as [b|]; cbn; [|reflexivity].
  f_equal. destruct b, (existsb _ h); reflexivity.
Qed.

(** Property X2.  Inserting an item twice is inserting it once, and the order of two
    insertions does not matter. *)
Theorem insert_idempotent_commutative (mem : Z) (bf : BloomFilter) (a b : str) :
  0 <= mem < 2 ^ 60 -> reachable mem bf ->
  insert (insert bf a) a = insert bf a /\
  insert (insert bf a) b = insert (insert bf b) a.
Proof.
  intros _ _. split.
  - unfold insert at 1. rewrite insert_isValid, insert_generate_hashes.
    unfold insert. destruct (isValid bf); cbn [negb]; [|reflexivity].
    cbn [m_num_bits m_num_hashes m_estimated_items m_fp_rate m_bits].
    rewrite set_bits_idem. reflexivity.
  - unfold insert at 1 3. rewrite !insert_isValid, !insert_generate_hashes.
    unfold insert. destruct (isValid bf); cbn [negb]; [|reflexivity].
    cbn [m_num_bits m_num_hashes m_estimated_items m_fp_rate m_bits].
    rewrite set_bits_comm. reflexivity.
Qed.

Lemma bit_at_replicate_false (n : nat) (i : Z) : bit_at (replicate n false) i = false.
Proof.
  unfold bit_at. rewrite nth_lookup.
  destruct (replicate n false !! Z.to_nat i) eqn:E; [|reflexivity].
  apply lookup_replicate in E as [-> _]. reflexivity.
Qed.

Lemma all_set_fresh (n : nat) (hashes : list Z) :
  hashes <> [] -> all_set (replicate n false) hashes = false.
Proof.
  destruct hashes as [|h rest]; [congruence|]. intros _.
  cbn [all_set]. rewrite bit_at_replicate_false. reflexivity.
Qed.

Lemma generate_hashes_length (bf : BloomFilter) (item : str) :
  length (generate_hashes bf item) = Z.to_nat (m_num_hashes bf).
Proof. unfold generate_hashes. cbv zeta. rewrite length_map, length_seqZ. reflexivity. Qed.

(** Property X3.  A filter that has just been constructed reports no item. *)
Theorem fresh_filter_reports_nothing (mem n p : Z) (fl : sizing) (bf : BloomFilter)
    (s : str) :
  construct mem n p fl = Some bf -> contains bf s = false.
Proof.
  intros Hc. unfold contains. destruct (isValid bf) eqn:Hv; cbn [negb]; [|reflexivity].
  assert (Hk : 0 < m_num_hashes bf) by (apply isValid_spec in Hv; tauto).
  assert (Hb : exists k, m_bits bf = replicate k false).
  { unfold construct in Hc.
    destruct ((n =? 0) || negb (p_in_range fl)).
    - destruct (alloc_bits_ok mem 8); [|discriminate]. injection Hc as <-.
      exists 8%nat. reflexivity.
    - match type of Hc with
      | (if ?c then _ else _) = _ => destruct c; [|discriminate]
      end.
      injection Hc as <-. eexists. cbn [m_bits]. apply resize_false_nil. }
  destruct Hb as [k ->]. apply all_set_fresh.
  intros E. apply (f_equal length) in E. rewrite generate_hashes_length in E.
  cbn in E. lia.
Qed.

Lemma fresh_filter_reports_nothing_witness :
  contains small_filter (lit "ab") = false.
Proof.
  apply (fresh_filter_reports_nothing 1024 0 0 (mkSizing false 0 0)). reflexivity.
Defined.

(** ** Probabilistic filter: the file and the other files *)



(** ** Probabilistic filter: rejected and accepted files *)

Lemma le_combine_take_split (n : nat) (v : list byte) (x : Z) :
  length v = n -> le_combine v = x -> v = le_split n x.
Proof. intros <- <-. symmetry. apply split_le_combine. Qed.

(** Property X5.  A missing file, or a file that does not start with the magic number
    and the version, is refused and the filter is left as it was. *)
Theorem wrong_magic_or_version_rejected (mem : Z) (bf0 : BloomFilter)
    (content : list byte) :
  ~ (le_split 4 BLOOM_FILTER_MAGIC ++ le_split 2 BLOOM_FILTER_VERSION) `prefix_of` content ->
  deserialize mem bf0 (Some content) = (Returned false, bf0) /\
  deserialize mem bf0 None = (Returned false, bf0).
Proof.
  intros Hnp. split; [|reflexivity]. unfold deserialize.
  destruct (stream_read (mkIstream content true) 4 (le_split 4 0)) as [s1 magic] eqn:R1.
  destruct (good s1) eqn:G1; cbn [negb orb]; [|reflexivity].
  destruct (stream_read_good _ _ _ _ _ R1 G1 ltac:(lia)) as (_ & U1 & L1).
  cbn [unread] in U1.
  destruct (Z.eqb_spec (le_combine magic) BLOOM_FILTER_MAGIC) as [M|M]; cbn [negb];
    [|reflexivity].
  apply le_combine_take_split with (n := 4%nat) in M; [|lia].
  destruct (stream_read s1 2 (le_split 2 0)) as [s2 version] eqn:R2.
  destruct (good s2) eqn:G2; cbn [negb orb]; [|reflexivity].
  destruct (stream_read_good _ _ _ _ _ R2 G2 ltac:(lia)) as (_ & U2 & L2).
  destruct (Z.eqb_spec (le_combine version) BLOOM_FILTER_VERSION) as [V|V]; cbn [negb];
    [|reflexivity].
  apply le_combine_take_split with (n := 2%nat) in V; [|lia].
  exfalso. apply Hnp. exists (unread s2).
  rewrite U1, U2, M, V, <- app_assoc. reflexivity.
Qed.

Lemma wrong_magic_or_version_rejected_witness :
  deserialize 1024 small_filter (Some []) = (Returned false, small_filter) /\
  deserialize 1024 small_filter None = (Returned false, small_filter).
Proof.
  apply (wrong_magic_or_version_rejected 1024 small_filter []).
  intros [k Hk]. discriminate Hk.
Defined.

Lemma header_num_bits (bf bf' : BloomFilter) :
  header bf = header bf' ->
  m_num_bits bf mod 2 ^ 64 = m_num_bits bf' mod 2 ^ 64.
Proof.
  unfold header. intros H.
  apply app_inj_1 in H as [_ H]; [|rewrite !length_le_split; reflexivity].
  apply app_inj_1 in H as [_ H]; [|rewrite !length_le_split; reflexivity].
  apply app_inj_1 in H as [H _]; [|rewrite !length_le_split; reflexivity].
  apply (f_equal le_combine) in H. rewrite !le_combine_split in H. exact H.
Qed.

(** Property X6.  Of the files that extend, or are cut from, a serialized filter, only
    the serialized file itself is accepted. *)
Theorem only_the_whole_file_is_accepted (mem : Z) (bf bf0 bf' : BloomFilter)
    (content : list byte) :
  0 <= mem < 2 ^ 60 -> reachable mem bf -> isValid bf = true ->
  let file := header bf ++ pack_bits bf (packed_size (m_num_bits bf)) in
  content `prefix_of` file \/ file `prefix_of` content ->
  deserialize mem bf0 (Some content) = (Returned true, bf') ->
  content = file.
Proof.
  intros Hmem Hreach Hv file Hrel Hd.
  pose proof (reachable_wf mem bf Hmem Hreach) as Hwf.
  destruct (valid_wf_facts mem bf Hwf Hv) as (Hm & _).
  destruct (pack_bits_spec mem bf Hwf Hv) as [Hpl _].
  destruct (deserialize_accepts mem bf0 bf' content Hmem Hd)
    as (packed & Hc & Hpl' & Hm' & _).
  assert (Hlen : length file = (34 + Z.to_nat (packed_size (m_num_bits bf)))%nat).
  { unfold file. rewrite length_app, header_length. lia. }
  assert (Hlen' : length content = (34 + Z.to_nat (packed_size (m_num_bits bf')))%nat).
  { rewrite Hc, length_app, header_length. lia. }
  assert (Hsame : header bf = header bf' -> m_num_bits bf = m_num_bits bf').
  { intros E. apply header_num_bits in E.
    rewrite !Z.mod_small in E by lia. exact E. }
  destruct Hrel as [[k Hk]|[k Hk]].
  - assert (E : header bf = header bf').
    { unfold file in Hk. rewrite Hc, <- app_assoc in Hk.
      apply app_inj_1 in Hk as [Hk _]; [exact Hk|rewrite !header_length; reflexivity]. }
    apply Hsame in E. apply (f_equal length) in Hk as Hl.
    rewrite length_app, Hlen, Hlen', E in Hl.
    destruct k; [rewrite app_nil_r in Hk; congruence|cbn [length] in Hl; lia].
  - assert (E : header bf = header bf').
    { unfold file in Hk. rewrite Hc, <- app_assoc in Hk.
      apply app_inj_1 in Hk as [Hk _]; [congruence|rewrite !header_length; reflexivity]. }
    apply Hsame in E. apply (f_equal length) in Hk as Hl.
    rewrite length_app, Hlen, Hlen', E in Hl.
    destruct k; [rewrite app_nil_r in Hk; congruence|cbn [length] in Hl; lia].
Qed.

Lemma only_the_whole_file_is_accepted_witness :
  header small_filter ++ pack_bits small_filter 1
  = header small_filter ++ pack_bits small_filter (packed_size (m_num_bits small_filter)).
Proof.
  apply (only_the_whole_file_is_accepted 1024 small_filter default_filter small_filter).
  - lia.
  - exact small_filter_reachable.
  - reflexivity.
  - left. exists []. reflexivity.
  - reflexivity.
Defined.

(** [deserialize] on a file of the right shape, whatever the state it
    starts from. *)
Lemma deserialize_wellformed (mem : Z) (bf0 : BloomFilter) (m k n p : Z)
    (packed : list byte) :
  0 <= mem < 2 ^ 60 -> 1 <= m <= 8 * mem -> 1 <= k <= UINT32_MAX ->
  is_uint64 n -> is_uint64 p -> Z.of_nat (length packed) = packed_size m ->
  deserialize mem bf0 (Some (header (mkBloomFilter m k n p []) ++ packed))
  = (Returned true,
     mkBloomFilter m k n p
       (fold_left (unpack_step packed) (seqZ 0 m)
                  (resize (Z.to_nat m) false (m_bits bf0)))).
Proof.
  intros Hmem Hm Hk Hn Hp Hpl.
  destruct (packed_size_bounds mem m ltac:(lia)) as [Hps Hps'].
  unfold is_uint64, UINT64_MAX, UINT32_MAX in *.
  unfold deserialize, header. rewrite <- !app_assoc.
  cbn [m_num_bits m_num_hashes m_estimated_items m_fp_rate m_bits].
  rewrite stream_read_enough by (rewrite length_le_split; reflexivity).
  cbn [good negb orb]. rewrite le_roundtrip by (vm_compute; split; congruence).
  rewrite Z.eqb_refl. cbn [negb].
  rewrite stream_read_enough by (rewrite length_le_split; reflexivity).
  cbn [good negb orb]. rewrite le_roundtrip by (vm_compute; split; congruence).
  rewrite Z.eqb_refl. cbn [negb].
  rewrite !stream_read_enough by (rewrite length_le_split; reflexivity).
  cbn [good negb orb m_num_bits m_num_hashes m_estimated_items m_fp_rate m_bits].
  rewrite !le_roundtrip by (cbn; lia).
  destruct (Z.eqb_spec m 0); [lia|].
  destruct (Z.eqb_spec k 0); [lia|]. cbn [orb].
  rewrite wrap64_small by (unfold UINT64_MAX; lia).
  fold (packed_size m). unfold alloc_bytes_ok, alloc_bits_ok.
  destruct (Z.leb_spec (packed_size m) mem); [|lia]. cbn [negb].
  rewrite stream_read_all by lia.
  cbn [good negb orb]. change (has_more (mkIstream [] true)) with false. cbv iota.
  destruct (Z.leb_spec m (8 * mem)); [|lia]. reflexivity.
Qed.

(** Property X7.  A file made of the magic number, the version, [m >= 1], [k >= 1], [n],
    [p] and [ceil (m / 8)] further bytes is accepted, whatever [m] and [k]
    are otherwise and whatever the filter held: the loaded filter has these
    parameters and [m] bits, bit [i] being bit [i mod 8] of byte [i / 8]. *)
Theorem wellformed_file_is_loaded (mem : Z) (bf0 : BloomFilter) (m k n p : Z)
    (packed : list byte) :
  0 <= mem < 2 ^ 60 -> 1 <= m <= 8 * mem -> 1 <= k <= UINT32_MAX ->
  is_uint64 n -> is_uint64 p -> Z.of_nat (length packed) = (m + 7) / 8 ->
  exists bf : BloomFilter,
    deserialize mem bf0
      (Some (le_split 4 0xBF10F17E ++ le_split 2 1 ++ le_split 8 m ++
             le_split 4 k ++ le_split 8 n ++ le_split 8 p ++ packed))
    = (Returned true, bf) /\
    isValid bf = true /\
    m_num_bits bf = m /\ m_num_hashes bf = k /\
    m_estimated_items bf = n /\ m_fp_rate bf = p /\
    Z.of_nat (length (m_bits bf)) = m /\
    forall i, 0 <= i < m ->
      bit_at (m_bits bf) i
      = Z.testbit (byte.unsigned (nth (Z.to_nat (i / 8)) packed Byte.x00)) (i mod 8).
Proof.
  intros Hmem Hm Hk Hn Hp Hpl.
  pose proof (deserialize_wellformed mem bf0 m k n p packed Hmem Hm Hk Hn Hp Hpl) as Hd.
  unfold header in Hd. cbn [m_num_bits m_num_hashes m_estimated_items m_fp_rate] in Hd.
  rewrite <- !app_assoc in Hd.
  destruct (unpack_fold packed (resize (Z.to_nat m) false (m_bits bf0)) (Z.to_nat m))
    as [Hlen Hbits]; [rewrite length_resize; lia|].
  rewrite Z2Nat.id in Hlen, Hbits by lia. rewrite length_resize in Hlen.
  eexists. split; [exact Hd|].
  cbn [m_num_bits m_num_hashes m_estimated_items m_fp_rate m_bits].
  split.
  { apply isValid_spec. cbn [m_bits m_num_hashes]. split; [|lia].
    intros E. rewrite E in Hlen. cbn in Hlen. lia. }
  repeat (split; [reflexivity|]). split; [lia|].
  intros i Hi. unfold bit_at. rewrite nth_lookup, Hbits.
  destruct (Nat.ltb_spec (Z.to_nat i) (Z.to_nat m)); [|lia].
  cbn [default]. rewrite Z2Nat.id by lia. reflexivity.
Qed.

Lemma wellformed_file_is_loaded_witness :
  exists bf : BloomFilter,
    deserialize 1024 small_filter
      (Some (le_split 4 0xBF10F17E ++ le_split 2 1 ++ le_split 8 1 ++
             le_split 4 21 ++ le_split 8 0 ++ le_split 8 0 ++ [Byte.xff]))
    = (Returned true, bf) /\
    isValid bf = true /\
    m_num_bits bf = 1 /\ m_num_hashes bf = 21 /\
    m_estimated_items bf = 0 /\ m_fp_rate bf = 0 /\
    Z.of_nat (length (m_bits bf)) = 1 /\
    forall i, 0 <= i < 1 ->
      bit_at (m_bits bf) i
      = Z.testbit (byte.unsigned (nth (Z.to_nat (i / 8)) [Byte.xff] Byte.x00)) (i mod 8).
Proof.
  apply (wellformed_file_is_loaded 1024 small_filter 1 21 0 0 [Byte.xff]).
  - lia.
  - lia.
  - unfold UINT32_MAX. lia.
  - unfold is_uint64, UINT64_MAX. lia.
  - unfold is_uint64, UINT64_MAX. lia.
  - reflexivity.
Defined.

(** Property X8.  A successful load does not depend on what the filter held before. *)
Theorem load_replaces_state (mem : Z) (bf0 bf1 bf : BloomFilter) (content : list byte) :
  0 <= mem < 2 ^ 60 ->
  deserialize mem bf0 (Some content) = (Returned true, bf) ->
  deserialize mem bf1 (Some content) = (Returned true, bf).
Proof.
  intros Hmem Hd.
  destruct (deserialize_accepts mem bf0 bf content Hmem Hd)
    as (packed & -> & Hpl & Hm & Hk & Hn & Hp & Hlen & Hbits).
  destruct bf as [m k n p bits].
  cbn [m_num_bits m_num_hashes m_estimated_items m_fp_rate m_bits] in *.
  change (header (mkBloomFilter m k n p bits)) with (header (mkBloomFilter m k n p [])).
  rewrite (deserialize_wellformed mem bf1 m k n p packed) by assumption.
  f_equal. f_equal.
  destruct (unpack_fold packed (resize (Z.to_nat m) false (m_bits bf1)) (Z.to_nat m))
    as [Hul Hub]; [rewrite length_resize; lia|].
  rewrite Z2Nat.id in Hul, Hub by lia. rewrite length_resize in Hul.
  apply list_eq. intros i. rewrite Hub.
  destruct (Nat.ltb_spec i (Z.to_nat m)) as [Hi|Hi].
  - rewrite Hbits by lia. reflexivity.
  - rewrite lookup_ge_None_2 by (rewrite length_resize; lia).
    symmetry. apply lookup_ge_None_2. lia.
Qed.

Lemma load_replaces_state_witness :
  deserialize 1024 small_filter (Some tiny_file)
  = (Returned true, mkBloomFilter 1 21 0 0 [true]).
Proof.
  apply (load_replaces_state 1024 default_filter small_filter
           (mkBloomFilter 1 21 0 0 [true]) tiny_file); [lia|reflexivity].
Defined.

Lemma no_false_negatives_witness :
  (contains small_filter (lit "cd") = true ->
   contains (fold_left insert [lit "ab"; lit "cd"] small_filter) (lit "cd") = true) /\
  (In (lit "cd") [lit "ab"; lit "cd"] ->
   contains (fold_left insert [lit "ab"; lit "cd"] small_filter) (lit "cd") = true).
Proof.
  apply (no_false_negatives 1024 small_filter [lit "ab"; lit "cd"] (lit "cd"));
    [lia|exact small_filter_reachable|reflexivity].
Defined.

Lemma insert_idempotent_commutative_witness :
  insert (insert small_filter (lit "ab")) (lit "ab") = insert small_filter (lit "ab") /\
  insert (insert small_filter (lit "ab")) (lit "cd")
  = insert (insert small_filter (lit "cd")) (lit "ab").
Proof.
  apply (insert_idempotent_commutative 1024 small_filter (lit "ab") (lit "cd"));
    [lia|exact small_filter_reachable].
Defined.


(** ** Index enumerator: every answer, and the refused indices *)

(** One step of the running power, with its overflow guard. *)
Lemma power_step_cases (C power : Z) (m : nat) :
  1 <= C <= UINT64_MAX -> ((1 <= m)%nat -> power = C ^ Z.of_nat m /\ power <= UINT64_MAX) ->
  (if Z.of_nat (S m) =? 1 then Some (C, C)
   else if power >? UINT64_MAX / C then None
        else Some (wrap64 (power * C), wrap64 (power * C)))
  = if C ^ Z.of_nat (S m) <=? UINT64_MAX
    then Some (C ^ Z.of_nat (S m), C ^ Z.of_nat (S m)) else None.
Proof.
  intros HC Hpow.
  destruct (Z.eqb_spec (Z.of_nat (S m)) 1) as [H1|H1].
  - rewrite H1, Z.pow_1_r. destruct (Z.leb_spec C UINT64_MAX); [reflexivity|lia].
  - destruct Hpow as [-> Hp]; [lia|].
    assert (Hm : C ^ Z.of_nat m * C = C ^ Z.of_nat (S m)).
    { rewrite Nat2Z.inj_succ, Z.pow_succ_r by lia. ring. }
    pose proof (pow_ge_1 C (Z.of_nat m) ltac:(lia) ltac:(lia)).
    rewrite div_guard by lia. rewrite Hm.
    destruct (Z.ltb_spec UINT64_MAX (C ^ Z.of_nat (S m)));
      destruct (Z.leb_spec (C ^ Z.of_nat (S m)) UINT64_MAX); try lia; [reflexivity|].
    rewrite wrap64_small
      by (pose proof (pow_ge_1 C (Z.of_nat (S m)) ltac:(lia) ltac:(lia)); lia).
    reflexivity.
Qed.

(** Whatever the length loop answers is the candidate of a window that
    holds the index. *)
Lemma length_loop_sound (charset : str) (fuel : nat) :
  forall (m : nat) (idx power : Z) (s : str),
  1 <= size charset <= UINT64_MAX ->
  ((1 <= m)%nat -> power = size charset ^ Z.of_nat m /\ power <= UINT64_MAX) ->
  0 <= idx <= UINT64_MAX ->
  length_loop fuel (Z.of_nat (S m)) charset (size charset) idx power = Some s ->
  exists (l : nat) (x : Z),
    (m <= l < m + fuel)%nat /\ 0 <= x < size charset ^ Z.of_nat (S l) /\
    size charset ^ Z.of_nat (S l) <= UINT64_MAX /\
    idx = geom (size charset) l - geom (size charset) m + x /\
    s = password_of_local charset (Z.of_nat (S l)) x.
Proof.
  set (C := size charset).
  induction fuel as [|fuel IH]; intros m idx power s HC Hpow Hidx; [discriminate|].
  cbn [length_loop]. rewrite (power_step_cases C power m HC Hpow).
  destruct (Z.leb_spec (C ^ Z.of_nat (S m)) UINT64_MAX) as [Hfit|]; [|discriminate].
  destruct (Z.ltb_spec idx (C ^ Z.of_nat (S m))) as [Hlt|Hge].
  - intros [= <-]. exists m, idx. repeat split; try lia.
  - rewrite wrap64_small by lia.
    replace (Z.of_nat (S m) + 1) with (Z.of_nat (S (S m))) by lia.
    intros H. apply IH in H as (l & x & Hl & Hx & Hf & Hi & ->); try lia; try assumption.
    exists l, x. rewrite geom_succ in Hi. repeat split; try lia.
Qed.

Lemma getPasswordByIndex_sound (charset : str) (Lmax i : Z) (s : str) :
  size charset <= UINT64_MAX -> 0 <= i <= UINT64_MAX ->
  getPasswordByIndex i charset Lmax = Some s ->
  exists (l : nat) (x : Z),
    charset <> [] /\ Z.of_nat l < Lmax /\
    0 <= x < size charset ^ Z.of_nat (S l) /\
    size charset ^ Z.of_nat (S l) <= UINT64_MAX /\
    i = geom (size charset) l + x /\
    s = password_of_local charset (Z.of_nat (S l)) x.
Proof.
  intros HC Hi. unfold getPasswordByIndex.
  destruct (Z.eqb_spec (size charset) 0) as [|Hne]; [discriminate|].
  assert (H1 : 1 <= size charset) by (unfold size in *; lia).
  change 1 with (Z.of_nat 1) at 1. intros E.
  apply length_loop_sound in E as (l & x & Hl & Hx & Hf & Hidx & ->); try lia.
  exists l, x. cbn [geom] in Hidx.
  repeat split; try lia. intros ->. unfold size in H1. cbn in H1. lia.
Qed.



(** Property X10.  The enumeration goes by length: a smaller index never gives a longer
    string. *)
Theorem getPasswordByIndex_shorter_first (charset : str) (Lmax i i' : Z) (s s' : str) :
  size charset <= UINT64_MAX -> 0 <= i <= i' -> i' <= UINT64_MAX ->
  getPasswordByIndex i charset Lmax = Some s ->
  getPasswordByIndex i' charset Lmax = Some s' ->
  size s <= size s'.
Proof.
  intros HC Hi Hi' E E'.
  apply getPasswordByIndex_sound in E
    as (l & x & Hne & Hl & Hx & Hf & -> & ->); [|assumption|lia].
  apply getPasswordByIndex_sound in E'
    as (l' & x' & _ & Hl' & Hx' & Hf' & -> & ->); [|assumption|lia].
  apply size_pos_of_nonempty in Hne.
  destruct (password_of_local_spec charset (Z.of_nat (S l)) x Hne ltac:(lia) Hx)
    as [-> _].
  destruct (password_of_local_spec charset (Z.of_nat (S l')) x' Hne ltac:(lia) Hx')
    as [-> _].
  destruct (Nat.le_gt_cases l l') as [|Hgt]; [lia|exfalso].
  pose proof (geom_mono (size charset) (S l') l Hne ltac:(lia)) as Hm.
  rewrite geom_succ in Hm. lia.
Qed.

Lemma getPasswordByIndex_shorter_first_witness :
  size (lit "b") <= size (lit "ab").
Proof.
  apply (getPasswordByIndex_shorter_first (lit "ab") 2 1 3 (lit "b") (lit "ab")).
  - vm_compute. discriminate.
  - lia.
  - unfold UINT64_MAX. lia.
  - reflexivity.
  - reflexivity.
Defined.

(** ** Pattern enumerator: the refused indices and patterns *)

(** [getPatternPasswordByIndex] with its counts replaced by those of the
    analyzer and its casts removed. *)
Lemma pattern_unfold (segments : list str) (charset : str) (L j : Z) :
  1 <= size charset -> 0 <= L <= INT_MAX ->
  fixed_length (calculate_pattern_info segments) <= INT_MAX ->
  getPatternPasswordByIndex j segments charset L =
    let F := fixed_length (calculate_pattern_info segments) in
    let S := num_stars (calculate_pattern_info segments) in
    let q := count_qmarks segments in
    if L <? F then None else
    match (if S >? 0 then Some (L - F)
           else if negb (L =? F) then None else Some 0) with
    | None => None
    | Some sl =>
        match (if q + sl >? 0 then wildcard_values_for charset j (q + sl)
               else Some []) with
        | None => None
        | Some wv =>
            match weave segments wv sl [] 0 with
            | None => None
            | Some out => if negb (size out =? L) then None else Some out
            end
        end
    end.
Proof.
  intros HC HL HF. cbv zeta.
  destruct (info_fixed_nonneg segments) as [Hq0 HqF].
  unfold getPatternPasswordByIndex.
  destruct (Z.eqb_spec (size charset) 0); [lia|].
  rewrite count_fold. rewrite !Z.add_0_l.
  remember (fixed_length (calculate_pattern_info segments)) as F eqn:EF.
  remember (num_stars (calculate_pattern_info segments)) as S eqn:ES.
  remember (count_qmarks segments) as q eqn:Eq.
  replace (F - q + q) with F by lia.
  rewrite !size_t_small by (unfold INT_MAX, UINT64_MAX in *; lia).
  destruct (Z.ltb_spec L F); [reflexivity|].
  destruct (Z.gtb_spec S 0).
  - destruct (Z.ltb_spec (L - F) 0); [lia|].
    destruct (Z.ltb_spec (q + (L - F)) 0); [lia|]. reflexivity.
  - destruct (negb (L =? F)); [reflexivity|].
    destruct (Z.ltb_spec (q + 0) 0); [lia|]. reflexivity.
Qed.



Lemma wildcard_values_complete (charset : str) (j w : Z) :
  1 <= size charset -> 1 <= w <= INT_MAX ->
  size charset ^ w <= UINT64_MAX -> 0 <= j < size charset ^ w ->
  wildcard_values_for charset j w = Some (password_of_local charset w j).
Proof.
  intros HC Hw Hfit Hj. unfold wildcard_values_for.
  destruct (wildcard_fill charset w j HC Hw Hfit Hj) as (offset & -> & -> & Hg).
  cbv zeta. rewrite Hg.
  destruct (password_of_local_spec charset w j HC ltac:(lia) Hj) as [-> _].
  rewrite size_t_small by (unfold INT_MAX, UINT64_MAX in *; lia).
  rewrite Z.eqb_refl. reflexivity.
Qed.

(** What a successful assembly has consumed and produced. *)
Lemma weave_consumes (wv : str) (sl : Z) :
  0 <= sl -> size wv + sl <= UINT64_MAX ->
  forall (segments : list str) (out : str) (idx : Z) (s : str),
  0 <= idx <= size wv ->
  weave segments wv sl out idx = Some s ->
  idx + count_qmarks segments + sl * num_stars (calculate_pattern_info segments)
    <= size wv /\
  size s = size out + fixed_length (calculate_pattern_info segments)
           + sl * num_stars (calculate_pattern_info segments).
Proof.
  intros Hsl Hmax.
  induction segments as [|seg rest IH]; intros out idx s Hidx.
  - cbn [weave]. intros [= <-].
    change (calculate_pattern_info []) with (mkPatternInfo 0 0).
    change (count_qmarks []) with 0. cbn [fixed_length num_stars]. lia.
  - rewrite info_cons, count_qmarks_cons. cbn [num_stars fixed_length weave].
    case_bool_decide as HQ.
    + assert (HS : seg <> STAR) by (subst; discriminate).
      rewrite (bool_decide_eq_false_2 _ HS).
      rewrite size_t_small by lia.
      destruct (Z.ltb_spec idx (size wv)); [|discriminate].
      intros E. apply IH in E as [E1 E2]; [|lia].
      rewrite size_app in E2. change (size [char_at wv idx]) with 1 in E2. lia.
    + case_bool_decide as HS.
      * rewrite size_t_small by lia.
        destruct (Z.leb_spec (idx + sl) (size wv)); [|discriminate].
        intros E. apply IH in E as [E1 E2]; [|lia].
        rewrite size_app in E2.
        assert (Ht : size (take (Z.to_nat sl) (drop (Z.to_nat idx) wv)) = sl).
        { unfold size in *. rewrite length_take, length_drop. lia. }
        rewrite Ht in E2. lia.
      * intros E. apply IH in E as [E1 E2]; [|lia].
        rewrite size_app in E2. lia.
Qed.



(** What a count of the analyzer tells, for at most one any-many segment. *)
Lemma count_some_cases (segments : list str) (C L n : Z) :
  1 <= C -> num_stars (calculate_pattern_info segments) <= 1 ->
  calculate_pattern_combinations segments C L = Some n ->
  let F := fixed_length (calculate_pattern_info segments) in
  let S := num_stars (calculate_pattern_info segments) in
  let q := count_qmarks segments in
  (n = 0 /\ (L < F \/ (S = 0 /\ L <> F))) \/
  (F <= L /\ (S = 0 -> L = F) /\ n = C ^ (q + (L - F)) /\ 1 <= n <= UINT64_MAX).
Proof.
  intros HC HS Hcount. cbv zeta.
  destruct (info_nonneg segments) as [Hs0 _].
  destruct (info_fixed_nonneg segments) as [Hq0 HqF].
  unfold calculate_pattern_combinations in Hcount.
  remember (fixed_length (calculate_pattern_info segments)) as F eqn:EF.
  remember (num_stars (calculate_pattern_info segments)) as S eqn:ES.
  remember (count_qmarks segments) as q eqn:Eq.
  destruct (Z.eqb_spec C 0); [lia|].
  destruct (Z.ltb_spec L F); [injection Hcount as <-; left; lia|].
  assert (Hpow : forall e, 0 <= e -> 1 <= C ^ e) by (intros e He; apply pow_ge_1; lia).
  destruct (Z.eqb_spec S 0) as [HS0|HS0].
  - destruct (Z.eqb_spec L F) as [HLF|HLF]; cbn [negb] in Hcount;
      [|injection Hcount as <-; left; lia].
    right. subst L. replace (q + (F - F)) with q by lia.
    destruct (Z.eqb_spec q 0) as [Hq|Hq].
    + injection Hcount as <-. rewrite Hq, Z.pow_0_r. unfold UINT64_MAX. lia.
    + rewrite power_loop_spec in Hcount by (unfold UINT64_MAX; lia).
      rewrite Z2Nat.id, Z.mul_1_l in Hcount by lia.
      destruct (Z.leb_spec (C ^ q) UINT64_MAX); [|discriminate].
      injection Hcount as <-. specialize (Hpow q Hq0). lia.
  - destruct (Z.eqb_spec S 1) as [HS1|HS1]; [|lia].
    destruct (Z.ltb_spec (L - F) 0); [lia|]. right.
    destruct (Z.eqb_spec (q + (L - F)) 0) as [Hw|Hw].
    + injection Hcount as <-. rewrite Hw, Z.pow_0_r. unfold UINT64_MAX. lia.
    + rewrite power_loop_spec in Hcount by (unfold UINT64_MAX; lia).
      rewrite Z2Nat.id, Z.mul_1_l in Hcount by lia.
      destruct (Z.leb_spec (C ^ (q + (L - F))) UINT64_MAX); [|discriminate].
      injection Hcount as <-. specialize (Hpow (q + (L - F)) ltac:(lia)). lia.
Qed.



(** The assembly of a pattern without any-one segment, with empty
    any-many segments. *)
Lemma weave_literals (segments : list str) :
  count_qmarks segments = 0 ->
  forall out : str,
  weave segments [] 0 out 0
  = Some (out ++ concat (List.filter (fun seg => negb (bool_decide (seg = STAR))) segments)).
Proof.
  induction segments as [|seg rest IH]; intros Hq out.
  - cbn. rewrite app_nil_r. reflexivity.
  - rewrite count_qmarks_cons in Hq. pose proof (count_qmarks_nonneg rest).
    cbn [weave List.filter]. case_bool_decide as HQ; [lia|].
    case_bool_decide as HS; cbn [negb].
    + change (size_t_of_int (0 + 0) <=? size []) with true. cbv iota.
      change (take (Z.to_nat 0) (drop (Z.to_nat 0) (@nil ascii))) with (@nil ascii).
      rewrite app_nil_r. apply IH. lia.
    + rewrite IH by lia. cbn [concat]. rewrite app_assoc. reflexivity.
Qed.

(** Property X13.  When the pattern leaves no wildcard character to fill, the index is
    ignored: every index gives the literal segments, concatenated. *)
Theorem pattern_without_wildcards_ignores_index (segments : list str) (charset : str)
    (L j : Z) :
  charset <> [] -> 0 <= L <= INT_MAX ->
  count_qmarks segments = 0 ->
  L = fixed_length (calculate_pattern_info segments) ->
  getPatternPasswordByIndex j segments charset L
  = Some (concat (List.filter (fun seg => negb (bool_decide (seg = STAR))) segments)).
Proof.
  intros Hne HL Hq HLF. apply size_pos_of_nonempty in Hne.
  rewrite pattern_unfold by lia. cbv zeta. rewrite Hq, <- HLF.
  destruct (Z.ltb_spec L L); [lia|].
  assert (Hsl : (if num_stars (calculate_pattern_info segments) >? 0 then Some (L - L)
                 else if negb (L =? L) then None else Some 0) = Some 0).
  { destruct (_ >? 0); [f_equal; lia|]. rewrite Z.eqb_refl. reflexivity. }
  rewrite Hsl. change (0 + 0 >? 0) with false. cbv iota.
  rewrite (weave_literals segments Hq []). cbn [app].
  pose proof (weave_literals segments Hq []) as Hw.
  apply weave_consumes in Hw as [_ Hsz];
    [|lia|change (size []) with 0; unfold UINT64_MAX; lia|change (size []) with 0; lia].
  cbn [app] in Hsz. change (size []) with 0 in Hsz. rewrite <- HLF in Hsz.
  replace (size _) with L by lia. rewrite Z.eqb_refl. reflexivity.
Qed.

Lemma pattern_without_wildcards_ignores_index_witness :
  getPatternPasswordByIndex 7 [lit "ab"; STAR] (lit "xy") 2
  = Some (concat (List.filter (fun seg => negb (bool_decide (seg = STAR)))
                              [lit "ab"; STAR])).
Proof.
  apply (pattern_without_wildcards_ignores_index [lit "ab"; STAR] (lit "xy") 2 7).
  - discriminate.
  - unfold INT_MAX. lia.
  - reflexivity.
  - reflexivity.
Defined.

(** ** Pattern enumerator: one index per matching string *)

Lemma wild_of_spec (charset : str) (sl : Z) (segments pieces : list str) :
  Forall2 (appended charset sl) segments pieces ->
  size (wild_of segments pieces)
  = count_qmarks segments + sl * num_stars (calculate_pattern_info segments) /\
  Forall (fun c => In c charset) (wild_of segments pieces).
Proof.
  induction 1 as [|seg piece rest pieces Hp _ [IH1 IH2]].
  { change (calculate_pattern_info []) with (mkPatternInfo 0 0).
    change (count_qmarks []) with 0. cbn [wild_of num_stars].
    change (size []) with 0. split; [lia|constructor]. }
  cbn [wild_of]. rewrite size_app, IH1, info_cons, count_qmarks_cons.
  cbn [num_stars]. unfold appended in Hp.
  repeat case_bool_decide; subst; try discriminate; cbn [orb].
  - destruct Hp as (c & Hc & ->). split; [change (size [c]) with 1; ring|].
    apply Forall_app. split; [|exact IH2]. apply Forall_singleton. exact Hc.
  - destruct Hp as [-> Hp]. split; [ring|]. apply Forall_app. split; assumption.
  - split; [change (size []) with 0; ring|exact IH2].
Qed.

Lemma star_piece_nonneg (charset : str) (sl : Z) (segments pieces : list str) :
  Forall2 (appended charset sl) segments pieces ->
  1 <= num_stars (calculate_pattern_info segments) -> 0 <= sl.
Proof.
  induction 1 as [|seg piece rest pieces Hp _ IH].
  { change (calculate_pattern_info []) with (mkPatternInfo 0 0). cbn [num_stars]. lia. }
  rewrite info_cons. cbn [num_stars]. unfold appended in Hp.
  repeat case_bool_decide; subst; try discriminate; try (intros; apply IH; lia).
  intros _. destruct Hp as [<- _]. unfold size. lia.
Qed.

(** The assembly puts back the pieces the wildcard characters were taken
    from. *)
Lemma weave_from_pieces (charset : str) (sl : Z) (segments pieces : list str) :
  0 <= sl -> Forall2 (appended charset sl) segments pieces ->
  forall pre out : str,
  size (pre ++ wild_of segments pieces) + sl <= UINT64_MAX ->
  weave segments (pre ++ wild_of segments pieces) sl out (size pre)
  = Some (out ++ concat pieces).
Proof.
  intros Hsl. induction 1 as [|seg piece rest pieces Hp _ IH]; intros pre out Hmax.
  { cbn. rewrite app_nil_r. reflexivity. }
  cbn [weave wild_of concat]. cbn [wild_of] in Hmax. unfold appended in Hp.
  assert (Hpre : 0 <= size pre) by (unfold size; lia).
  assert (0 <= size (wild_of rest pieces)) by (unfold size; lia).
  case_bool_decide as HQ.
  - destruct Hp as (c & _ & ->). cbn [orb] in *.
    rewrite !size_app in Hmax. change (size [c]) with 1 in Hmax.
    rewrite size_t_small by lia.
    rewrite !size_app. change (size [c]) with 1.
    destruct (Z.ltb_spec (size pre) (size pre + (1 + size (wild_of rest pieces))));
      [|lia].
    assert (Hc : char_at (pre ++ [c] ++ wild_of rest pieces) (size pre) = c).
    { unfold char_at, size. rewrite Nat2Z.id. apply nth_middle. }
    rewrite Hc.
    replace (pre ++ [c] ++ wild_of rest pieces) with ((pre ++ [c]) ++ wild_of rest pieces)
      by (rewrite <- app_assoc; reflexivity).
    replace (size pre + 1) with (size (pre ++ [c]))
      by (rewrite size_app; reflexivity).
    rewrite IH.
    + rewrite <- app_assoc. reflexivity.
    + rewrite !size_app. change (size [c]) with 1. lia.
  - case_bool_decide as HS; cbn [orb] in *.
    + destruct Hp as [Hps _]. rewrite !size_app, Hps in Hmax.
      rewrite size_t_small by lia. rewrite !size_app, Hps.
      destruct (Z.leb_spec (size pre + sl) (size pre + (sl + size (wild_of rest pieces))));
        [|lia].
      assert (Ht : take (Z.to_nat sl)
                     (drop (Z.to_nat (size pre)) (pre ++ piece ++ wild_of rest pieces))
                   = piece).
      { unfold size in *. rewrite Nat2Z.id, drop_app_length.
        replace (Z.to_nat sl) with (length piece) by lia.
        apply take_app_length. }
      rewrite Ht.
      replace (pre ++ piece ++ wild_of rest pieces)
        with ((pre ++ piece) ++ wild_of rest pieces)
        by (rewrite <- app_assoc; reflexivity).
      replace (size pre + sl) with (size (pre ++ piece))
        by (rewrite size_app; lia).
      rewrite IH.
      * rewrite <- app_assoc. reflexivity.
      * rewrite !size_app. lia.
    + subst piece. cbn [app] in *. rewrite IH by exact Hmax.
      rewrite <- app_assoc. reflexivity.
Qed.

Lemma char_at_take_drop (wv : str) (idx sl p : Z) :
  0 <= idx <= p -> p < idx + sl ->
  char_at (take (Z.to_nat sl) (drop (Z.to_nat idx) wv)) (p - idx) = char_at wv p.
Proof.
  intros Hi Hp. unfold char_at. rewrite !nth_lookup.
  rewrite lookup_take_lt by lia. rewrite lookup_drop. do 2 f_equal. lia.
Qed.

(** Two assemblies with the same result used the same wildcard
    characters. *)
Lemma weave_inj (wv wv' : str) (sl : Z) :
  0 <= sl -> size wv + sl <= UINT64_MAX -> size wv' + sl <= UINT64_MAX ->
  forall (segments : list str) (out out' : str) (idx : Z) (s : str),
  0 <= idx -> idx <= size wv -> idx <= size wv' -> size out = size out' ->
  weave segments wv sl out idx = Some s ->
  weave segments wv' sl out' idx = Some s ->
  out = out' /\
  forall p, idx <= p < idx + count_qmarks segments
                      + sl * num_stars (calculate_pattern_info segments) ->
    char_at wv p = char_at wv' p.
Proof.
  intros Hsl Hmax Hmax'.
  induction segments as [|seg rest IH]; intros out out' idx s Hidx Hi Hi' Hsz.
  - cbn [weave]. intros [= <-] [= <-]. split; [reflexivity|].
    change (calculate_pattern_info []) with (mkPatternInfo 0 0).
    change (count_qmarks []) with 0. cbn [num_stars]. intros p Hp. lia.
  - rewrite info_cons, count_qmarks_cons. cbn [num_stars weave].
    destruct (info_nonneg rest) as [Hs _].
    pose proof (count_qmarks_nonneg rest) as Hq.
    case_bool_decide as HQ.
    + assert (HS : seg <> STAR) by (subst; discriminate).
      rewrite (bool_decide_eq_false_2 _ HS). rewrite size_t_small by lia.
      destruct (Z.ltb_spec idx (size wv)); [|discriminate].
      destruct (Z.ltb_spec idx (size wv')); [|discriminate].
      intros E E'.
      destruct (IH (out ++ [char_at wv idx]) (out' ++ [char_at wv' idx]) (idx + 1) s
                  ltac:(lia) ltac:(lia) ltac:(lia)
                  ltac:(rewrite !size_app; change (size [?c]) with 1; lia) E E')
        as [Ho Hr].
      apply app_inj_2 in Ho as [-> Hc]; [|reflexivity].
      split; [reflexivity|]. intros p Hp.
      destruct (Z.eq_dec p idx) as [->|]; [congruence|]. apply Hr. lia.
    + case_bool_decide as HS.
      * rewrite size_t_small by lia.
        destruct (Z.leb_spec (idx + sl) (size wv)); [|discriminate].
        destruct (Z.leb_spec (idx + sl) (size wv')); [|discriminate].
        intros E E'.
        assert (Hl : length (take (Z.to_nat sl) (drop (Z.to_nat idx) wv))
                     = length (take (Z.to_nat sl) (drop (Z.to_nat idx) wv'))).
        { unfold size in *. rewrite !length_take, !length_drop. lia. }
        destruct (IH (out ++ take (Z.to_nat sl) (drop (Z.to_nat idx) wv))
                    (out' ++ take (Z.to_nat sl) (drop (Z.to_nat idx) wv')) (idx + sl) s
                    ltac:(lia) ltac:(lia) ltac:(lia)
                    ltac:(unfold size in *; rewrite !length_app; lia) E E')
          as [Ho Hr].
        apply app_inj_2 in Ho as [-> Ht]; [|exact Hl].
        split; [reflexivity|]. intros p Hp.
        destruct (Z.lt_ge_cases p (idx + sl)) as [Hlt|Hge].
        -- rewrite <- (char_at_take_drop wv idx sl p) by lia.
           rewrite <- (char_at_take_drop wv' idx sl p) by lia.
           rewrite Ht. reflexivity.
        -- apply Hr. lia.
      * intros E E'.
        destruct (IH (out ++ seg) (out' ++ seg) idx s
                    ltac:(lia) ltac:(lia) ltac:(lia)
                    ltac:(rewrite !size_app; lia) E E')
          as [Ho Hr].
        apply app_inv_tail in Ho. split; [exact Ho|].
        intros p Hp. apply Hr. lia.
Qed.

(** For a segment list with at most one segment equal to "*", every
    string of the length that is put together as the assembly loop does is
    the candidate of an index below the count, and with pairwise distinct
    charset characters two indices below the count never give the same
    candidate. *)
Lemma pattern_enumeration_assembled (segments : list str) (charset : str) (L n : Z) :
  charset <> [] -> 0 <= L <= INT_MAX ->
  num_stars (calculate_pattern_info segments) <= 1 ->
  calculate_pattern_combinations segments (size charset) L = Some n ->
  (forall s : str, size s = L ->
     assembled charset (L - fixed_length (calculate_pattern_info segments)) segments s ->
     exists j, 0 <= j < n /\ getPatternPasswordByIndex j segments charset L = Some s) /\
  (NoDup charset ->
   forall j j', 0 <= j < n -> 0 <= j' < n ->
     getPatternPasswordByIndex j segments charset L
     = getPatternPasswordByIndex j' segments charset L ->
     j = j').
Proof.
  intros Hne HL HS Hcount. apply size_pos_of_nonempty in Hne.
  destruct (info_nonneg segments) as [Hs0 _].
  destruct (info_fixed_nonneg segments) as [Hq0 HqF].
  destruct (count_some_cases segments (size charset) L n Hne HS Hcount) as [Hc|Hc];
    cbv zeta in Hc;
    remember (fixed_length (calculate_pattern_info segments)) as F eqn:EF;
    remember (num_stars (calculate_pattern_info segments)) as S eqn:ES;
    remember (count_qmarks segments) as q eqn:Eq.
  { destruct Hc as [-> Hc]. split; [|intros _ j j' Hj; lia].
    intros s Hsz (pieces & -> & Hp). exfalso.
    pose proof (pieces_size _ _ _ _ Hp) as Hps. rewrite <- EF, <- ES in Hps.
    destruct (wild_of_spec _ _ _ _ Hp) as [Hws _]. rewrite <- Eq, <- ES in Hws.
    destruct (Z.eq_dec S 0) as [E0|E0]; [rewrite E0 in Hps; lia|].
    pose proof (star_piece_nonneg _ _ _ _ Hp ltac:(lia)). lia. }
  destruct Hc as (HFL & HS0 & -> & Hn).
  assert (Hroom : q + (L - F) * S = q + (L - F)).
  { destruct (Z.eq_dec S 0) as [E|E]; [rewrite (HS0 E); lia|].
    replace S with 1 by lia. lia. }
  assert (Hsl : (if S >? 0 then Some (L - F)
                 else if negb (L =? F) then None else Some 0) = Some (L - F)).
  { destruct (Z.gtb_spec S 0); [reflexivity|].
    rewrite HS0 by lia. rewrite Z.eqb_refl. cbn [negb]. f_equal. lia. }
  (* the wildcard characters of an index below the count *)
  assert (Hfill : forall j, 0 <= j < size charset ^ (q + (L - F)) ->
    (if q + (L - F) >? 0 then wildcard_values_for charset j (q + (L - F)) else Some [])
    = Some (password_of_local charset (q + (L - F)) j)).
  { intros j Hj. destruct (Z.gtb_spec (q + (L - F)) 0) as [Hpos|Hzero].
    - apply wildcard_values_complete; unfold INT_MAX in *; lia.
    - replace (q + (L - F)) with 0 by lia. reflexivity. }
  assert (Hunf : forall j, 0 <= j < size charset ^ (q + (L - F)) ->
    getPatternPasswordByIndex j segments charset L =
      match weave segments (password_of_local charset (q + (L - F)) j) (L - F) [] 0 with
      | None => None
      | Some out => if negb (size out =? L) then None else Some out
      end).
  { intros j Hj. rewrite pattern_unfold by lia. cbv zeta.
    rewrite <- EF, <- ES, <- Eq.
    destruct (Z.ltb_spec L F); [lia|]. rewrite Hsl, (Hfill j Hj). reflexivity. }
  split.
  - intros s Hsz (pieces & -> & Hp).
    destruct (wild_of_spec _ _ _ _ Hp) as [Hws Hwo]. rewrite <- Eq, <- ES in Hws.
    rewrite Z.mul_comm in Hroom. rewrite Z.mul_comm, Hroom in Hws.
    destruct (password_of_local_onto charset (wild_of segments pieces) Hne Hwo)
      as (j & Hj & Hpw).
    rewrite Hws in Hj, Hpw. exists j. split; [exact Hj|].
    rewrite (Hunf j Hj), Hpw.
    pose proof (weave_from_pieces charset (L - F) segments pieces ltac:(lia) Hp [] [])
      as Hw.
    cbn [app] in Hw. change (size []) with 0 in Hw.
    rewrite Hw by (rewrite Hws; unfold INT_MAX, UINT64_MAX in *; lia).
    rewrite Hsz, Z.eqb_refl. reflexivity.
  - intros Hnd j j' Hj Hj' Heq.
    rewrite (Hunf j Hj), (Hunf j' Hj') in Heq.
    set (w := q + (L - F)) in *.
    destruct (password_of_local_spec charset w j Hne ltac:(lia) Hj) as [Hsz _].
    destruct (password_of_local_spec charset w j' Hne ltac:(lia) Hj') as [Hsz' _].
    pose proof (password_of_local_over charset w j Hne ltac:(lia) Hj) as Hov.
    pose proof (password_of_local_over charset w j' Hne ltac:(lia) Hj') as Hov'.
    assert (Hw0 : 0 <= w <= INT_MAX) by (unfold w; lia).
    assert (Hr : 0 + q + (L - F) * S <= w) by (unfold w; lia).
    destruct (weave_spec charset (password_of_local charset w j) (L - F) ltac:(lia)
                ltac:(rewrite Hsz; unfold INT_MAX, UINT64_MAX in *; lia) Hov
                segments [] 0 ltac:(lia))
      as (pieces & Hw & Hp); [rewrite Hsz, <- Eq, <- ES; exact Hr|].
    destruct (weave_spec charset (password_of_local charset w j') (L - F) ltac:(lia)
                ltac:(rewrite Hsz'; unfold INT_MAX, UINT64_MAX in *; lia) Hov'
                segments [] 0 ltac:(lia))
      as (pieces' & Hw' & Hp'); [rewrite Hsz', <- Eq, <- ES; exact Hr|].
    pose proof (pieces_size _ _ _ _ Hp) as Hps. rewrite <- EF, <- ES in Hps.
    pose proof (pieces_size _ _ _ _ Hp') as Hps'. rewrite <- EF, <- ES in Hps'.
    assert (HL1 : F + (L - F) * S = L).
    { destruct (Z.eq_dec S 0) as [E|E]; [rewrite (HS0 E), E; lia|].
      replace S with 1 by lia. lia. }
    rewrite Hw, Hw' in Heq. cbn [app] in Heq, Hw, Hw'.
    rewrite Hps, Hps', HL1, Z.eqb_refl in Heq. cbn [negb] in Heq.
    injection Heq as Heq. rewrite <- Heq in Hw'.
    destruct (weave_inj (password_of_local charset w j) (password_of_local charset w j')
                (L - F) ltac:(lia)
                ltac:(rewrite Hsz; unfold INT_MAX, UINT64_MAX in *; lia)
                ltac:(rewrite Hsz'; unfold INT_MAX, UINT64_MAX in *; lia)
                segments [] [] 0 (concat pieces) ltac:(lia) ltac:(lia) ltac:(lia)
                eq_refl Hw Hw') as [_ Hsame].
    rewrite <- Eq, <- ES in Hsame.
    assert (Heql : password_of_local charset w j = password_of_local charset w j').
    { apply (nth_ext _ _ zero zero); [unfold size in *; lia|].
      intros k Hk. specialize (Hsame (Z.of_nat k)). unfold char_at in Hsame.
      rewrite Nat2Z.id in Hsame. apply Hsame. unfold size in *. lia. }
    replace w with (Z.of_nat (Z.to_nat w)) in Heql, Hj, Hj' by lia.
    apply (password_of_local_inj charset (Z.to_nat w) j j' Hne); assumption.
Qed.

(** ** Pattern parser *)

(** The parser loop keeps every pushed segment non-empty and loses no
    character but the escaping backslashes. *)
Lemma parse_fold_inv (pattern : str) :
  forall st : parse_state,
  Forall (fun seg => seg <> []) (segments_acc st) ->
  let st' := fold_left parse_step pattern st in
  Forall (fun seg => seg <> []) (segments_acc st') /\
  concat (segments_acc st') ++ current_segment st'
  = concat (segments_acc st) ++ current_segment st
    ++ (if escape st
        then match pattern with [] => [] | d :: rest => d :: unescape rest end
        else unescape pattern).
Proof.
  induction pattern as [|c rest IH]; intros st Hacc; cbv zeta.
  - cbn [fold_left unescape]. split; [exact Hacc|].
    destruct (escape st); rewrite app_nil_r; reflexivity.
  - cbn [fold_left]. remember (parse_step st c) as st1 eqn:E1.
    unfold parse_step in E1. destruct (escape st) eqn:Ee.
    + destruct (IH st1) as [H1 H2]; [subst st1; exact Hacc|].
      split; [exact H1|]. rewrite H2. subst st1.
      cbn [segments_acc current_segment escape].
      rewrite <- !app_assoc. reflexivity.
    + cbn [unescape]. case_bool_decide as Hb.
      * destruct (IH st1) as [H1 H2]; [subst st1; exact Hacc|].
        split; [exact H1|]. rewrite H2. subst st1. reflexivity.
      * destruct (bool_decide (c = "*"%char) || bool_decide (c = "?"%char)).
        -- set (pushed := match current_segment st with
                          | [] => segments_acc st
                          | _ => segments_acc st ++ [current_segment st]
                          end) in E1.
           assert (Hp : Forall (fun seg => seg <> []) pushed /\
                        concat pushed = concat (segments_acc st) ++ current_segment st).
           { unfold pushed. destruct (current_segment st) as [|a l] eqn:Ec.
             - rewrite app_nil_r. split; [exact Hacc|reflexivity].
             - split.
               + apply Forall_app. split; [exact Hacc|].
                 apply Forall_singleton. discriminate.
               + rewrite concat_app. cbn [concat]. rewrite app_nil_r. reflexivity. }
           destruct Hp as [Hp1 Hp2].
           destruct (IH st1) as [H1 H2].
           { subst st1. cbn [segments_acc]. apply Forall_app. split; [exact Hp1|].
             apply Forall_singleton. discriminate. }
           split; [exact H1|]. rewrite H2. subst st1.
           cbn [segments_acc current_segment escape].
           rewrite concat_app, Hp2. cbn [concat app].
           rewrite <- !app_assoc. reflexivity.
        -- destruct (IH st1) as [H1 H2]; [subst st1; exact Hacc|].
           split; [exact H1|]. rewrite H2. subst st1.
           cbn [segments_acc current_segment escape].
           rewrite <- !app_assoc. reflexivity.
Qed.

(** Property X15.  No segment is empty, and the segments put end to end are the pattern
    without its escaping backslashes: nothing else is lost or moved. *)
Theorem parse_pattern_segments (pattern : str) :
  Forall (fun seg => seg <> []) (parse_pattern pattern) /\
  concat (parse_pattern pattern) = unescape pattern.
Proof.
  destruct (parse_fold_inv pattern (mkParseState [] [] false)) as [H1 H2];
    [constructor|].
  cbv zeta in H1, H2. cbn [segments_acc current_segment escape concat app] in H2.
  unfold parse_pattern. cbv zeta.
  destruct (current_segment (fold_left parse_step pattern (mkParseState [] [] false)))
    as [|a l] eqn:Ec.
  - rewrite app_nil_r in H2. split; assumption.
  - split.
    + apply Forall_app. split; [exact H1|]. apply Forall_singleton. discriminate.
    + rewrite concat_app. cbn [concat]. rewrite app_nil_r. exact H2.
Qed.

Lemma parse_fold_escaped (s : str) :
  forall (acc : list str) (cur : str),
  fold_left parse_step (escape_all s) (mkParseState acc cur false)
  = mkParseState acc (cur ++ s) false.
Proof.
  induction s as [|c rest IH]; intros acc cur.
  - cbn. rewrite app_nil_r. reflexivity.
  - cbn [escape_all flat_map app fold_left]. fold (escape_all rest).
    assert (E : parse_step (parse_step (mkParseState acc cur false) "\"%char) c
                = mkParseState acc (cur ++ [c]) false).
    { unfold parse_step at 2. cbn [escape segments_acc current_segment].
      rewrite (bool_decide_eq_true_2 ("\"%char = "\"%char) eq_refl). reflexivity. }
    rewrite E, IH, <- app_assoc. reflexivity.
Qed.

(** Property X16.  A backslash in front of every character makes the whole text one
    literal segment; for a lone [*] or [?] that segment is the very
    segment the analyzer and the enumerators take for a wildcard. *)
Theorem parse_pattern_escaped (s : str) :
  s <> [] ->
  parse_pattern (escape_all s) = [s] /\
  (s = STAR \/ s = QMARK -> parse_pattern (escape_all s) = parse_pattern s).
Proof.
  intros Hne.
  assert (H : parse_pattern (escape_all s) = [s]).
  { unfold parse_pattern. cbv zeta. rewrite parse_fold_escaped.
    cbn [current_segment segments_acc app]. destruct s; [congruence|reflexivity]. }
  split; [exact H|]. intros [->| ->]; reflexivity.
Qed.

Lemma parse_pattern_escaped_witness :
  parse_pattern (escape_all STAR) = [STAR] /\
  (STAR = STAR \/ STAR = QMARK -> parse_pattern (escape_all STAR) = parse_pattern STAR).
Proof. apply (parse_pattern_escaped STAR). discriminate. Defined.

Lemma parse_step_prefix (pre acc : list str) (cur : str) (e : bool) (c : ascii) :
  parse_step (mkParseState (pre ++ acc) cur e) c
  = let st := parse_step (mkParseState acc cur e) c in
    mkParseState (pre ++ segments_acc st) (current_segment st) (escape st).
Proof.
  unfold parse_step. cbn [escape segments_acc current_segment]. cbv zeta.
  destruct e; [reflexivity|].
  case_bool_decide; [reflexivity|].
  destruct (bool_decide (c = "*"%char) || bool_decide (c = "?"%char)); [|reflexivity].
  destruct cur; cbn [segments_acc current_segment escape];
    rewrite <- ?app_assoc; reflexivity.
Qed.

(** Segments pushed before the loop goes on stay in front. *)
Lemma parse_fold_prefix (pattern : str) :
  forall (pre acc : list str) (cur : str) (e : bool),
  fold_left parse_step pattern (mkParseState (pre ++ acc) cur e)
  = let st := fold_left parse_step pattern (mkParseState acc cur e) in
    mkParseState (pre ++ segments_acc st) (current_segment st) (escape st).
Proof.
  induction pattern as [|c rest IH]; intros pre acc cur e; cbv zeta.
  - reflexivity.
  - cbn [fold_left]. rewrite parse_step_prefix. cbv zeta.
    destruct (parse_step (mkParseState acc cur e) c) as [acc1 cur1 e1].
    cbn [segments_acc current_segment escape]. apply IH.
Qed.

Lemma parse_fold_no_escape (pattern : str) :
  ~ In "\"%char pattern ->
  forall st, escape st = false -> escape (fold_left parse_step pattern st) = false.
Proof.
  induction pattern as [|c rest IH]; intros Hno st He; [exact He|].
  cbn [fold_left]. apply IH; [intros H; apply Hno; right; exact H|].
  unfold parse_step. rewrite He.
  case_bool_decide as Hb; [exfalso; apply Hno; left; congruence|].
  destruct (_ || _); reflexivity.
Qed.

(** Property X17.  A [*] or [?] that follows a text without backslash is a segment of
    its own and splits the pattern: the segments are those of the text
    before it, the wildcard, then those of the rest. *)
Theorem parse_pattern_splits_at_wildcard (a b : str) (w : ascii) :
  ~ In "\"%char a -> w = "*"%char \/ w = "?"%char ->
  parse_pattern (a ++ w :: b) = parse_pattern a ++ [w] :: parse_pattern b.
Proof.
  intros Hno Hw. unfold parse_pattern. cbv zeta.
  rewrite fold_left_app. cbn [fold_left].
  set (sa := fold_left parse_step a (mkParseState [] [] false)).
  assert (He : escape sa = false) by (apply parse_fold_no_escape; [exact Hno|reflexivity]).
  assert (Hstep : parse_step sa w
    = mkParseState
        ((match current_segment sa with
          | [] => segments_acc sa
          | _ => segments_acc sa ++ [current_segment sa]
          end ++ [[w]]) ++ []) [] false).
  { unfold parse_step. rewrite He. rewrite app_nil_r.
    destruct Hw as [-> | ->]; reflexivity. }
  rewrite Hstep, parse_fold_prefix. cbv zeta.
  cbn [current_segment segments_acc].
  destruct (current_segment (fold_left parse_step b (mkParseState [] [] false)));
    rewrite <- ?app_assoc; reflexivity.
Qed.

Lemma parse_pattern_splits_at_wildcard_witness :
  parse_pattern (lit "ab" ++ "*"%char :: lit "c")
  = parse_pattern (lit "ab") ++ ["*"%char] :: parse_pattern (lit "c").
Proof.
  apply (parse_pattern_splits_at_wildcard (lit "ab") (lit "c") "*"%char).
  - intros [H|[H|[]]]; discriminate H.
  - left. reflexivity.
Defined.

(** ** Pattern enumerator across lengths *)

Section GlobalIndex.

Variables (segments : list str) (charset : str) (counts : gmap Z Z).
Hypothesis counts_range : forall L c, counts !! L = Some c -> 0 <= c <= UINT64_MAX.

Lemma count_at_range (L : Z) : 0 <= count_at counts L <= UINT64_MAX.
Proof.
  unfold count_at. destruct (counts !! L) as [c|] eqn:E; cbn.
  - exact (counts_range L c E).
  - unfold UINT64_MAX. lia.
Qed.

Lemma sum_counts_nonneg (n : nat) (lo : Z) : 0 <= sum_counts counts lo n.
Proof.
  revert lo. induction n as [|n IH]; intros lo; cbn [sum_counts]; [lia|].
  pose proof (count_at_range lo). specialize (IH (lo + 1)). lia.
Qed.

Lemma sum_counts_succ (n : nat) (lo : Z) :
  sum_counts counts lo (S n) = sum_counts counts lo n + count_at counts (lo + Z.of_nat n).
Proof.
  revert lo. induction n as [|n IH]; intros lo.
  - cbn [sum_counts]. replace (lo + Z.of_nat 0) with lo by lia. lia.
  - cbn [sum_counts] in *. rewrite IH.
    replace (lo + 1 + Z.of_nat n) with (lo + Z.of_nat (S n)) by lia. lia.
Qed.

(** One iteration of [getPatternPasswordByGlobalIndex]. *)
Lemma global_pattern_loop_step (fuel : nat) (lo g : Z) :
  0 <= g <= UINT64_MAX ->
  global_pattern_loop (S fuel) lo g segments charset counts =
    if g <? count_at counts lo
    then getPatternPasswordByIndex g segments charset lo
    else global_pattern_loop fuel (lo + 1) (g - count_at counts lo)
                             segments charset counts.
Proof.
  intros Hg. cbn [global_pattern_loop]. pose proof (count_at_range lo) as Hc.
  assert (Hca : count_at counts lo = match counts !! lo with Some c => c | None => 0 end)
    by (unfold count_at; destruct (counts !! lo); reflexivity).
  rewrite Hca in *. clear Hca. destruct (counts !! lo) as [c|].
  - destruct (Z.eqb_spec c 0) as [->|].
    + destruct (Z.ltb_spec g 0); [lia|]. rewrite Z.sub_0_r. reflexivity.
    + destruct (Z.ltb_spec g c); [reflexivity|].
      rewrite wrap64_small by lia. reflexivity.
  - destruct (Z.ltb_spec g 0); [lia|]. rewrite Z.sub_0_r. reflexivity.
Qed.

Lemma global_pattern_loop_at (fuel : nat) :
  forall (lo L j : Z),
  lo <= L < lo + Z.of_nat fuel -> 0 <= j < count_at counts L ->
  sum_counts counts lo (Z.to_nat (L - lo)) + j <= UINT64_MAX ->
  global_pattern_loop fuel lo (sum_counts counts lo (Z.to_nat (L - lo)) + j)
                      segments charset counts
  = getPatternPasswordByIndex j segments charset L.
Proof.
  induction fuel as [|fuel IH]; intros lo L j HL Hj Hmax; [lia|].
  pose proof (sum_counts_nonneg (Z.to_nat (L - lo)) lo) as Hs.
  rewrite global_pattern_loop_step by lia.
  destruct (Z.eq_dec L lo) as [->|Hne].
  - rewrite Z.sub_diag in *. cbn [Z.to_nat sum_counts] in *. rewrite Z.add_0_l.
    destruct (Z.ltb_spec j (count_at counts lo)); [reflexivity|lia].
  - replace (Z.to_nat (L - lo)) with (S (Z.to_nat (L - (lo + 1)))) in * by lia.
    cbn [sum_counts] in *.
    pose proof (sum_counts_nonneg (Z.to_nat (L - (lo + 1))) (lo + 1)).
    pose proof (count_at_range lo).
    destruct (Z.ltb_spec (count_at counts lo + sum_counts counts (lo + 1)
                            (Z.to_nat (L - (lo + 1))) + j) (count_at counts lo)); [lia|].
    replace (count_at counts lo + sum_counts counts (lo + 1) (Z.to_nat (L - (lo + 1)))
             + j - count_at counts lo)
      with (sum_counts counts (lo + 1) (Z.to_nat (L - (lo + 1))) + j) by lia.
    apply IH; lia.
Qed.


(** An index below the sum of the counts falls in the window of one
    length. *)
Lemma sum_counts_decompose (n : nat) :
  forall (lo g : Z), 0 <= g < sum_counts counts lo n ->
  exists (L j : Z),
    lo <= L < lo + Z.of_nat n /\ 0 <= j < count_at counts L /\
    g = sum_counts counts lo (Z.to_nat (L - lo)) + j.
Proof.
  induction n as [|n IH]; intros lo g Hg; [cbn in Hg; lia|].
  rewrite sum_counts_succ in Hg.
  destruct (Z.lt_ge_cases g (sum_counts counts lo n)) as [Hlt|Hge].
  - destruct (IH lo g ltac:(lia)) as (L & j & HL & Hj & Hgj).
    exists L, j. repeat split; try lia.
  - exists (lo + Z.of_nat n), (g - sum_counts counts lo n).
    replace (lo + Z.of_nat n - lo) with (Z.of_nat n) by lia. rewrite Nat2Z.id.
    repeat split; lia.
Qed.

End GlobalIndex.



(** ** Random pattern mode: the counts and the candidates *)

Lemma calc_range (segments : list str) (C L c : Z) :
  1 <= C -> calculate_pattern_combinations segments C L = Some c ->
  0 <= c <= UINT64_MAX.
Proof.
  intros HC. unfold calculate_pattern_combinations.
  pose proof (count_qmarks_nonneg segments) as Hq.
  assert (Hp : forall n, power_loop n C 1 = Some c -> 0 <= c <= UINT64_MAX).
  { intros n. rewrite power_loop_spec by (unfold UINT64_MAX; lia).
    rewrite Z.mul_1_l. pose proof (pow_ge_1 C (Z.of_nat n) HC ltac:(lia)).
    destruct (Z.leb_spec (C ^ Z.of_nat n) UINT64_MAX); [|discriminate].
    intros [= <-]. lia. }
  assert (H0 : Some 0 = Some c -> 0 <= c <= UINT64_MAX)
    by (intros [= <-]; unfold UINT64_MAX; lia).
  assert (H1 : Some 1 = Some c -> 0 <= c <= UINT64_MAX)
    by (intros [= <-]; unfold UINT64_MAX; lia).
  repeat match goal with
         | |- (if ?b then _ else _) = _ -> _ => destruct b
         end; try assumption; try apply Hp; discriminate.
Qed.

(** A candidate for each index below the count, for at most one any-many
    segment. *)
Lemma pattern_candidate_at (segments : list str) (charset : str) (L j n : Z) :
  1 <= size charset -> 0 <= L <= INT_MAX ->
  num_stars (calculate_pattern_info segments) <= 1 ->
  calculate_pattern_combinations segments (size charset) L = Some n ->
  0 <= j < n ->
  exists s : str,
    getPatternPasswordByIndex j segments charset L = Some s /\
    size s = L /\
    assembled charset (L - fixed_length (calculate_pattern_info segments)) segments s.
Proof.
  intros Hne HL HS Hcount Hj.
  apply (pattern_candidate_assembled segments charset L j n); try assumption.
  - intros ->. unfold size in Hne. cbn [length] in Hne. lia.
  - unfold is_int, INT_MIN. lia.
Qed.

(** What the counting loop leaves when it ends with [calculation_ok]. *)
Lemma count_lengths_spec (check_stop : Z -> bool) (segments : list str) (C : Z)
    (fuel : nat) :
  1 <= C ->
  forall (lo total : Z) (counts : gmap Z Z) (total' : Z) (counts' : gmap Z Z),
  0 <= total <= UINT64_MAX ->
  (forall L, lo <= L -> counts !! L = None) ->
  count_lengths fuel lo check_stop segments C total counts = (true, total', counts') ->
  total' = total + sum_counts counts' lo fuel /\ total' <= UINT64_MAX /\
  (forall L, L < lo -> counts' !! L = counts !! L) /\
  (forall L c, lo <= L -> counts' !! L = Some c ->
     L < lo + Z.of_nat fuel /\ 0 < c /\
     calculate_pattern_combinations segments C L = Some c) /\
  (forall L c, lo <= L < lo + Z.of_nat fuel ->
     calculate_pattern_combinations segments C L = Some c -> 0 < c ->
     counts' !! L = Some c).
Proof.
  intros HC. induction fuel as [|fuel IH]; intros lo total counts total' counts' Ht Hnone.
  - cbn [count_lengths sum_counts]. intros [= <- <-].
    split; [lia|]. split; [lia|]. split; [reflexivity|]. split.
    + intros L c HL E. rewrite Hnone in E by lia. discriminate.
    + intros L c HL. lia.
  - cbn [count_lengths sum_counts]. destruct (check_stop lo); [discriminate|].
    destruct (calculate_pattern_combinations segments C lo) as [c|] eqn:Ec;
      [|discriminate].
    pose proof (calc_range segments C lo c HC Ec) as Hc.
    destruct (Z.gtb_spec c 0) as [Hpos|Hzero].
    + cbv zeta.
      destruct (Z.gtb_spec total (UINT64_MAX - c)); [discriminate|].
      rewrite wrap64_small by lia. intros E.
      apply IH in E as (E1 & E2 & E3 & E4 & E5); [|lia|].
      2: { intros L HL. rewrite lookup_insert_ne by lia. apply Hnone. lia. }
      assert (E0 : count_at counts' lo = c).
      { unfold count_at. rewrite E3 by lia. rewrite lookup_insert_eq. reflexivity. }
      rewrite E0. split; [lia|]. split; [exact E2|]. split; [|split].
      * intros L HL. rewrite E3 by lia. apply lookup_insert_ne. lia.
      * intros L c' HL E. destruct (Z.eq_dec L lo) as [->|Hne].
        -- rewrite E3, lookup_insert_eq in E by lia. injection E as <-.
           repeat split; try lia. exact Ec.
        -- destruct (E4 L c' ltac:(lia) E) as (H1 & H2 & H3).
           repeat split; try lia. exact H3.
      * intros L c' HL Hcalc Hpos'. destruct (Z.eq_dec L lo) as [->|Hne].
        -- rewrite E3, lookup_insert_eq by lia. congruence.
        -- apply E5; [lia|exact Hcalc|exact Hpos'].
    + intros E. apply IH in E as (E1 & E2 & E3 & E4 & E5); [|lia|].
      2: { intros L HL. apply Hnone. lia. }
      assert (E0 : count_at counts' lo = 0).
      { unfold count_at. rewrite E3 by lia. rewrite Hnone by lia. reflexivity. }
      rewrite E0. split; [lia|]. split; [exact E2|]. split; [|split].
      * intros L HL. apply E3. lia.
      * intros L c' HL E. destruct (Z.eq_dec L lo) as [->|Hne].
        -- rewrite E3, Hnone in E by lia. discriminate.
        -- destruct (E4 L c' ltac:(lia) E) as (H1 & H2 & H3).
           repeat split; try lia. exact H3.
      * intros L c' HL Hcalc Hpos'. destruct (Z.eq_dec L lo) as [->|Hne].
        -- rewrite Ec in Hcalc. injection Hcalc as <-. lia.
        -- apply E5; [lia|exact Hcalc|exact Hpos'].
Qed.

(** Random pattern mode: when the counting loop ends with
    [calculation_ok], the map holds the positive counts of the analyzer for
    the lengths of the range and no other entry, the total is their sum,
    and every index below the total is turned by
    [getPatternPasswordByGlobalIndex] into a string of a length of the
    range, put together as the assembly loop does. *)
Lemma random_pattern_counts_assembled (check_stop : Z -> bool)
    (segments : list str) (charset : str) (min_length max_length total : Z)
    (counts : gmap Z Z) :
  charset <> [] -> 0 <= min_length -> max_length <= INT_MAX ->
  num_stars (calculate_pattern_info segments) <= 1 ->
  pattern_counts check_stop segments (size charset) min_length max_length
  = (true, total, counts) ->
  (forall L c, counts !! L = Some c ->
     min_length <= L <= max_length /\ 0 < c /\
     calculate_pattern_combinations segments (size charset) L = Some c) /\
  (forall L c, min_length <= L <= max_length ->
     calculate_pattern_combinations segments (size charset) L = Some c -> 0 < c ->
     counts !! L = Some c) /\
  total = sum_counts counts min_length (Z.to_nat (max_length - min_length + 1)) /\
  total <= UINT64_MAX /\
  forall g, 0 <= g < total ->
    exists (L : Z) (s : str),
      min_length <= L <= max_length /\
      getPatternPasswordByGlobalIndex g segments charset min_length max_length counts
      = Some s /\
      size s = L /\
      assembled charset (L - fixed_length (calculate_pattern_info segments)) segments s.
Proof.
  intros Hne Hmin Hmax HS Hpc. apply size_pos_of_nonempty in Hne.
  unfold pattern_counts in Hpc.
  apply count_lengths_spec in Hpc as (E1 & E2 & E3 & E4 & E5);
    [|exact Hne|unfold UINT64_MAX; lia|intros L _; apply lookup_empty].
  rewrite Z.add_0_l in E1.
  assert (Hkeys : forall L c, counts !! L = Some c ->
            min_length <= L <= max_length /\ 0 < c /\
            calculate_pattern_combinations segments (size charset) L = Some c).
  { intros L c E. destruct (Z.lt_ge_cases L min_length) as [Hlt|Hge].
    - rewrite E3, lookup_empty in E by exact Hlt. discriminate.
    - destruct (E4 L c Hge E) as (H1 & H2 & H3). repeat split; try lia. exact H3. }
  assert (Hrange : forall L c, counts !! L = Some c -> 0 <= c <= UINT64_MAX).
  { intros L c E. destruct (Hkeys L c E) as (_ & _ & Hc).
    exact (calc_range segments (size charset) L c Hne Hc). }
  split; [exact Hkeys|].
  split; [intros L c HL Hcalc Hpos; apply E5; [lia|exact Hcalc|exact Hpos]|].
  split; [exact E1|]. split; [exact E2|].
  intros g Hg. rewrite E1 in Hg.
  destruct (sum_counts_decompose counts _ _ _ Hg) as (L & j & HL & Hj & ->).
  assert (Hc : counts !! L = Some (count_at counts L)).
  { unfold count_at in *. destruct (counts !! L); cbn in *; [reflexivity|lia]. }
  destruct (Hkeys L _ Hc) as (HLr & _ & Hcalc).
  destruct (pattern_candidate_at segments charset L j _ Hne ltac:(lia) HS Hcalc Hj)
    as (s & Hs & Hsz & Hm).
  exists L, s. split; [exact HLr|]. split; [|split; assumption].
  unfold getPatternPasswordByGlobalIndex.
  rewrite (global_pattern_loop_at segments charset counts Hrange); [exact Hs|lia|exact Hj|].
  pose proof (sum_counts_nonneg counts Hrange (Z.to_nat (max_length - min_length + 1))
                min_length).
  lia.
Qed.

(** ** Plain random mode: the totals and the candidates *)

Lemma calculate_combinations_pos (C : Z) (m : nat) :
  1 <= C ->
  calculate_combinations C (Z.of_nat (S m))
  = if C ^ Z.of_nat (S m) <=? UINT64_MAX then Some (C ^ Z.of_nat (S m)) else None.
Proof.
  intros HC. unfold calculate_combinations.
  destruct (Z.leb_spec (Z.of_nat (S m)) 0); [lia|].
  rewrite power_loop_spec by (unfold UINT64_MAX; lia).
  rewrite Nat2Z.id, Z.mul_1_l. reflexivity.
Qed.

Lemma sum_combinations_spec (check_stop : Z -> bool) (C : Z) (fuel : nat) :
  1 <= C ->
  forall (m : nat) (total t : Z),
  0 <= total <= UINT64_MAX ->
  sum_combinations fuel (Z.of_nat (S m)) check_stop C total = Some t ->
  t = total + geom C (m + fuel) - geom C m /\ t <= UINT64_MAX /\
  ((1 <= fuel)%nat -> C ^ Z.of_nat (m + fuel) <= UINT64_MAX).
Proof.
  intros HC. induction fuel as [|fuel IH]; intros m total t Ht.
  - cbn [sum_combinations]. intros [= <-]. rewrite Nat.add_0_r.
    split; [lia|]. split; [lia|]. intros H. lia.
  - cbn [sum_combinations]. destruct (check_stop _); [discriminate|].
    rewrite calculate_combinations_pos by exact HC.
    destruct (Z.leb_spec (C ^ Z.of_nat (S m)) UINT64_MAX) as [Hfit|]; [|discriminate].
    pose proof (pow_ge_1 C (Z.of_nat (S m)) HC ltac:(lia)).
    destruct (Z.gtb_spec total (UINT64_MAX - C ^ Z.of_nat (S m))); [discriminate|].
    rewrite wrap64_small by lia.
    replace (Z.of_nat (S m) + 1) with (Z.of_nat (S (S m))) by lia.
    intros E. apply IH in E as (E1 & E2 & E3); [|lia].
    assert (Hs : (S m + fuel = m + S fuel)%nat) by lia. rewrite Hs in *.
    rewrite geom_succ in E1. split; [lia|]. split; [exact E2|].
    intros _. destruct fuel as [|fuel]; [|apply E3; lia].
    rewrite Nat.add_1_r. exact Hfit.
Qed.

(** Property X20.  Plain random mode: the totals are the numbers of strings of the
    lengths below [min_length] and of the lengths [min_length ..
    max_length], and every index below the target total, shifted by the
    prefix total, gives a string of a length of the range. *)
Theorem random_mode_tests_requested_lengths (check_stop : Z -> bool) (charset : str)
    (min_length max_length prefix target : Z) :
  charset <> [] -> 1 <= min_length <= max_length -> max_length <= INT_MAX ->
  random_totals check_stop (size charset) min_length max_length
  = Some (prefix, target) ->
  prefix = geom (size charset) (Z.to_nat (min_length - 1)) /\
  target = geom (size charset) (Z.to_nat max_length)
           - geom (size charset) (Z.to_nat (min_length - 1)) /\
  forall rel, 0 <= rel < target ->
    exists s : str,
      getPasswordByIndex (wrap64 (rel + prefix)) charset max_length = Some s /\
      min_length <= size s <= max_length /\
      Forall (fun c => In c charset) s.
Proof.
  intros Hne Hlen Hmax. apply size_pos_of_nonempty in Hne. unfold random_totals.
  destruct (sum_combinations (Z.to_nat (min_length - 1)) 1 check_stop (size charset) 0)
    as [p|] eqn:Ep; [|discriminate].
  destruct (sum_combinations (Z.to_nat (max_length - min_length + 1)) min_length
              check_stop (size charset) 0) as [t|] eqn:Et; [|discriminate].
  intros [= <- <-].
  change 1 with (Z.of_nat 1) in Ep.
  apply sum_combinations_spec in Ep as (Ep & _ & _);
    [|exact Hne|unfold UINT64_MAX; lia].
  cbn [geom Nat.add] in Ep. rewrite Z.add_0_l, Z.sub_0_r in Ep.
  change (Z.of_nat 1) with 1 in Ep.
  replace min_length with (Z.of_nat (S (Z.to_nat (min_length - 1)))) in Et at 2 by lia.
  apply sum_combinations_spec in Et as (Et & _ & Hfit);
    [|exact Hne|unfold UINT64_MAX; lia].
  replace (Z.to_nat (min_length - 1) + Z.to_nat (max_length - min_length + 1))%nat
    with (Z.to_nat max_length) in Et, Hfit by lia.
  specialize (Hfit ltac:(lia)). rewrite Z.add_0_l in Et.
  split; [exact Ep|]. split; [exact Et|]. intros rel Hrel.
  set (C := size charset) in *.
  pose proof (geom_nonneg C (Z.to_nat (min_length - 1)) Hne) as Hp0.
  assert (Hg : geom C (Z.to_nat max_length) - 1 <= UINT64_MAX).
  { replace (Z.to_nat max_length) with (S (Z.to_nat (max_length - 1))) in * by lia.
    apply geom_fits; [exact Hne|exact Hfit|lia]. }
  rewrite wrap64_small by lia.
  destruct (geom_decompose C (Z.to_nat max_length) (rel + p) Hne ltac:(lia))
    as (l & x & Hl & Hi & Hx).
  assert (Hlo : (Z.to_nat (min_length - 1) <= l)%nat).
  { destruct (Nat.le_gt_cases (Z.to_nat (min_length - 1)) l) as [|Hgt]; [assumption|].
    pose proof (geom_mono C (S l) (Z.to_nat (min_length - 1)) Hne ltac:(lia)) as Hm.
    rewrite geom_succ in Hm. lia. }
  assert (Hfl : C ^ Z.of_nat (S l) <= UINT64_MAX).
  { etransitivity; [|exact Hfit]. apply pow_mono; lia. }
  exists (password_of_local charset (Z.of_nat (S l)) x). subst C.
  rewrite Hi. split; [apply getPasswordByIndex_at; try lia; assumption|].
  destruct (password_of_local_spec charset (Z.of_nat (S l)) x Hne ltac:(lia) Hx)
    as [-> _].
  split; [lia|]. apply password_of_local_over; try lia; assumption.
Qed.

Lemma random_mode_tests_requested_lengths_witness :
  2 = geom (size (lit "ab")) (Z.to_nat (2 - 1)) /\
  4 = geom (size (lit "ab")) (Z.to_nat 2) - geom (size (lit "ab")) (Z.to_nat (2 - 1)) /\
  forall rel, 0 <= rel < 4 ->
    exists s : str,
      getPasswordByIndex (wrap64 (rel + 2)) (lit "ab") 2 = Some s /\
      2 <= size s <= 2 /\
      Forall (fun c => In c (lit "ab")) s.
Proof.
  apply (random_mode_tests_requested_lengths (fun _ => false) (lit "ab") 2 2 2 4).
  - discriminate.
  - lia.
  - unfold INT_MAX. lia.
  - reflexivity.
Defined.

(** ** Pattern mode: the adjusted length range *)

(** Property X21.  After the adjustment the range is not empty and starts at or above
    the fixed length; without any-many segment it is the fixed length
    alone, whatever lengths were asked for; otherwise the minimum is only
    raised to the fixed length and the maximum to the minimum. *)
Theorem adjust_lengths_range (info : PatternInfo) (min_length max_length : Z) :
  let r := adjust_lengths info min_length max_length in
  fixed_length info <= fst r <= snd r /\
  (num_stars info = 0 -> fst r = fixed_length info /\ snd r = fixed_length info) /\
  (num_stars info <> 0 ->
     fst r = Z.max min_length (fixed_length info) /\
     snd r = Z.max max_length (fst r)).
Proof.
  cbv zeta. unfold adjust_lengths. cbv zeta.
  destruct (Z.eqb_spec (num_stars info) 0) as [E|E]; cbn [andb];
    repeat match goal with
           | |- context [?a <? ?b] => destruct (Z.ltb_spec a b)
           | |- context [?a =? ?b] => destruct (Z.eqb_spec a b)
           end; cbn [negb fst snd]; repeat split; intros; try lia.
Qed.

(** ** Worker dispatcher: a stop while spawning *)

Lemma spawn_loop_prefix (check_stop : Z -> bool) (c N : Z) (fuel : nat) :
  forall t : Z,
  spawn_loop fuel t check_stop c N `prefix_of` spawn_loop fuel t (fun _ => false) c N /\
  (length (spawn_loop fuel t check_stop c N) <= fuel)%nat.
Proof.
  induction fuel as [|fuel IH]; intros t; cbn [spawn_loop].
  - split; [reflexivity|cbn; lia].
  - destruct (check_stop t); [split; [apply prefix_nil|cbn; lia]|].
    destruct (_ >=? _); [split; [reflexivity|cbn; lia]|].
    destruct (IH (t + 1)) as [IH1 IH2].
    split; [apply prefix_cons, IH1|cbn [length]; lia].
Qed.

(** Property X22.  A stop request seen while the workers are spawned only drops the last
    ranges: those handed out are the first ranges of an uninterrupted
    spawn; and never more workers than threads are spawned. *)
Theorem stop_only_drops_trailing_chunks (check_stop : Z -> bool) (N T : Z) :
  chunks check_stop N T `prefix_of` chunks (fun _ => false) N T /\
  (length (chunks check_stop N T) <= Z.to_nat T)%nat.
Proof. unfold chunks. apply spawn_loop_prefix. Qed.

(** ** Workers: what every step preserves *)

Lemma stop_flag_exists_empty (w : World) : stop_flag_exists w [] = false.
Proof. reflexivity. Qed.

Section WorkerSteps.

Variable mem : Z.
Variable disk : nat -> str -> sink.
Variable tryPassword : str -> bool.
Variable skipListFilePath : str.
Variables filter filterMutex : bool.
Variable stop_flag_path : str.

(** A relation between the world a worker starts in and a world it
    reaches, kept by each kind of step a worker makes. *)
Variable R : World -> World -> Prop.
Hypothesis R_refl : forall w, R w w.
Hypothesis R_trans : forall a b c, R a b -> R b c -> R a c.
Hypothesis R_stop :
  forall w, stop_flag_exists w stop_flag_path = true -> R w (set_stop w).
Hypothesis R_save :
  forall w ok w', stop_flag_exists w stop_flag_path = true ->
    serialize_call mem disk skipListFilePath w = Some (ok, w') -> R w (set_stop w').
Hypothesis R_test :
  forall w pwd, foundFlag w = false ->
    R w (fst (test_candidate tryPassword filter filterMutex w pwd)).

(** The loop test: nothing is done once the flag is set. *)
Ltac loop_head w :=
  destruct (negb (_ <? _)); cbn [orb];
    [intros [= <-]; apply R_refl|];
  destruct (foundFlag w) eqn:Hfound; cbn [orb];
    [intros [= <-]; apply R_refl|];
  destruct (stop_requested w); cbn [orb];
    [intros [= <-]; apply R_refl|].

Ltac tested IH w pwd :=
  pose proof (R_test w pwd ltac:(assumption)) as Ht;
  destruct (test_candidate tryPassword filter filterMutex w pwd) as [w1 returned];
  cbn [fst] in Ht;
  destruct returned;
    [intros [= <-]; exact Ht
    |intros E; apply IH in E; exact (R_trans _ _ _ Ht E)].

Lemma sequential_loop_keeps (fuel : nat) :
  forall (len idx end_idx : Z) (charset : str) (w w' : World),
  sequential_loop tryPassword filter filterMutex stop_flag_path fuel len idx end_idx
                  charset w = Some w' ->
  R w w'.
Proof.
  induction fuel as [|fuel IH]; intros len idx end_idx charset w w';
    cbn [sequential_loop]; [intros [= <-]; apply R_refl|].
  loop_head w.
  destruct (idx mod 1000 =? 0); cbn [andb].
  - destruct (negb (bool_decide (stop_flag_path = []))); cbn [andb].
    + destruct (stop_flag_exists w stop_flag_path) eqn:Hs.
      * intros [= <-]. apply R_stop, Hs.
      * tested IH w (password_of_local charset len idx).
    + tested IH w (password_of_local charset len idx).
  - tested IH w (password_of_local charset len idx).
Qed.

Lemma shuffled_index_loop_keeps (fuel : nat) :
  forall (vec_idx end_vector_idx : Z) (shuffled_indices : list Z)
         (global_index_offset : Z) (charset : str) (max_length : Z) (w w' : World),
  shuffled_index_loop tryPassword filter filterMutex stop_flag_path fuel
    vec_idx end_vector_idx shuffled_indices global_index_offset charset
    max_length w = Some w' ->
  R w w'.
Proof.
  induction fuel as [|fuel IH];
    intros vec_idx end_vector_idx shuffled_indices global_index_offset charset
           max_length w w'; cbn [shuffled_index_loop];
    [intros [= <-]; apply R_refl|].
  loop_head w. cbv zeta.
  assert (Hbody :
    match getPasswordByIndex
            (wrap64 (nth (Z.to_nat vec_idx) shuffled_indices 0 + global_index_offset))
            charset max_length with
    | Some pwd =>
        let '(w'0, returned) := test_candidate tryPassword filter filterMutex w pwd in
        if returned then Some w'0
        else shuffled_index_loop tryPassword filter filterMutex stop_flag_path fuel
               (vec_idx + 1) end_vector_idx shuffled_indices global_index_offset
               charset max_length w'0
    | None =>
        shuffled_index_loop tryPassword filter filterMutex stop_flag_path fuel
          (vec_idx + 1) end_vector_idx shuffled_indices global_index_offset
          charset max_length w
    end = Some w' -> R w w').
  { destruct (getPasswordByIndex _ charset max_length) as [pwd|];
      [tested IH w pwd|apply IH]. }
  destruct (vec_idx mod 1000 =? 0); cbn [andb]; [|exact Hbody].
  destruct (negb (bool_decide (stop_flag_path = []))); cbn [andb]; [|exact Hbody].
  destruct (stop_flag_exists w stop_flag_path) eqn:Hs; [|exact Hbody].
  intros [= <-]. apply R_stop, Hs.
Qed.

Ltac stop_branch w Hs :=
  destruct (filter && filterMutex);
    [destruct (serialize_call mem disk skipListFilePath w) as [[ok w1]|] eqn:Hc;
       [intros [= <-]; exact (R_save _ _ _ Hs Hc)|discriminate]
    |intros [= <-]; apply R_stop, Hs].

Lemma pattern_index_loop_keeps (fuel : nat) :
  forall (idx end_idx : Z) (segments : list str) (charset : str) (total_length : Z)
         (w w' : World),
  pattern_index_loop mem disk tryPassword skipListFilePath filter filterMutex
    stop_flag_path fuel idx end_idx segments charset total_length w = Some w' ->
  R w w'.
Proof.
  induction fuel as [|fuel IH]; intros idx end_idx segments charset total_length w w';
    cbn [pattern_index_loop]; [intros [= <-]; apply R_refl|].
  loop_head w.
  assert (Hbody :
    match getPatternPasswordByIndex idx segments charset total_length with
    | Some pwd =>
        let '(w'0, returned) := test_candidate tryPassword filter filterMutex w pwd in
        if returned then Some w'0
        else pattern_index_loop mem disk tryPassword skipListFilePath filter filterMutex
               stop_flag_path fuel (idx + 1) end_idx segments charset total_length w'0
    | None =>
        pattern_index_loop mem disk tryPassword skipListFilePath filter filterMutex
          stop_flag_path fuel (idx + 1) end_idx segments charset total_length w
    end = Some w' -> R w w').
  { destruct (getPatternPasswordByIndex idx segments charset total_length) as [pwd|];
      [tested IH w pwd|apply IH]. }
  destruct (idx mod 1000 =? 0); cbn [andb]; [|exact Hbody].
  destruct (stop_flag_exists w stop_flag_path) eqn:Hs; [|exact Hbody].
  stop_branch w Hs.
Qed.

Lemma shuffled_pattern_loop_keeps (fuel : nat) :
  forall (vec_idx end_vector_idx : Z) (shuffled_indices : list Z)
         (segments : list str) (charset : str) (min_len max_len : Z)
         (per_length_counts : gmap Z Z) (w w' : World),
  shuffled_pattern_loop mem disk tryPassword skipListFilePath filter filterMutex
    stop_flag_path fuel vec_idx end_vector_idx shuffled_indices segments charset
    min_len max_len per_length_counts w = Some w' ->
  R w w'.
Proof.
  induction fuel as [|fuel IH];
    intros vec_idx end_vector_idx shuffled_indices segments charset min_len max_len
           per_length_counts w w'; cbn [shuffled_pattern_loop];
    [intros [= <-]; apply R_refl|].
  loop_head w. cbv zeta.
  assert (Hbody :
    match getPatternPasswordByGlobalIndex (nth (Z.to_nat vec_idx) shuffled_indices 0)
            segments charset min_len max_len per_length_counts with
    | Some pwd =>
        let '(w'0, returned) := test_candidate tryPassword filter filterMutex w pwd in
        if returned then Some w'0
        else shuffled_pattern_loop mem disk tryPassword skipListFilePath filter filterMutex
               stop_flag_path fuel (vec_idx + 1) end_vector_idx shuffled_indices
               segments charset min_len max_len per_length_counts w'0
    | None =>
        shuffled_pattern_loop mem disk tryPassword skipListFilePath filter filterMutex
          stop_flag_path fuel (vec_idx + 1) end_vector_idx shuffled_indices
          segments charset min_len max_len per_length_counts w
    end = Some w' -> R w w').
  { destruct (getPatternPasswordByGlobalIndex _ segments charset min_len max_len
                per_length_counts) as [pwd|]; [tested IH w pwd|apply IH]. }
  destruct (vec_idx mod 1000 =? 0); cbn [andb]; [|exact Hbody].
  destruct (stop_flag_exists w stop_flag_path) eqn:Hs; [|exact Hbody].
  stop_branch w Hs.
Qed.

Lemma worker_run_keeps (w w' : World) :
  worker_run mem disk tryPassword skipListFilePath filter filterMutex stop_flag_path w w' ->
  R w w'.
Proof.
  intros [len s e charset H|s e segments charset L H
          |s e ind off charset L H|s e ind segments charset mn mx counts H].
  - unfold sequential_password_worker in H.
    destruct (size charset =? 0); [injection H as <-; apply R_refl|].
    exact (sequential_loop_keeps _ _ _ _ _ _ _ H).
  - exact (pattern_index_loop_keeps _ _ _ _ _ _ _ _ H).
  - exact (shuffled_index_loop_keeps _ _ _ _ _ _ _ _ _ H).
  - exact (shuffled_pattern_loop_keeps _ _ _ _ _ _ _ _ _ _ _ H).
Qed.

End WorkerSteps.

(** ** Workers: the password reported, the stop flag, the filter *)

Lemma test_candidate_cases (tryPassword : str -> bool) (filter filterMutex : bool)
    (w : World) (pwd : str) :
  let r := test_candidate tryPassword filter filterMutex w pwd in
  (fst r = w) \/
  (tryPassword pwd = true /\ fst r = claim_found w pwd) \/
  (fst r = set_filter w (insert (skipFilter w) pwd)).
Proof.
  cbv zeta. unfold test_candidate.
  destruct (negb (filter && contains (skipFilter w) pwd)); [|left; reflexivity].
  destruct (tryPassword pwd); [right; left; split; reflexivity|].
  destruct (filter && filterMutex); [right; right|left]; reflexivity.
Qed.

(** Property X23.  A worker that returns with the found flag set, having started without
    it, has stored a password the oracle accepted. *)
Theorem worker_reports_an_accepted_password (mem : Z) (disk : nat -> str -> sink)
    (tryPassword : str -> bool)
    (skipListFilePath : str) (filter filterMutex : bool) (stop_flag_path : str)
    (w w' : World) :
  worker_run mem disk tryPassword skipListFilePath filter filterMutex stop_flag_path w w' ->
  foundFlag w = false -> foundFlag w' = true ->
  tryPassword (foundPassword w') = true.
Proof.
  intros Hrun Hw.
  apply (worker_run_keeps mem disk tryPassword skipListFilePath filter filterMutex
           stop_flag_path
           (fun a b => (foundFlag a = true -> tryPassword (foundPassword a) = true) ->
                       foundFlag b = true -> tryPassword (foundPassword b) = true))
    with (w := w); try assumption.
  - intros a H. exact H.
  - intros a b c Hab Hbc Ha. apply Hbc, Hab, Ha.
  - intros a _ H. exact H.
  - intros a ok b _ Hs Ha. apply serialize_call_trace in Hs as (_ & _ & Hf & Hp & _).
    cbn [set_stop foundFlag foundPassword]. rewrite Hf, Hp. exact Ha.
  - intros a pwd Hf Ha.
    destruct (test_candidate_cases tryPassword filter filterMutex a pwd)
      as [-> |[[Ht ->]| ->]]; [exact Ha| |exact Ha].
    unfold claim_found. rewrite Hf. intros _. exact Ht.
  - intros E. congruence.
Qed.

Lemma worker_reports_an_accepted_password_witness :
  accepts (lit "b")
    (foundPassword (mkWorld ∅ default_filter true (lit "b") false [])) = true.
Proof.
  apply (worker_reports_an_accepted_password 1024 ample_disk (accepts (lit "b")) [] false false []
           (mkWorld ∅ default_filter false [] false [])
           (mkWorld ∅ default_filter true (lit "b") false [])).
  - apply (run_sequential _ _ _ _ _ _ _ _ _ 1 0 2 (lit "ab")). reflexivity.
  - reflexivity.
  - reflexivity.
Defined.

(** Property X24.  Without a filter, or without a skip file path, the controller passes
    an empty stop flag path, and then no worker requests a stop, writes a
    file or calls [serialize]. *)
Theorem no_stop_without_skip_list (mem : Z) (disk : nat -> str -> sink)
    (tryPassword : str -> bool)
    (skipListFilePath : str) (filter filterMutex : bool) (w w' : World) :
  filter = false \/ skipListFilePath = [] ->
  worker_run mem disk tryPassword skipListFilePath filter filterMutex
             (stop_flag_path_of filter skipListFilePath) w w' ->
  stop_requested w' = stop_requested w /\ files w' = files w /\
  serialize_calls w' = serialize_calls w.
Proof.
  intros Hoff Hrun.
  assert (Hp : stop_flag_path_of filter skipListFilePath = []).
  { unfold stop_flag_path_of. destruct Hoff as [-> | ->]; [reflexivity|].
    rewrite andb_false_r. reflexivity. }
  rewrite Hp in Hrun.
  apply (worker_run_keeps mem disk tryPassword skipListFilePath filter filterMutex []
           (fun a b => stop_requested b = stop_requested a /\ files b = files a /\
                       serialize_calls b = serialize_calls a))
    with (w := w); try assumption.
  - intros a. repeat split.
  - intros a b c (H1 & H2 & H3) (H4 & H5 & H6). repeat split; congruence.
  - intros a Ha. rewrite stop_flag_exists_empty in Ha. discriminate.
  - intros a ok b Ha. rewrite stop_flag_exists_empty in Ha. discriminate.
  - intros a pwd _.
    destruct (test_candidate_cases tryPassword filter filterMutex a pwd)
      as [-> |[[_ ->]| ->]]; [repeat split| |repeat split].
    unfold claim_found. destruct (foundFlag a); repeat split.
Qed.

Lemma no_stop_without_skip_list_witness :
  stop_requested (mkWorld {[ lit ".stop" := [] ]} default_filter true (lit "b") false [])
  = stop_requested (mkWorld {[ lit ".stop" := [] ]} default_filter false [] false []) /\
  files (mkWorld {[ lit ".stop" := [] ]} default_filter true (lit "b") false [])
  = files (mkWorld {[ lit ".stop" := [] ]} default_filter false [] false []) /\
  serialize_calls (mkWorld {[ lit ".stop" := [] ]} default_filter true (lit "b") false [])
  = serialize_calls (mkWorld {[ lit ".stop" := [] ]} default_filter false [] false []).
Proof.
  apply (no_stop_without_skip_list 1024 ample_disk (accepts (lit "b")) [] false false
           (mkWorld {[ lit ".stop" := [] ]} default_filter false [] false [])
           (mkWorld {[ lit ".stop" := [] ]} default_filter true (lit "b") false [])).
  - left. reflexivity.
  - apply (run_sequential _ _ _ _ _ _ _ _ _ 1 0 2 (lit "ab")). reflexivity.
Defined.

Lemma filter_grows_refl (w : World) : filter_grows w w.
Proof. split; [reflexivity|]. intros s H. exact H. Qed.

Lemma filter_grows_trans (a b c : World) :
  filter_grows a b -> filter_grows b c -> filter_grows a c.
Proof.
  intros [H1 H2] [H3 H4]. split; [congruence|]. intros s H. apply H4, H2, H.
Qed.

Lemma filter_grows_test (tryPassword : str -> bool) (filter filterMutex : bool)
    (w : World) (pwd : str) :
  filter_grows w (fst (test_candidate tryPassword filter filterMutex w pwd)).
Proof.
  destruct (test_candidate_cases tryPassword filter filterMutex w pwd)
    as [-> |[[_ ->]| ->]]; [apply filter_grows_refl| |].
  - unfold claim_found.
    destruct (foundFlag w); split; cbn [skipFilter]; try reflexivity;
      intros s H; exact H.
  - split; cbn [set_filter skipFilter]; [apply insert_isValid|].
    intros s. apply contains_insert_other.
Qed.

Lemma filter_grows_save (mem : Z) (disk : nat -> str -> sink) (path : str) (w w' : World) (ok : bool) :
  serialize_call mem disk path w = Some (ok, w') -> filter_grows w (set_stop w').
Proof.
  intros H. apply serialize_call_trace in H as (_ & Hf & _).
  split; cbn [set_stop skipFilter]; rewrite Hf; [reflexivity|]. intros s E. exact E.
Qed.

(** Property X25.  A worker only adds to the filter: it stays as valid as it was, and
    every item it reported is still reported when the worker returns. *)
Theorem worker_only_adds_to_filter (mem : Z) (disk : nat -> str -> sink)
    (tryPassword : str -> bool)
    (skipListFilePath : str) (filter filterMutex : bool) (stop_flag_path : str)
    (w w' : World) :
  worker_run mem disk tryPassword skipListFilePath filter filterMutex stop_flag_path w w' ->
  isValid (skipFilter w') = isValid (skipFilter w) /\
  forall s : str,
    contains (skipFilter w) s = true -> contains (skipFilter w') s = true.
Proof.
  intros Hrun.
  apply (worker_run_keeps mem disk tryPassword skipListFilePath filter filterMutex
           stop_flag_path filter_grows) with (w := w); try assumption.
  - apply filter_grows_refl.
  - apply filter_grows_trans.
  - intros a _. split; [reflexivity|]. intros s H. exact H.
  - intros a ok b _. apply filter_grows_save.
  - intros a pwd _. apply filter_grows_test.
Qed.

Lemma worker_only_adds_to_filter_witness :
  isValid (skipFilter (mkWorld ∅ (insert small_filter (lit "a")) true (lit "b") false []))
  = isValid (skipFilter (mkWorld ∅ small_filter false [] false [])) /\
  forall s : str,
    contains (skipFilter (mkWorld ∅ small_filter false [] false [])) s = true ->
    contains (skipFilter (mkWorld ∅ (insert small_filter (lit "a")) true (lit "b")
                                  false [])) s = true.
Proof.
  apply (worker_only_adds_to_filter 1024 ample_disk (accepts (lit "b")) (lit "s") true true
           (lit "s.stop")
           (mkWorld ∅ small_filter false [] false [])
           (mkWorld ∅ (insert small_filter (lit "a")) true (lit "b") false [])).
  apply (run_sequential _ _ _ _ _ _ _ _ _ 1 0 2 (lit "ab")). reflexivity.
Defined.

(** ** Sequential worker: the first accepted candidate, the recorded chunk *)

(** One iteration of the sequential worker without filter or stop flag. *)
Lemma sequential_loop_plain_step (tryPassword : str -> bool) (filterMutex : bool)
    (fuel : nat) (len idx end_idx : Z) (charset : str) (w : World) :
  foundFlag w = false -> stop_requested w = false -> idx < end_idx ->
  sequential_loop tryPassword false filterMutex [] (S fuel) len idx end_idx charset w
  = if tryPassword (password_of_local charset len idx)
    then Some (claim_found w (password_of_local charset len idx))
    else sequential_loop tryPassword false filterMutex [] fuel len (idx + 1) end_idx
                         charset w.
Proof.
  intros Hf Hs Hlt. cbn [sequential_loop]. rewrite Hf, Hs.
  destruct (Z.ltb_spec idx end_idx); [|lia]. cbn [negb orb].
  rewrite (bool_decide_eq_true_2 (@nil ascii = []) eq_refl). cbn [negb].
  rewrite andb_false_r. cbn [andb]. unfold test_candidate. cbn [andb negb].
  destruct (tryPassword (password_of_local charset len idx)); reflexivity.
Qed.

Lemma sequential_loop_none_accepted (tryPassword : str -> bool) (filterMutex : bool)
    (len end_idx : Z) (charset : str) (w : World) (fuel : nat) :
  foundFlag w = false -> stop_requested w = false ->
  forall idx : Z,
  (forall i, idx <= i < end_idx -> tryPassword (password_of_local charset len i) = false) ->
  sequential_loop tryPassword false filterMutex [] fuel len idx end_idx charset w = Some w.
Proof.
  intros Hf Hs. induction fuel as [|fuel IH]; intros idx Hnone; [reflexivity|].
  destruct (Z.lt_ge_cases idx end_idx) as [Hlt|Hge].
  - rewrite sequential_loop_plain_step by assumption.
    rewrite Hnone by lia. apply IH. intros i Hi. apply Hnone. lia.
  - cbn [sequential_loop]. destruct (Z.ltb_spec idx end_idx); [lia|]. reflexivity.
Qed.

Lemma sequential_loop_first_accepted (tryPassword : str -> bool) (filterMutex : bool)
    (len end_idx k : Z) (charset : str) (w : World) (fuel : nat) :
  foundFlag w = false -> stop_requested w = false ->
  tryPassword (password_of_local charset len k) = true ->
  forall idx : Z,
  idx <= k < end_idx -> k - idx < Z.of_nat fuel ->
  (forall i, idx <= i < k -> tryPassword (password_of_local charset len i) = false) ->
  sequential_loop tryPassword false filterMutex [] fuel len idx end_idx charset w
  = Some (claim_found w (password_of_local charset len k)).
Proof.
  intros Hf Hs Hk. induction fuel as [|fuel IH]; intros idx Hidx Hfuel Hnone; [lia|].
  rewrite sequential_loop_plain_step by (try assumption; lia).
  destruct (Z.eq_dec idx k) as [->|Hne]; [rewrite Hk; reflexivity|].
  rewrite Hnone by lia. apply IH; [lia|lia|]. intros i Hi. apply Hnone. lia.
Qed.

(** Property X26.  Without a filter, the sequential worker tries the candidates of its
    range in index order: it returns with the first one the oracle accepts
    stored as the found password, and leaves the world as it was when the
    oracle accepts none. *)
Theorem sequential_worker_finds_first (tryPassword : str -> bool)
    (skipListFilePath : str) (filterMutex : bool) (len start_idx end_idx : Z)
    (charset : str) (w : World) :
  charset <> [] -> foundFlag w = false -> stop_requested w = false ->
  start_idx <= end_idx ->
  let run :=
    sequential_password_worker tryPassword false filterMutex
      (stop_flag_path_of false skipListFilePath) len start_idx end_idx charset w in
  (forall k, start_idx <= k < end_idx ->
     tryPassword (password_of_local charset len k) = true ->
     (forall i, start_idx <= i < k ->
        tryPassword (password_of_local charset len i) = false) ->
     run = Some (mkWorld (files w) (skipFilter w) true (password_of_local charset len k)
                         (stop_requested w) (serialize_calls w))) /\
  ((forall i, start_idx <= i < end_idx ->
      tryPassword (password_of_local charset len i) = false) ->
   run = Some w).
Proof.
  intros Hne Hf Hs Hle. cbv zeta. apply size_pos_of_nonempty in Hne.
  unfold sequential_password_worker.
  change (stop_flag_path_of false skipListFilePath) with (@nil ascii).
  destruct (Z.eqb_spec (size charset) 0); [lia|]. split.
  - intros k Hk Hacc Hnone.
    rewrite (sequential_loop_first_accepted tryPassword filterMutex len end_idx k)
      by (try assumption; lia).
    unfold claim_found. rewrite Hf. reflexivity.
  - intros Hnone. apply sequential_loop_none_accepted; assumption.
Qed.

Lemma sequential_worker_finds_first_witness :
  (forall k, 0 <= k < 2 ->
     accepts (lit "b") (password_of_local (lit "ab") 1 k) = true ->
     (forall i, 0 <= i < k ->
        accepts (lit "b") (password_of_local (lit "ab") 1 i) = false) ->
     sequential_password_worker (accepts (lit "b")) false false
       (stop_flag_path_of false (lit "s")) 1 0 2 (lit "ab")
       (mkWorld ∅ default_filter false [] false [])
     = Some (mkWorld (files (mkWorld ∅ default_filter false [] false []))
                     (skipFilter (mkWorld ∅ default_filter false [] false []))
                     true (password_of_local (lit "ab") 1 k)
                     (stop_requested (mkWorld ∅ default_filter false [] false []))
                     (serialize_calls (mkWorld ∅ default_filter false [] false [])))) /\
  ((forall i, 0 <= i < 2 ->
      accepts (lit "b") (password_of_local (lit "ab") 1 i) = false) ->
   sequential_password_worker (accepts (lit "b")) false false
     (stop_flag_path_of false (lit "s")) 1 0 2 (lit "ab")
     (mkWorld ∅ default_filter false [] false [])
   = Some (mkWorld ∅ default_filter false [] false [])).
Proof.
  apply (sequential_worker_finds_first (accepts (lit "b")) (lit "s") false 1 0 2
           (lit "ab") (mkWorld ∅ default_filter false [] false [])).
  - discriminate.
  - reflexivity.
  - reflexivity.
  - lia.
Defined.

Lemma sequential_loop_grows (tryPassword : str -> bool) (filter filterMutex : bool)
    (stop_flag_path : str) (fuel : nat) (len idx end_idx : Z) (charset : str)
    (w w' : World) :
  sequential_loop tryPassword filter filterMutex stop_flag_path fuel len idx end_idx
                  charset w = Some w' ->
  filter_grows w w'.
Proof.
  apply (sequential_loop_keeps tryPassword filter filterMutex stop_flag_path
           filter_grows).
  - apply filter_grows_refl.
  - apply filter_grows_trans.
  - intros a _. split; [reflexivity|]. intros s H. exact H.
  - intros a pwd _. apply filter_grows_test.
Qed.

Lemma sequential_loop_records (mem : Z) (tryPassword : str -> bool)
    (stop_flag_path : str) (len end_idx : Z) (charset : str) (fuel : nat) :
  forall (idx : Z) (w w' : World),
  wf_filter mem (skipFilter w) -> isValid (skipFilter w) = true ->
  end_idx - idx <= Z.of_nat fuel ->
  sequential_loop tryPassword true true stop_flag_path fuel len idx end_idx charset w
  = Some w' ->
  foundFlag w' = false -> stop_requested w' = false ->
  forall i, idx <= i < end_idx ->
    contains (skipFilter w') (password_of_local charset len i) = true.
Proof.
  induction fuel as [|fuel IH]; intros idx w w' Hwf Hv Hfuel; [intros; lia|].
  cbn [sequential_loop].
  destruct (Z.ltb_spec idx end_idx) as [Hlt|Hge]; cbn [negb orb];
    [|intros [= <-] _ _ i Hi; lia].
  destruct (foundFlag w) eqn:Hf; cbn [orb]; [intros [= <-]; congruence|].
  destruct (stop_requested w) eqn:Hs; cbn [orb]; [intros [= <-]; congruence|].
  match goal with
  | |- (if ?c then _ else _) = _ -> _ =>
      destruct c; [intros [= <-]; cbn [set_stop stop_requested]; discriminate|]
  end.
  set (pwd := password_of_local charset len idx).
  unfold test_candidate. cbn [andb].
  destruct (contains (skipFilter w) pwd) eqn:Hc; cbn [negb].
  - intros E Hf' Hs' i Hi. destruct (Z.eq_dec i idx) as [->|Hne].
    + apply sequential_loop_grows in E as [_ Hg]. apply Hg, Hc.
    + apply (IH (idx + 1) w w' Hwf Hv ltac:(lia) E Hf' Hs'). lia.
  - destruct (tryPassword pwd).
    + intros [= <-]. unfold claim_found. rewrite Hf. cbn [foundFlag]. discriminate.
    + intros E Hf' Hs' i Hi. destruct (Z.eq_dec i idx) as [->|Hne].
      * apply sequential_loop_grows in E as [_ Hg]. apply Hg.
        cbn [set_filter skipFilter]. apply (contains_insert_same mem); assumption.
      * apply (IH (idx + 1) (set_filter w (insert (skipFilter w) pwd)) w');
          try assumption; try lia.
        -- cbn [set_filter skipFilter]. apply insert_wf, Hwf.
        -- cbn [set_filter skipFilter]. rewrite insert_isValid. exact Hv.
Qed.

(** Property X27.  With a valid filter, a sequential worker that returns without a found
    password and without a stop request has gone through its whole range,
    and the filter then reports every candidate of the range. *)
Theorem exhausted_chunk_is_recorded (mem : Z) (tryPassword : str -> bool)
    (stop_flag_path : str) (len start_idx end_idx : Z) (charset : str)
    (w w' : World) :
  0 <= mem < 2 ^ 60 -> reachable mem (skipFilter w) ->
  isValid (skipFilter w) = true -> charset <> [] ->
  sequential_password_worker tryPassword true true stop_flag_path len start_idx end_idx
                             charset w = Some w' ->
  foundFlag w' = false -> stop_requested w' = false ->
  forall i, start_idx <= i < end_idx ->
    contains (skipFilter w') (password_of_local charset len i) = true.
Proof.
  intros Hmem Hreach Hv Hne Hrun Hf Hs. apply size_pos_of_nonempty in Hne.
  unfold sequential_password_worker in Hrun.
  destruct (Z.eqb_spec (size charset) 0); [lia|].
  apply (sequential_loop_records mem tryPassword stop_flag_path len end_idx charset
           (Z.to_nat (end_idx - start_idx)) start_idx w w'); try assumption; [|lia].
  apply reachable_wf; assumption.
Qed.

Lemma exhausted_chunk_is_recorded_witness :
  contains
    (skipFilter
       (mkWorld ∅ (insert (insert small_filter (lit "a")) (lit "b")) false [] false []))
    (password_of_local (lit "ab") 1 1) = true.
Proof.
  apply (exhausted_chunk_is_recorded 1024 (fun _ => false) (lit "s.stop") 1 0 2
           (lit "ab") (mkWorld ∅ small_filter false [] false [])).
  - lia.
  - exact small_filter_reachable.
  - reflexivity.
  - discriminate.
  - reflexivity.
  - reflexivity.
  - reflexivity.
  - lia.
Defined.

(** ** Program entry: the estimate and the skip list handed to the search *)

Lemma estimate_loop_spec (C : Z) (fuel : nat) :
  1 <= C ->
  forall (m : nat) (total : Z),
  0 <= total <= UINT64_MAX ->
  estimate_loop fuel (Z.of_nat (S m)) C total
  = if total + geom C (m + fuel) - geom C m <=? UINT64_MAX
    then Some (total + geom C (m + fuel) - geom C m) else None.
Proof.
  intros HC. induction fuel as [|fuel IH]; intros m total Ht.
  - cbn [estimate_loop]. rewrite Nat.add_0_r.
    destruct (Z.leb_spec (total + geom C m - geom C m) UINT64_MAX); [f_equal; lia|lia].
  - cbn [estimate_loop]. rewrite Nat2Z.id.
    rewrite power_loop_spec by (unfold UINT64_MAX; lia). rewrite Z.mul_1_l.
    pose proof (pow_ge_1 C (Z.of_nat (S m)) HC ltac:(lia)) as Hp.
    pose proof (geom_mono C (S m) (m + S fuel) HC ltac:(lia)) as Hmono.
    rewrite geom_succ in Hmono.
    assert (Hs : (S m + fuel = m + S fuel)%nat) by lia.
    destruct (Z.leb_spec (C ^ Z.of_nat (S m)) UINT64_MAX) as [Hfit|Hov].
    + destruct (Z.gtb_spec total (UINT64_MAX - C ^ Z.of_nat (S m))) as [Hov|Hok].
      * destruct (Z.leb_spec (total + geom C (m + S fuel) - geom C m) UINT64_MAX);
          [lia|reflexivity].
      * rewrite wrap64_small by lia.
        replace (Z.of_nat (S m) + 1) with (Z.of_nat (S (S m))) by lia.
        rewrite IH by lia. rewrite Hs, geom_succ.
        replace (total + C ^ Z.of_nat (S m) + geom C (m + S fuel)
                 - (geom C m + C ^ Z.of_nat (S m)))
          with (total + geom C (m + S fuel) - geom C m) by lia.
        reflexivity.
    + destruct (Z.leb_spec (total + geom C (m + S fuel) - geom C m) UINT64_MAX);
        [lia|reflexivity].
Qed.

Lemma estimated_items_spec (C min_length max_length : Z) :
  1 <= min_length <= max_length ->
  estimated_items C min_length max_length
  = if (C >? 0) && (geom C (Z.to_nat max_length) - geom C (Z.to_nat (min_length - 1))
                    <=? UINT64_MAX)
    then Some (geom C (Z.to_nat max_length) - geom C (Z.to_nat (min_length - 1)))
    else None.
Proof.
  intros Hr. unfold estimated_items.
  destruct (Z.gtb_spec C 0) as [HC|]; [|reflexivity]. cbn [andb].
  replace min_length with (Z.of_nat (S (Z.to_nat (min_length - 1)))) at 2 by lia.
  rewrite estimate_loop_spec by (unfold UINT64_MAX; lia).
  replace (Z.to_nat (min_length - 1) + Z.to_nat (max_length - min_length + 1))%nat
    with (Z.to_nat max_length) by lia.
  rewrite !Z.add_0_l. reflexivity.
Qed.



(** Property X29.  [main] hands the search a skip list only with a valid filter: the
    path it leaves is empty, or it is the path given and the filter is
    valid. *)
Theorem skip_list_kept_only_with_valid_filter (mem : Z) (skipListFilePath : str)
    (files : gmap str (list byte)) (skipFilter : BloomFilter) (charset : str)
    (min_length max_length tentative_ceil : Z) (fl : sizing) :
  let r := init_skip_filter mem skipListFilePath files skipFilter charset
                            min_length max_length tentative_ceil fl in
  fst r = [] \/ (fst r = skipListFilePath /\ isValid (snd r) = true).
Proof.
  cbv zeta. unfold init_skip_filter.
  case_bool_decide as Hp; [left; exact Hp|].
  destruct (deserialize mem skipFilter (open_in files skipListFilePath)) as [o bf0].
  destruct (_ && isValid bf0) eqn:Hl.
  - right. apply andb_true_iff in Hl as [_ Hv]. split; [reflexivity|exact Hv].
  - destruct (estimated_items _ _ _) as [n|]; [|left; reflexivity].
    destruct (_ || _); [left; reflexivity|].
    destruct (_ >? MAX_FILTER_BITS); [left; reflexivity|].
    destruct (construct mem n FP_RATE fl) as [bf|]; [|left; reflexivity].
    destruct (isValid bf) eqn:Hv; [right; split; [reflexivity|exact Hv]|left; reflexivity].
Qed.

(** Property X30.  When no valid skip list could be loaded and [main] keeps the skip
    list, the filter is a new valid one, constructed for exactly the
    number of strings of the lengths [min_length .. max_length], which is
    positive and fits in 64 bits. *)
Theorem new_skip_filter_sized_for_range (mem : Z) (skipListFilePath : str)
    (files : gmap str (list byte)) (skipFilter : BloomFilter) (charset : str)
    (min_length max_length tentative_ceil : Z) (fl : sizing)
    (o : outcome) (bf0 : BloomFilter) (p : str) (bf : BloomFilter) :
  1 <= min_length <= max_length ->
  deserialize mem skipFilter (open_in files skipListFilePath) = (o, bf0) ->
  o <> Returned true \/ isValid bf0 = false ->
  init_skip_filter mem skipListFilePath files skipFilter charset
                   min_length max_length tentative_ceil fl = (p, bf) ->
  p <> [] ->
  let n := geom (size charset) (Z.to_nat max_length)
           - geom (size charset) (Z.to_nat (min_length - 1)) in
  p = skipListFilePath /\ 0 < n <= UINT64_MAX /\
  construct mem n FP_RATE fl = Some bf /\ isValid bf = true.
Proof.
  intros Hr Hd Hbad Hinit Hp n. unfold init_skip_filter in Hinit.
  case_bool_decide as Hpath; [congruence|].
  rewrite Hd in Hinit.
  assert (Hl : (match o with Returned b => b | Thrown => false end) && isValid bf0
               = false).
  { destruct Hbad as [Ho|Hv]; [|rewrite Hv; apply andb_false_r].
    destruct o as [[|]|]; [congruence|reflexivity|reflexivity]. }
  rewrite Hl in Hinit. rewrite estimated_items_spec in Hinit by exact Hr. fold n in Hinit.
  destruct ((size charset >? 0) && (n <=? UINT64_MAX)) eqn:Hfit;
    [|injection Hinit as <- _; congruence].
  apply andb_true_iff in Hfit as [HC Hfit]. apply Z.leb_le in Hfit.
  apply Z.gtb_lt in HC.
  destruct (_ || (n =? 0)) eqn:Hz; [injection Hinit as <- _; congruence|].
  apply orb_false_iff in Hz as [_ Hz]. apply Z.eqb_neq in Hz.
  destruct (_ >? MAX_FILTER_BITS); [injection Hinit as <- _; congruence|].
  destruct (construct mem n FP_RATE fl) as [bf1|] eqn:Hc;
    [|injection Hinit as <- _; congruence].
  destruct (isValid bf1) eqn:Hv; [|injection Hinit as <- _; congruence].
  injection Hinit as <- <-.
  pose proof (geom_mono (size charset) (Z.to_nat (min_length - 1)) (Z.to_nat max_length)
                ltac:(lia) ltac:(lia)) as Hmono.
  split; [reflexivity|]. split; [unfold n in *; lia|]. split; [reflexivity|exact Hv].
Qed.

Lemma new_skip_filter_sized_for_range_witness :
  lit "s" = lit "s" /\
  0 < geom (size (lit "ab")) (Z.to_nat 2) - geom (size (lit "ab")) (Z.to_nat (1 - 1))
    <= UINT64_MAX /\
  construct 1024
    (geom (size (lit "ab")) (Z.to_nat 2) - geom (size (lit "ab")) (Z.to_nat (1 - 1)))
    FP_RATE (mkSizing true 58 7)
  = Some (mkBloomFilter 58 7 6 FP_RATE (resize 58%nat false [])) /\
  isValid (mkBloomFilter 58 7 6 FP_RATE (resize 58%nat false [])) = true.
Proof.
  apply (new_skip_filter_sized_for_range 1024 (lit "s") ∅ default_filter (lit "ab")
           1 2 58 (mkSizing true 58 7) (Returned false) default_filter).
  - lia.
  - reflexivity.
  - left. discriminate.
  - reflexivity.
  - discriminate.
Defined.

(** ** The parser against the pattern language of the specification *)

(** Two steps of the parser on an escaped character. *)
Lemma parse_step_escaped (acc : list str) (cur : str) (d : ascii) :
  parse_step (parse_step (mkParseState acc cur false) "\"%char) d
  = mkParseState acc (cur ++ [d]) false.
Proof.
  unfold parse_step at 2. cbn [escape segments_acc current_segment].
  rewrite (bool_decide_eq_true_2 ("\"%char = "\"%char) eq_refl). reflexivity.
Qed.

Ltac glue_literal tokens cur :=
  destruct tokens as [|[?| |] ?]; cbn [add_literal map];
    rewrite <- ?app_assoc; try reflexivity; destruct cur; reflexivity.

(** The parser, entered with a pending literal [cur], ends with the
    segments of the tokens of the rest, [cur] being glued to a literal
    that comes first. *)
Lemma parse_from (n : nat) :
  forall (pattern cur : str), (length pattern <= n)%nat ->
  let st := fold_left parse_step pattern (mkParseState [] cur false) in
  match current_segment st with
  | [] => segments_acc st
  | _ => segments_acc st ++ [current_segment st]
  end
  = match spec_tokens pattern with
    | literal s :: tokens' => (cur ++ s) :: map segment_of tokens'
    | tokens => match cur with [] => [] | _ => [cur] end ++ map segment_of tokens
    end.
Proof.
  induction n as [|n IH]; intros pattern cur Hlen; cbv zeta.
  { destruct pattern; [|cbn in Hlen; lia]. cbn. destruct cur; reflexivity. }
  destruct pattern as [|c rest]; [cbn; destruct cur; reflexivity|].
  cbn [length] in Hlen. cbn [spec_tokens]. case_bool_decide as Hb.
  - subst c. destruct rest as [|d rest'].
    + cbn. destruct cur; reflexivity.
    + cbn [fold_left]. rewrite parse_step_escaped.
      specialize (IH rest' (cur ++ [d]) ltac:(cbn [length] in Hlen; lia)).
      cbv zeta in IH. rewrite IH. glue_literal (spec_tokens rest') cur.
  - cbn [fold_left].
    assert (Hw : forall t : token,
      (c = "?"%char \/ c = "*"%char) -> segment_of t = [c] ->
      (let st := fold_left parse_step rest
                   (parse_step (mkParseState [] cur false) c) in
       match current_segment st with
       | [] => segments_acc st
       | _ => segments_acc st ++ [current_segment st]
       end)
      = match cur with [] => [] | _ => [cur] end
        ++ map segment_of (t :: spec_tokens rest)).
    { intros t Hc Ht. cbv zeta.
      assert (Hstep : parse_step (mkParseState [] cur false) c
        = mkParseState ((match cur with [] => [] | _ => [cur] end ++ [[c]]) ++ [])
                       [] false).
      { unfold parse_step. cbn [escape segments_acc current_segment].
        rewrite (bool_decide_eq_false_2 _ Hb).
        destruct Hc as [-> | ->]; cbn [orb]; rewrite app_nil_r; destruct cur; reflexivity. }
      rewrite Hstep, parse_fold_prefix. cbv zeta.
      cbn [current_segment segments_acc].
      specialize (IH rest [] ltac:(lia)). cbv zeta in IH.
      assert (E : match current_segment
                          (fold_left parse_step rest (mkParseState [] [] false)) with
                  | [] => (match cur with [] => [] | _ => [cur] end ++ [[c]])
                          ++ segments_acc
                               (fold_left parse_step rest (mkParseState [] [] false))
                  | _ => ((match cur with [] => [] | _ => [cur] end ++ [[c]])
                          ++ segments_acc
                               (fold_left parse_step rest (mkParseState [] [] false)))
                         ++ [current_segment
                               (fold_left parse_step rest (mkParseState [] [] false))]
                  end
                  = (match cur with [] => [] | _ => [cur] end ++ [[c]])
                    ++ map segment_of (spec_tokens rest)).
      { rewrite <- (app_nil_l (map segment_of (spec_tokens rest))).
        replace ([] ++ map segment_of (spec_tokens rest))
          with (match spec_tokens rest with
                | literal s :: tokens' => ([] ++ s) :: map segment_of tokens'
                | tokens => [] ++ map segment_of tokens
                end)
          by (destruct (spec_tokens rest) as [|[s| |] ts]; reflexivity).
        rewrite <- IH.
        destruct (current_segment _); rewrite <- ?app_assoc; reflexivity. }
      rewrite E. cbn [map]. rewrite Ht, <- app_assoc. reflexivity. }
    case_bool_decide as Hq.
    + apply (Hw any_one); [left; exact Hq|subst c; reflexivity].
    + case_bool_decide as Hs.
      * apply (Hw any_many); [right; exact Hs|subst c; reflexivity].
      * assert (Hstep : parse_step (mkParseState [] cur false) c
                        = mkParseState [] (cur ++ [c]) false).
        { unfold parse_step. cbn [escape segments_acc current_segment].
          rewrite (bool_decide_eq_false_2 _ Hb), (bool_decide_eq_false_2 _ Hq),
            (bool_decide_eq_false_2 _ Hs). reflexivity. }
        rewrite Hstep.
        specialize (IH rest (cur ++ [c]) ltac:(lia)). cbv zeta in IH.
        rewrite IH. glue_literal (spec_tokens rest) cur.
Qed.

(** The parser emits the segments of the tokens of the specification. *)
Lemma parse_pattern_tokens (pattern : str) :
  parse_pattern pattern = map segment_of (spec_tokens pattern).
Proof.
  unfold parse_pattern. cbv zeta.
  rewrite (parse_from (length pattern) pattern [] (le_n _)).
  destruct (spec_tokens pattern) as [|[s| |] ts]; reflexivity.
Qed.

(** The assembly loop reads a segment as the token it comes from, unless
    the token is a literal "?" or "*". *)
Lemma appended_token (charset : str) (star_len : Z) (t : token) (piece : str) :
  t <> literal QMARK -> t <> literal STAR ->
  (appended charset star_len (segment_of t) piece <->
   token_ok charset t piece /\ (t = any_many -> size piece = star_len)).
Proof.
  intros HQ HS. unfold appended. destruct t as [s| |]; cbn [segment_of token_ok].
  - rewrite (bool_decide_eq_false_2 (s = QMARK)) by congruence.
    rewrite (bool_decide_eq_false_2 (s = STAR)) by congruence.
    split; [intros ->; split; [reflexivity|discriminate]|intros [-> _]; reflexivity].
  - rewrite (bool_decide_eq_true_2 (QMARK = QMARK) eq_refl).
    split; [intros H; split; [exact H|discriminate]|intros [H _]; exact H].
  - rewrite (bool_decide_eq_false_2 (STAR = QMARK)) by discriminate.
    rewrite (bool_decide_eq_true_2 (STAR = STAR) eq_refl).
    split; [intros [H1 H2]; split; [exact H2|intros _; exact H1]
           |intros [H1 H2]; split; [apply H2; reflexivity|exact H1]].
Qed.

Lemma assembled_tokens (charset : str) (star_len : Z) (tokens : list token) :
  ~ In (literal QMARK) tokens -> ~ In (literal STAR) tokens ->
  forall pieces : list str,
  Forall2 (appended charset star_len) (map segment_of tokens) pieces ->
  Forall2 (token_ok charset) tokens pieces.
Proof.
  induction tokens as [|t tokens IH]; intros HQ HS pieces H; cbn [map] in H.
  - inversion H. constructor.
  - inversion H as [|seg piece segs pieces' Hp Hrest]; subst. constructor.
    + apply (appended_token charset star_len t piece) in Hp as [Hp _];
        [exact Hp| |]; intros ->; [apply HQ|apply HS]; left; reflexivity.
    + apply IH; [| |exact Hrest]; intros Hin; [apply HQ|apply HS]; right; exact Hin.
Qed.

(** The pieces of a match, read back as the assembly loop would have
    appended them: with no "*" for any star length, with one "*" for the
    length that is left over. *)
Lemma tokens_assembled (charset : str) (tokens : list token) :
  ~ In (literal QMARK) tokens -> ~ In (literal STAR) tokens ->
  forall pieces : list str,
  Forall2 (token_ok charset) tokens pieces ->
  let info := calculate_pattern_info (map segment_of tokens) in
  (num_stars info = 0 ->
   size (concat pieces) = fixed_length info /\
   forall star_len,
     Forall2 (appended charset star_len) (map segment_of tokens) pieces) /\
  (num_stars info = 1 ->
   Forall2 (appended charset (size (concat pieces) - fixed_length info))
           (map segment_of tokens) pieces).
Proof.
  induction tokens as [|t tokens IH]; intros HQ HS pieces H; cbv zeta.
  - inversion H. subst. cbn [map concat].
    change (calculate_pattern_info []) with (mkPatternInfo 0 0).
    cbn [num_stars fixed_length]. split; [|intros E; lia].
    intros _. split; [reflexivity|]. intros sl. constructor.
  - inversion H as [|t' piece ts pieces' Hp Hrest]; subst. cbn [map concat].
    assert (HQ' : ~ In (literal QMARK) tokens) by (intros Hin; apply HQ; right; exact Hin).
    assert (HS' : ~ In (literal STAR) tokens) by (intros Hin; apply HS; right; exact Hin).
    assert (HtQ : t <> literal QMARK) by (intros ->; apply HQ; left; reflexivity).
    assert (HtS : t <> literal STAR) by (intros ->; apply HS; left; reflexivity).
    destruct (IH HQ' HS' pieces' Hrest) as [IH0 IH1]. cbv zeta in IH0, IH1.
    destruct (info_nonneg (map segment_of tokens)) as [Hs0 _].
    rewrite info_cons, size_app. cbn [num_stars fixed_length].
    destruct t as [s| |]; cbn [segment_of token_ok] in *.
    + rewrite (bool_decide_eq_false_2 (s = QMARK)) by congruence.
      rewrite (bool_decide_eq_false_2 (s = STAR)) by congruence.
      subst piece. split.
      * intros E. destruct (IH0 ltac:(lia)) as [Hsz Hall]. split; [lia|].
        intros sl. constructor; [|apply Hall].
        apply (appended_token charset sl (literal s)); try assumption.
        split; [reflexivity|discriminate].
      * intros E. specialize (IH1 ltac:(lia)). constructor.
        -- apply (appended_token charset _ (literal s)); try assumption.
           split; [reflexivity|discriminate].
        -- replace (size s + size (concat pieces')
                    - (size s + fixed_length (calculate_pattern_info
                                               (map segment_of tokens))))
             with (size (concat pieces')
                   - fixed_length (calculate_pattern_info (map segment_of tokens)))
             by lia.
           exact IH1.
    + rewrite (bool_decide_eq_true_2 (QMARK = QMARK) eq_refl).
      rewrite (bool_decide_eq_false_2 (QMARK = STAR)) by discriminate.
      destruct Hp as (c & Hc & ->). change (size [c]) with 1. split.
      * intros E. destruct (IH0 ltac:(lia)) as [Hsz Hall]. split; [lia|].
        intros sl. constructor; [|apply Hall].
        apply (appended_token charset sl any_one); try discriminate.
        split; [exists c; split; [exact Hc|reflexivity]|discriminate].
      * intros E. specialize (IH1 ltac:(lia)). constructor.
        -- apply (appended_token charset _ any_one); try discriminate.
           split; [exists c; split; [exact Hc|reflexivity]|discriminate].
        -- replace (1 + size (concat pieces')
                    - (1 + fixed_length (calculate_pattern_info
                                          (map segment_of tokens))))
             with (size (concat pieces')
                   - fixed_length (calculate_pattern_info (map segment_of tokens)))
             by lia.
           exact IH1.
    + rewrite (bool_decide_eq_true_2 (STAR = STAR) eq_refl).
      split; [intros E; lia|].
      intros E. destruct (IH0 ltac:(lia)) as [Hsz Hall].
      replace (size piece + size (concat pieces')
               - (0 + fixed_length (calculate_pattern_info (map segment_of tokens))))
        with (size piece) by lia.
      constructor; [|apply Hall].
      apply (appended_token charset _ any_many); try discriminate.
      split; [exact Hp|reflexivity].
Qed.

(** For a pattern without an escaped wildcard standing alone, what the
    assembly loop puts together matches the pattern. *)
Lemma assembled_matches (charset pattern s : str) (star_len : Z) :
  ~ In (literal QMARK) (spec_tokens pattern) ->
  ~ In (literal STAR) (spec_tokens pattern) ->
  assembled charset star_len (parse_pattern pattern) s ->
  spec_matches charset pattern s.
Proof.
  intros HQ HS (pieces & -> & Hp). exists pieces. split; [reflexivity|].
  rewrite parse_pattern_tokens in Hp.
  exact (assembled_tokens charset star_len _ HQ HS pieces Hp).
Qed.

(** And with at most one any-many, a match is put together as the
    assembly loop does at the length of the string. *)
Lemma matches_assembled (charset pattern s : str) :
  ~ In (literal QMARK) (spec_tokens pattern) ->
  ~ In (literal STAR) (spec_tokens pattern) ->
  num_stars (calculate_pattern_info (parse_pattern pattern)) <= 1 ->
  spec_matches charset pattern s ->
  assembled charset
    (size s - fixed_length (calculate_pattern_info (parse_pattern pattern)))
    (parse_pattern pattern) s.
Proof.
  intros HQ HS Hstars (pieces & -> & Hp). exists pieces. split; [reflexivity|].
  destruct (info_nonneg (parse_pattern pattern)) as [Hs0 _].
  rewrite parse_pattern_tokens in *.
  destruct (tokens_assembled charset _ HQ HS pieces Hp) as [H0 H1].
  cbv zeta in H0, H1.
  destruct (Z.eq_dec (num_stars (calculate_pattern_info
                                   (map segment_of (spec_tokens pattern)))) 0)
    as [E|E].
  - destruct (H0 E) as [_ Hall]. apply Hall.
  - apply H1. lia.
Qed.

(** ** Pattern candidates against the pattern language *)

(** Claim C2 fails on an escaped wildcard that stands alone.  For the
    pattern [?\?], any-one followed by the literal "?", the parser holds
    two segments "?", and [getPatternPasswordByIndex] fills both from the
    charset: index 0 at length 2 gives "xx", which does not end with the
    literal. *)
Theorem escaped_wildcard_is_filled :
  spec_tokens (lit "?\?") = [any_one; literal QMARK] /\
  parse_pattern (lit "?\?") = [QMARK; QMARK] /\
  num_stars (calculate_pattern_info (parse_pattern (lit "?\?"))) = 0 /\
  calculate_pattern_combinations (parse_pattern (lit "?\?")) (size (lit "xy")) 2
  = Some 4 /\
  getPatternPasswordByIndex 0 (parse_pattern (lit "?\?")) (lit "xy") 2
  = Some (lit "xx") /\
  ~ spec_matches (lit "xy") (lit "?\?") (lit "xx") /\
  spec_matches (lit "xy") (lit "?\?") (lit "x?").
Proof.
  split; [reflexivity|]. split; [reflexivity|]. split; [reflexivity|].
  split; [reflexivity|]. split; [reflexivity|]. split.
  - intros (pieces & Hs & Hp). change (spec_tokens (lit "?\?"))
      with [any_one; literal QMARK] in Hp.
    inversion Hp as [|t1 p1 ts1 ps1 H1 Hr1]; subst.
    inversion Hr1 as [|t2 p2 ts2 ps2 H2 Hr2]; subst.
    inversion Hr2; subst. cbn [token_ok] in H1, H2.
    destruct H1 as (c & _ & ->). subst p2. discriminate Hs.
  - exists [lit "x"; QMARK]. split; [reflexivity|].
    change (spec_tokens (lit "?\?")) with [any_one; literal QMARK].
    constructor; [|constructor; [reflexivity|constructor]].
    exists "x"%char. split; [left; reflexivity|reflexivity].
Qed.

(** Property X14.  For a pattern with at most one any-many and no escaped
    wildcard standing alone, at a length [L] with count [n]: every index
    below [n] gives a string of length [L] that matches the pattern, every
    string of length [L] that matches the pattern is given by an index
    below [n], and with pairwise distinct charset characters two indices
    below [n] never give the same string. *)
Theorem pattern_enumeration_bijective (pattern charset : str) (L n : Z) :
  charset <> [] -> 0 <= L <= INT_MAX ->
  ~ In (literal QMARK) (spec_tokens pattern) ->
  ~ In (literal STAR) (spec_tokens pattern) ->
  num_stars (calculate_pattern_info (parse_pattern pattern)) <= 1 ->
  calculate_pattern_combinations (parse_pattern pattern) (size charset) L = Some n ->
  (forall j, 0 <= j < n ->
     exists s : str,
       getPatternPasswordByIndex j (parse_pattern pattern) charset L = Some s /\
       size s = L /\ spec_matches charset pattern s) /\
  (forall s : str, size s = L -> spec_matches charset pattern s ->
     exists j, 0 <= j < n /\
       getPatternPasswordByIndex j (parse_pattern pattern) charset L = Some s) /\
  (NoDup charset ->
   forall j j', 0 <= j < n -> 0 <= j' < n ->
     getPatternPasswordByIndex j (parse_pattern pattern) charset L
     = getPatternPasswordByIndex j' (parse_pattern pattern) charset L ->
     j = j').
Proof.
  intros Hne HL HQ HS Hstars Hcount.
  destruct (pattern_enumeration_assembled (parse_pattern pattern) charset L n
              Hne HL Hstars Hcount) as [Honto Hinj].
  split; [|split; [|exact Hinj]].
  - intros j Hj.
    destruct (pattern_candidate_at (parse_pattern pattern) charset L j n
                (size_pos_of_nonempty charset Hne) HL Hstars Hcount Hj)
      as (s & Hs & Hsz & Hm).
    exists s. split; [exact Hs|]. split; [exact Hsz|].
    exact (assembled_matches charset pattern s _ HQ HS Hm).
  - intros s Hsz Hm. apply Honto; [exact Hsz|]. rewrite <- Hsz.
    apply matches_assembled; assumption.
Qed.

Lemma pattern_enumeration_bijective_witness :
  (forall j, 0 <= j < 4 ->
     exists s : str,
       getPatternPasswordByIndex j (parse_pattern (lit "a\?*b")) (lit "xy") 5 = Some s /\
       size s = 5 /\ spec_matches (lit "xy") (lit "a\?*b") s) /\
  (forall s : str, size s = 5 -> spec_matches (lit "xy") (lit "a\?*b") s ->
     exists j, 0 <= j < 4 /\
       getPatternPasswordByIndex j (parse_pattern (lit "a\?*b")) (lit "xy") 5 = Some s) /\
  (NoDup (lit "xy") ->
   forall j j', 0 <= j < 4 -> 0 <= j' < 4 ->
     getPatternPasswordByIndex j (parse_pattern (lit "a\?*b")) (lit "xy") 5
     = getPatternPasswordByIndex j' (parse_pattern (lit "a\?*b")) (lit "xy") 5 ->
     j = j').
Proof.
  apply (pattern_enumeration_bijective (lit "a\?*b") (lit "xy") 5 4).
  - discriminate.
  - unfold INT_MAX. lia.
  - intros [H|[H|[H|[]]]]; discriminate H.
  - intros [H|[H|[H|[]]]]; discriminate H.
  - vm_compute. discriminate.
  - reflexivity.
Defined.

(** Property X19.  Random pattern mode, for a pattern with at most one
    any-many and no escaped wildcard standing alone: when the counting
    loop ends with [calculation_ok], the map holds exactly the positive
    counts of the analyzer for the lengths of the range, the total is
    their sum, and every index below the total is turned by
    [getPatternPasswordByGlobalIndex] into a string of a length of the
    range that matches the pattern. *)
Theorem random_pattern_candidates_match (check_stop : Z -> bool)
    (pattern charset : str) (min_length max_length total : Z) (counts : gmap Z Z) :
  charset <> [] -> 0 <= min_length -> max_length <= INT_MAX ->
  ~ In (literal QMARK) (spec_tokens pattern) ->
  ~ In (literal STAR) (spec_tokens pattern) ->
  num_stars (calculate_pattern_info (parse_pattern pattern)) <= 1 ->
  pattern_counts check_stop (parse_pattern pattern) (size charset) min_length max_length
  = (true, total, counts) ->
  (forall L c,
     counts !! L = Some c <->
     min_length <= L <= max_length /\ 0 < c /\
     calculate_pattern_combinations (parse_pattern pattern) (size charset) L = Some c) /\
  total = sum_counts counts min_length (Z.to_nat (max_length - min_length + 1)) /\
  total <= UINT64_MAX /\
  forall g, 0 <= g < total ->
    exists (L : Z) (s : str),
      min_length <= L <= max_length /\
      getPatternPasswordByGlobalIndex g (parse_pattern pattern) charset
        min_length max_length counts = Some s /\
      size s = L /\ spec_matches charset pattern s.
Proof.
  intros Hne Hmin Hmax HQ HS Hstars Hpc.
  destruct (random_pattern_counts_assembled check_stop (parse_pattern pattern) charset
              min_length max_length total counts Hne Hmin Hmax Hstars Hpc)
    as (Hkeys & Hall & Htotal & Hfit & Hcand).
  split; [|split; [exact Htotal|split; [exact Hfit|]]].
  - intros L c. split; [apply Hkeys|].
    intros (HL & Hpos & Hcalc). apply Hall; assumption.
  - intros g Hg. destruct (Hcand g Hg) as (L & s & HL & Hs & Hsz & Hm).
    exists L, s. split; [exact HL|]. split; [exact Hs|]. split; [exact Hsz|].
    exact (assembled_matches charset pattern s _ HQ HS Hm).
Qed.

Lemma random_pattern_candidates_match_witness :
  (forall L c,
     ({[ 2 := 2 ]} : gmap Z Z) !! L = Some c <->
     1 <= L <= 2 /\ 0 < c /\
     calculate_pattern_combinations (parse_pattern (lit "a?")) (size (lit "xy")) L
     = Some c) /\
  2 = sum_counts {[ 2 := 2 ]} 1 (Z.to_nat (2 - 1 + 1)) /\
  2 <= UINT64_MAX /\
  forall g, 0 <= g < 2 ->
    exists (L : Z) (s : str),
      1 <= L <= 2 /\
      getPatternPasswordByGlobalIndex g (parse_pattern (lit "a?")) (lit "xy") 1 2
        {[ 2 := 2 ]} = Some s /\
      size s = L /\ spec_matches (lit "xy") (lit "a?") s.
Proof.
  apply (random_pattern_candidates_match (fun _ => false) (lit "a?") (lit "xy")
           1 2 2 {[ 2 := 2 ]}).
  - discriminate.
  - lia.
  - unfold INT_MAX. lia.
  - intros [H|[H|[]]]; discriminate H.
  - intros [H|[H|[]]]; discriminate H.
  - vm_compute. discriminate.
  - reflexivity.
Defined.
